(** * Micrograd: a scalar reverse-mode autodiff engine and its small MLP layer

    A shallow embedding of [buildingMicrograd.ipynb]: the class [Value]
    (cell 3), the function [trace] (cell 5) and the classes [Neuron],
    [Layer] and [MLP] (cell 14).

    - Python objects live in a store; a reference is the position of the
      object in allocation order, which is what object identity gives the
      notebook ([Value] defines neither [__eq__] nor [__hash__], so sets of
      nodes are keyed by identity).
    - The [data] and [grad] of a node are binary64 floats with their
      rounding (Rocq's primitive floats), as in the notebook's examples; an
      integer literal of the class ([-1], [1], [2]) is the float Python
      converts it to when it meets a float.  The arithmetic the class relies
      on is collected in the class [Arith], so that the engine can also be
      read over an exact number type.
    - Python exceptions are explicit results, and the store survives them. *)

From Stdlib Require Import ZArith String Ring.
From Stdlib Require Import Floats.PrimFloat Floats.FloatOps Floats.SpecFloat.
From Stdlib Require Import Floats.FloatAxioms.
From stdpp Require Import gmap list sets.

Set Warnings "-inexact-float,-clear-no-such-hyp".

(** ** Results of Python computations *)

(** The exceptions the notebook's code can raise. [InvalidRef] is not a
    Python exception: it is the embedding's answer when a reference names no
    object of the store, which cannot happen in Python, where a reference
    keeps its object alive.  [ComplexResult] is not an exception either:
    a negative float raised to a non-integral power is a [complex] number in
    Python 3, which the float-valued embedding does not follow further. *)
Inductive exn : Type :=
  | AssertionError
  | ZeroDivisionError
  | OverflowError
  | ValueError
  | TypeError
  | ComplexResult
  | InvalidRef.

Inductive result (A : Type) : Type :=
  | Ok (a : A)
  | Raise (e : exn).
Arguments Ok {A} a.
Arguments Raise {A} e.

#[global] Instance exn_eq_dec : EqDecision exn.
Proof. solve_decision. Defined.

(** ** The arithmetic the engine uses *)

(** An exponent of [__pow__] that passed the [isinstance] assertion: a Python
    [int] or a Python [float]. *)
Inductive exponent (F : Type) : Type :=
  | EInt (z : Z)
  | EFloat (f : F).
Arguments EInt {F} z.
Arguments EFloat {F} f.

(** [f_lit z] is the float an integer literal of the program text ([1], [2],
    [-1], [0.0], [1.0]) denotes in mixed arithmetic; [f_of_int] is the
    conversion of a run-time [int], which raises [OverflowError] when the
    integer is too large; [f_div], [f_pow] and [f_exp] are [/], [**] and
    [math.exp] on floats. *)
Class Arith (F : Type) : Type := {
  f_lit : Z -> F;
  f_add : F -> F -> F;
  f_sub : F -> F -> F;
  f_mul : F -> F -> F;
  f_neg : F -> F;
  f_div : F -> F -> result F;
  f_pow : F -> F -> result F;
  f_exp : F -> result F;
  f_of_int : Z -> result F
}.

(** ** Binary64 floats, as CPython computes with them *)

Module Float64.

Local Open Scope float_scope.

(** Round-to-nearest-even conversion of an integer. *)
Definition of_Z (z : Z) : float :=
  SF2Prim (binary_normalize prec emax z 0 false).

(** [int -> float]: [OverflowError: int too large to convert to float]. *)
Definition of_int (z : Z) : result float :=
  let f := of_Z z in
  if is_infinity f then Raise OverflowError else Ok f.

(** [floor] of a finite float, as an integer. *)
Definition floor (x : float) : Z :=
  match Prim2SF x with
  | S754_finite s m e =>
      let n := if s then Z.neg m else Z.pos m in
      if (0 <=? e)%Z then (n * 2 ^ e)%Z else (n / 2 ^ (- e))%Z
  | _ => 0%Z
  end.

Definition is_integer (x : float) : bool :=
  match Prim2SF x with
  | S754_zero _ => true
  | S754_finite _ m e =>
      if (0 <=? e)%Z then true else (Z.pos m mod 2 ^ (- e) =? 0)%Z
  | _ => false
  end.

(** CPython's [DOUBLE_IS_ODD_INTEGER]. *)
Definition is_odd_integer (x : float) : bool :=
  is_integer x && Z.odd (floor x).

(** The C library under the interpreter.  Its [exp] and [pow] are only
    called on finite arguments (a positive base for [pow]); how they round
    is the platform's business, so they are a parameter of the model. *)
Record libm : Type := { c_exp : float -> float; c_pow : float -> float -> float }.

(** [x / y] on floats: [ZeroDivisionError: float division by zero]. *)
Definition div (x y : float) : result float :=
  if y =? 0 then Raise ZeroDivisionError else Ok (x / y).

(** [math.exp]: the C result; [OverflowError: math range error] when a
    finite argument gives an infinite result, [ValueError: math domain
    error] when it gives a NaN. *)
Definition math_exp (L : libm) (x : float) : result float :=
  if is_nan x then Ok nan
  else if x =? infinity then Ok infinity
  else if x =? neg_infinity then Ok 0
  else
    let r := c_exp L x in
    if is_nan r then Raise ValueError
    else if is_infinity r then Raise OverflowError
    else Ok r.

(** [x ** y] on floats, following the case analysis of CPython's
    [float_pow]. *)
Definition pow (L : libm) (x y : float) : result float :=
  if y =? 0 then Ok 1
  else if is_nan x then Ok x
  else if is_nan y then Ok (if x =? 1 then 1 else y)
  else if is_infinity y then
    let ax := abs x in
    if ax =? 1 then Ok 1
    else if Bool.eqb (0 <? y) (1 <? ax) then Ok (abs y) else Ok 0
  else if is_infinity x then
    let odd := is_odd_integer y in
    if 0 <? y then Ok (if odd then x else abs x)
    else Ok (if odd then (if get_sign x then neg_zero else 0) else 0)
  else if x =? 0 then
    if y <? 0 then Raise ZeroDivisionError
    else Ok (if is_odd_integer y then x else 0)
  else if (x <? 0) && negb (is_integer y) then Raise ComplexResult
  else
    let negate := (x <? 0) && is_odd_integer y in
    let ax := abs x in
    if ax =? 1 then Ok (if negate then -1 else 1)
    else
      let r := c_pow L ax y in
      if is_nan r then Raise ValueError
      else if is_infinity r then Raise OverflowError
      else Ok (if negate then - r else r).

#[global] Instance arith (L : libm) : Arith float := {
  f_lit := of_Z;
  f_add := PrimFloat.add;
  f_sub := PrimFloat.sub;
  f_mul := PrimFloat.mul;
  f_neg := PrimFloat.opp;
  f_div := div;
  f_pow := pow L;
  f_exp := math_exp L;
  f_of_int := of_int
}.

(** A reference C library, good to about thirteen digits, for running the
    model on concrete inputs. *)
Definition ln2 : float := 0x1.62e42fefa39efp-1.

Fixpoint horner_exp (n : nat) (k : float) (r : float) : float :=
  match n with
  | O => 1
  | S n' => 1 + r / k * horner_exp n' (k + 1) r
  end.

Definition ref_exp (x : float) : float :=
  let k := floor (x / ln2 + 0.5) in
  let r := x - of_Z k * ln2 in
  Z.ldexp (horner_exp 24 1 r) k.

Fixpoint atanh_series (n : nat) (k : float) (z2 : float) : float :=
  match n with
  | O => 1 / k
  | S n' => 1 / k + z2 * atanh_series n' (k + 2) z2
  end.

Definition ref_log (x : float) : float :=
  let (m, e) := Z.frexp x in
  let z := (m - 1) / (m + 1) in
  of_Z e * ln2 + 2 * z * atanh_series 40 1 (z * z).

Fixpoint pow_pos (x : float) (p : positive) : float :=
  match p with
  | xH => x
  | xO q => let h := pow_pos x q in h * h
  | xI q => let h := pow_pos x q in x * (h * h)
  end.

Definition ref_pow (x y : float) : float :=
  if is_integer y && (abs y <=? 64) then
    match floor y with
    | Z0 => 1
    | Z.pos p => pow_pos x p
    | Z.neg p => 1 / pow_pos x p
    end
  else ref_exp (y * ref_log x).

Definition reference : libm := {| c_exp := ref_exp; c_pow := ref_pow |}.

End Float64.

(** ** The store of [Value] objects *)

(** A reference to a [Value]: its position in the store. *)
Abbreviation ref := nat.

(** What [_backward] is bound to.  The notebook binds a closure over the
    variables [self], [other], [out] (and [t] in [tanh]); the closure is
    kept as the operation's tag with the references it captured. *)
Inductive closure (F : Type) : Type :=
  | BwNone                                              (* lambda: None *)
  | BwAdd (self other out : ref)
  | BwMul (self other out : ref)
  | BwPow (self : ref) (other : exponent F) (out : ref)
  | BwTanh (self : ref) (t : F) (out : ref)
  | BwExp (self out : ref).
Arguments BwNone {F}.
Arguments BwAdd {F} self other out.
Arguments BwMul {F} self other out.
Arguments BwPow {F} self other out.
Arguments BwTanh {F} self t out.
Arguments BwExp {F} self out.

(** The [_op] string: [''], ['+'], ['*'], [f'**{other}'], ['tanh'], ['exp']. *)
Inductive op_tag (F : Type) : Type :=
  | OpLeaf
  | OpAdd
  | OpMul
  | OpPow (other : exponent F)
  | OpTanh
  | OpExp.
Arguments OpLeaf {F}.
Arguments OpAdd {F}.
Arguments OpMul {F}.
Arguments OpPow {F} other.
Arguments OpTanh {F}.
Arguments OpExp {F}.

(** The attributes [Value.__init__] sets.  [_prev] is [set(_children)]. *)
Record Value (F : Type) : Type := mkValue {
  data : F;
  grad : F;
  _backward : closure F;
  _prev : gset ref;
  _op : op_tag F;
  label : string
}.
Arguments mkValue {F} data grad _backward _prev _op label.
Arguments data {F} v.
Arguments grad {F} v.
Arguments _backward {F} v.
Arguments _prev {F} v.
Arguments _op {F} v.
Arguments label {F} v.

(** The second argument of a binary operator: a [Value], or a raw number. *)
Inductive operand (F : Type) : Type :=
  | ONode (r : ref)
  | OLit (k : F).
Arguments ONode {F} r.
Arguments OLit {F} k.

(** The second argument of [__pow__], before the [isinstance] assertion. *)
Inductive pyobj (F : Type) : Type :=
  | PyInt (z : Z)
  | PyFloat (f : F)
  | PyBool (b : bool)
  | PyStr (s : string)
  | PyNone
  | PyValue (r : ref).
Arguments PyInt {F} z.
Arguments PyFloat {F} f.
Arguments PyBool {F} b.
Arguments PyStr {F} s.
Arguments PyNone {F}.
Arguments PyValue {F} r.

(** The store: the objects in allocation order. *)
Abbreviation heap F := (list (Value F)).

(** The binary operators [+], [-], [*], [/]. *)
Inductive binop : Type := BinAdd | BinSub | BinMul | BinTrueDiv.

Section Engine.

Context {F : Type} {A : Arith F}.

(** *** Store-passing computations that may raise *)

Definition M (X : Type) : Type := heap F -> result X * heap F.

Definition ret {X} (x : X) : M X := fun h => (Ok x, h).

Definition bind {X Y} (m : M X) (k : X -> M Y) : M Y :=
  fun h =>
    match m h with
    | (Ok x, h') => k x h'
    | (Raise e, h') => (Raise e, h')
    end.

Definition raise {X} (e : exn) : M X := fun h => (Raise e, h).

Definition lift {X} (r : result X) : M X := fun h => (r, h).

Notation "'let*' x := m 'in' k" := (bind m (fun x => k))
  (at level 10, x name, m at level 100, k at level 200).
Notation "m ;; k" := (bind m (fun _ => k))
  (at level 100, k at level 200, right associativity).

Definition deref (r : ref) : M (Value F) :=
  fun h => match h !! r with
           | Some v => (Ok v, h)
           | None => (Raise InvalidRef, h)
           end.

Definition get_data (r : ref) : M F := let* v := deref r in ret (data v).
Definition get_grad (r : ref) : M F := let* v := deref r in ret (grad v).

Definition with_grad (g : F) (v : Value F) : Value F :=
  mkValue (data v) g (_backward v) (_prev v) (_op v) (label v).

Definition with_backward (c : closure F) (v : Value F) : Value F :=
  mkValue (data v) (grad v) c (_prev v) (_op v) (label v).

Definition update (r : ref) (f : Value F -> Value F) : M unit :=
  fun h => match h !! r with
           | Some v => (Ok tt, <[r := f v]> h)
           | None => (Raise InvalidRef, h)
           end.

Definition set_grad (r : ref) (g : F) : M unit := update r (with_grad g).
Definition set_backward (r : ref) (c : closure F) : M unit :=
  update r (with_backward c).

(** [Value(data, _children, _op)]: a new object, [grad = 0.0],
    [_backward = lambda: None], [_prev = set(_children)], [label = '']. *)
Definition new_Value (d : F) (_children : list ref) (op : op_tag F) : M ref :=
  fun h =>
    (Ok (length h),
     h ++ [mkValue d (f_lit 0) BwNone (list_to_set _children) op EmptyString]).

(** *** Arithmetic on exponents *)

(** [isinstance(other, (int, float))]; [bool] is a subclass of [int]. *)
Definition as_exponent (other : pyobj F) : option (exponent F) :=
  match other with
  | PyInt z => Some (EInt z)
  | PyFloat f => Some (EFloat f)
  | PyBool b => Some (EInt (if b then 1 else 0))
  | PyStr _ | PyNone | PyValue _ => None
  end.

(** [x ** other] for a float [x]: an [int] exponent is converted first. *)
Definition py_pow (x : F) (other : exponent F) : result F :=
  match other with
  | EInt z =>
      match f_of_int z with
      | Ok y => f_pow x y
      | Raise e => Raise e
      end
  | EFloat y => f_pow x y
  end.

(** [other - 1] *)
Definition exponent_pred (other : exponent F) : exponent F :=
  match other with
  | EInt z => EInt (z - 1)
  | EFloat f => EFloat (f_sub f (f_lit 1))
  end.

(** [other * x] for a float [x] *)
Definition exponent_mul (other : exponent F) (x : F) : result F :=
  match other with
  | EInt z =>
      match f_of_int z with
      | Ok y => Ok (f_mul y x)
      | Raise e => Raise e
      end
  | EFloat f => Ok (f_mul f x)
  end.

(** *** The operators of class [Value] *)

(** [other if isinstance(other, Value) else Value(other)] *)
Definition wrap (other : operand F) : M ref :=
  match other with
  | ONode r => ret r
  | OLit k => new_Value k [] OpLeaf
  end.

Definition __add__ (self : ref) (other : operand F) : M ref :=
  let* other := wrap other in
  let* a := get_data self in
  let* b := get_data other in
  let* out := new_Value (f_add a b) [self; other] OpAdd in
  set_backward out (BwAdd self other out) ;;
  ret out.

Definition __mul__ (self : ref) (other : operand F) : M ref :=
  let* other := wrap other in
  let* a := get_data self in
  let* b := get_data other in
  let* out := new_Value (f_mul a b) [self; other] OpMul in
  set_backward out (BwMul self other out) ;;
  ret out.

Definition __pow__ (self : ref) (other : pyobj F) : M ref :=
  match as_exponent other with
  | None => raise AssertionError
  | Some p =>
      let* a := get_data self in
      let* v := lift (py_pow a p) in
      let* out := new_Value v [self] (OpPow p) in
      set_backward out (BwPow self p out) ;;
      ret out
  end.

(** [other * self], [other] not a [Value] *)
Definition __rmul__ (self : ref) (other : F) : M ref :=
  __mul__ self (OLit other).

(** [self * other**-1]: for a raw number, [other**-1] is a number. *)
Definition __truediv__ (self : ref) (other : operand F) : M ref :=
  match other with
  | ONode b =>
      let* p := __pow__ b (PyInt (-1)) in
      __mul__ self (ONode p)
  | OLit k =>
      let* q := lift (f_pow k (f_lit (-1))) in
      __mul__ self (OLit q)
  end.

(** [self * -1] *)
Definition __neg__ (self : ref) : M ref :=
  __mul__ self (OLit (f_lit (-1))).

(** [self + (-other)]: for a raw number, [-other] is a number. *)
Definition __sub__ (self : ref) (other : operand F) : M ref :=
  match other with
  | ONode b =>
      let* n := __neg__ b in
      __add__ self (ONode n)
  | OLit k => __add__ self (OLit (f_neg k))
  end.

(** [other + self], [other] not a [Value] *)
Definition __radd__ (self : ref) (other : F) : M ref :=
  __add__ self (OLit other).

Definition tanh (self : ref) : M ref :=
  let* x := get_data self in
  let* e1 := lift (f_exp (f_mul (f_lit 2) x)) in
  let* e2 := lift (f_exp (f_mul (f_lit 2) x)) in
  let* t := lift (f_div (f_sub e1 (f_lit 1)) (f_add e2 (f_lit 1))) in
  let* out := new_Value t [self] OpTanh in
  set_backward out (BwTanh self t out) ;;
  ret out.

Definition exp (self : ref) : M ref :=
  let* x := get_data self in
  let* v := lift (f_exp x) in
  let* out := new_Value v [self] OpExp in
  set_backward out (BwExp self out) ;;
  ret out.

(** *** Binary operators between a number and a [Value]

    [k op a] with [k] a number: the number's own method answers
    [NotImplemented], and Python looks for the reflected method of
    [Value].  The class defines [__radd__] and [__rmul__] only. *)
Definition forward_method (op : binop) : ref -> operand F -> M ref :=
  match op with
  | BinAdd => __add__
  | BinSub => __sub__
  | BinMul => __mul__
  | BinTrueDiv => __truediv__
  end.

Definition reflected_method (op : binop) : option (ref -> F -> M ref) :=
  match op with
  | BinAdd => Some __radd__
  | BinMul => Some __rmul__
  | BinSub | BinTrueDiv => None
  end.

(** [a op x] for a node [a] *)
Definition node_op (op : binop) (a : ref) (x : operand F) : M ref :=
  forward_method op a x.

(** [k op a] for a number [k] and a node [a] *)
Definition number_op (op : binop) (k : F) (a : ref) : M ref :=
  match reflected_method op with
  | Some m => m a k
  | None => raise TypeError
  end.

(** *** The local backward rules *)

(** [target.grad += m * out.grad] *)
Definition accumulate (target : ref) (m : F) (out : ref) : M unit :=
  let* g := get_grad target in
  let* og := get_grad out in
  set_grad target (f_add g (f_mul m og)).

Definition call_closure (c : closure F) : M unit :=
  match c with
  | BwNone => ret tt
  | BwAdd self other out =>
      accumulate self (f_lit 1) out ;;
      accumulate other (f_lit 1) out
  | BwMul self other out =>
      (let* g := get_grad self in
       let* d := get_data other in
       let* og := get_grad out in
       set_grad self (f_add g (f_mul d og))) ;;
      (let* g := get_grad other in
       let* d := get_data self in
       let* og := get_grad out in
       set_grad other (f_add g (f_mul d og)))
  | BwPow self other out =>
      let* g := get_grad self in
      let* d := get_data self in
      let* p := lift (py_pow d (exponent_pred other)) in
      let* m := lift (exponent_mul other p) in
      let* og := get_grad out in
      set_grad self (f_add g (f_mul m og))
  | BwTanh self t out =>
      let* g := get_grad self in
      let* t2 := lift (py_pow t (EInt 2)) in
      let* og := get_grad out in
      set_grad self (f_add g (f_mul (f_sub (f_lit 1) t2) og))
  | BwExp self out =>
      let* g := get_grad self in
      let* d := get_data out in
      let* og := get_grad out in
      set_grad self (f_add g (f_mul d og))
  end.

(** [node._backward()] *)
Definition call_backward (node : ref) : M unit :=
  let* v := deref node in
  call_closure (_backward v).

(** *** [Value.backward] *)

(** The order in which [for child in v._prev] enumerates the set of node
    [v]: Python fixes no order for a set of objects hashed by identity, so
    the enumeration is a parameter. *)
Definition iteration : Type := ref -> gset ref -> list ref.

Definition iter_ok (iter : iteration) : Prop :=
  forall v s, iter v s ≡ₚ elements s.

(** [build_topo], with [visited] and [topo] threaded through.  The
    recursion is not structural; [fuel] bounds its depth, and [None]
    means the bound was reached (or a reference named no object). *)
Fixpoint build_topo (iter : iteration) (fuel : nat) (h : heap F) (v : ref)
    (st : gset ref * list ref) : option (gset ref * list ref) :=
  match fuel with
  | O => None
  | S fuel' =>
      if decide (v ∈ st.1) then Some st
      else
        match h !! v with
        | None => None
        | Some node =>
            match
              foldl (fun acc child =>
                       match acc with
                       | Some st' => build_topo iter fuel' h child st'
                       | None => None
                       end)
                    (Some ({[v]} ∪ st.1, st.2))
                    (iter v (_prev node))
            with
            | Some st' => Some (st'.1, st'.2 ++ [v])
            | None => None
            end
        end
  end.

(** The topological order [backward] builds; the depth of the recursion
    never exceeds the number of objects. *)
Definition topo_order (iter : iteration) (h : heap F) (self : ref)
    : option (list ref) :=
  match build_topo iter (length h) h self (∅, []) with
  | Some st => Some st.2
  | None => None
  end.

(** [for node in nodes: node._backward()], with the list of the nodes
    whose [_backward] was invoked. *)
Fixpoint run_backward (nodes : list ref) (h : heap F)
    : list ref * (result unit * heap F) :=
  match nodes with
  | [] => ([], (Ok tt, h))
  | node :: rest =>
      match call_backward node h with
      | (Ok _, h') =>
          let r := run_backward rest h' in (node :: r.1, r.2)
      | (Raise e, h') => ([node], (Raise e, h'))
      end
  end.

(** [self.backward()]: the invoked nodes, the outcome and the store. *)
Definition backward (iter : iteration) (self : ref) (h : heap F)
    : option (list ref * (result unit * heap F)) :=
  match topo_order iter h self with
  | None => None
  | Some topo =>
      match set_grad self (f_lit 1) h with
      | (Ok _, h1) => Some (run_backward (reverse topo) h1)
      | (Raise e, h1) => Some ([], (Raise e, h1))
      end
  end.

End Engine.

Arguments M F X : clear implicits.

Declare Scope py_scope.
Delimit Scope py_scope with py.
Notation "'let*' x := m 'in' k" := (bind m (fun x => k))
  (at level 10, x name, m at level 100, k at level 200) : py_scope.
Notation "m ;; k" := (bind m (fun _ => k))
  (at level 100, k at level 200, right associativity) : py_scope.

(** ** Neurons, layers and the multi-layer perceptron (cell 14)

    These objects are built once and never mutated, so they are plain
    records of references.  [random.uniform(-1,1)] is an injected source:
    [rand k] is the [k]-th number drawn, and the constructors thread the
    count of the draws. *)

(** What a layer is applied to and what it returns: a list ([Many]), or a
    single [Value] when the layer before held exactly one neuron ([One]). *)
Inductive activations (F : Type) : Type :=
  | One (r : ref)
  | Many (xs : list (operand F)).
Arguments One {F} r.
Arguments Many {F} xs.

Module Neuron.
Section Neuron.

  Context {F : Type} {A : Arith F}.
  Local Open Scope py_scope.

Record t : Type := { w : list ref; b : ref }.

  (** [[Value(random.uniform(-1,1)) for _ in range(nin)]] *)
Fixpoint draw_values (rand : nat -> F) (k : nat) (nin : nat) : M F (list ref) :=
match nin with
| O => ret []
| S n =>
    let* r := new_Value (rand k) [] OpLeaf in
    let* rs := draw_values rand (S k) n in
    ret (r :: rs)
end.

Definition __init__ (rand : nat -> F) (k : nat) (nin : nat) : M F (t * nat) :=
let* ws := draw_values rand k nin in
let* bias := new_Value (rand (k + nin)) [] OpLeaf in
ret ({| w := ws; b := bias |}, S (k + nin)).

  (** [sum((wi*xi for wi, xi in zip(self.w, x)), self.b)]: each product is
  formed when [sum] asks for it, then added to the running total. *)
Fixpoint sum_products (acc : ref) (wx : list (ref * operand F)) : M F ref :=
match wx with
| [] => ret acc
| (wi, xi) :: rest =>
    let* p := __mul__ wi xi in
    let* acc' := __add__ acc (ONode p) in
    sum_products acc' rest
end.

Definition __call__ (self : t) (x : activations F) : M F ref :=
match x with
| One _ => raise TypeError          (* zip over a Value *)
| Many xs =>
    let* act := sum_products (b self) (zip (w self) xs) in
    tanh act
end.

Definition parameters (self : t) : list ref := w self ++ [b self].

End Neuron.
End Neuron.

Module Layer.
Section Layer.

  Context {F : Type} {A : Arith F}.
  Local Open Scope py_scope.

Record t : Type := { neurons : list Neuron.t }.

  (** [[Neuron(nin) for _ in range(nout)]] *)
Fixpoint make_neurons (rand : nat -> F) (k : nat) (nin nout : nat)
  : M F (list Neuron.t * nat) :=
match nout with
| O => ret ([], k)
| S n =>
    let* nk := Neuron.__init__ rand k nin in
    let* rest := make_neurons rand nk.2 nin n in
    ret (nk.1 :: rest.1, rest.2)
end.

Definition __init__ (rand : nat -> F) (k : nat) (nin nout : nat)
  : M F (t * nat) :=
let* ns := make_neurons rand k nin nout in
ret ({| neurons := ns.1 |}, ns.2).

  (** [[n(x) for n in self.neurons]] *)
Fixpoint call_neurons (ns : list Neuron.t) (x : activations F)
  : M F (list ref) :=
match ns with
| [] => ret []
| n :: rest =>
    let* o := Neuron.__call__ n x in
    let* os := call_neurons rest x in
    ret (o :: os)
end.

  (** [outs[0] if len(outs) == 1 else outs] *)
Definition __call__ (self : t) (x : activations F) : M F (activations F) :=
let* outs := call_neurons (neurons self) x in
match outs with
| [o] => ret (One o)
| _ => ret (Many (ONode <$> outs))
end.

Definition parameters (self : t) : list ref :=
concat (Neuron.parameters <$> neurons self).

End Layer.
End Layer.

Module MLP.
Section MLP.

  Context {F : Type} {A : Arith F}.
  Local Open Scope py_scope.

Record t : Type := { layers : list Layer.t }.

  (** [[Layer(sz[i], sz[i+1]) for i in range(len(nouts))]] with
  [sz = [nin] + nouts] *)
Fixpoint make_layers (rand : nat -> F) (k : nat) (nin : nat) (nouts : list nat)
  : M F (list Layer.t * nat) :=
match nouts with
| [] => ret ([], k)
| nout :: rest =>
    let* lk := Layer.__init__ rand k nin nout in
    let* ls := make_layers rand lk.2 nout rest in
    ret (lk.1 :: ls.1, ls.2)
end.

Definition __init__ (rand : nat -> F) (k : nat) (nin : nat) (nouts : list nat)
  : M F (t * nat) :=
let* ls := make_layers rand k nin nouts in
ret ({| layers := ls.1 |}, ls.2).

  (** [for layer in self.layers: x = layer(x)] *)
Fixpoint call_layers (ls : list Layer.t) (x : activations F)
  : M F (activations F) :=
match ls with
| [] => ret x
| l :: rest =>
    let* x' := Layer.__call__ l x in
    call_layers rest x'
end.

Definition __call__ (self : t) (x : activations F) : M F (activations F) :=
call_layers (layers self) x.

Definition parameters (self : t) : list ref :=
concat (Layer.parameters <$> layers self).

End MLP.
End MLP.

(** ** Exact integers

    An arithmetic whose addition is associative and commutative, unlike the
    rounded addition of floats.  Quotients are truncated and [exp] is
    refused away from [0]: the instance is there to run the engine without
    rounding, not to model Python. *)
Module ExactInt.

Local Open Scope Z_scope.

Definition div (x y : Z) : result Z :=
  if y =? 0 then Raise ZeroDivisionError else Ok (x ÷ y).

Definition pow (x y : Z) : result Z :=
  if 0 <=? y then Ok (x ^ y)
  else if x =? 0 then Raise ZeroDivisionError else Ok (1 ÷ x ^ (- y)).

Definition exp (x : Z) : result Z :=
  if x =? 0 then Ok 1 else Raise OverflowError.

#[global] Instance arith : Arith Z := {
  f_lit := fun z => z;
  f_add := Z.add;
  f_sub := Z.sub;
  f_mul := Z.mul;
  f_neg := Z.opp;
  f_div := div;
  f_pow := pow;
  f_exp := exp;
  f_of_int := fun z => Ok z
}.

End ExactInt.

(** ** Graph notions used by the statements *)

Section Graph.

Context {F : Type} {A : Arith F}.

(** The operands of node [v]: the members of [v._prev]. *)
Definition children (h : heap F) (v : ref) : gset ref :=
  match h !! v with
  | Some node => _prev node
  | None => ∅
  end.

(** [u] is reachable from [t] along operand edges. *)
Definition reachable (h : heap F) (t u : ref) : Prop :=
  rtc (fun v c => c ∈ children h v) t u.

(** The nodes whose [grad] a closure writes, and the node it reads the
    upstream gradient from. *)
Definition targets (c : closure F) : list ref :=
  match c with
  | BwNone => []
  | BwAdd self other _ | BwMul self other _ => [self; other]
  | BwPow self _ _ | BwTanh self _ _ | BwExp self _ => [self]
  end.

Definition closure_out (c : closure F) : option ref :=
  match c with
  | BwNone => None
  | BwAdd _ _ out | BwMul _ _ out | BwPow _ _ out
  | BwTanh _ _ out | BwExp _ out => Some out
  end.

(** A node as the operators build it: its operands were allocated before
    it, and its closure was bound to the node itself and to operands. *)
Definition node_ok (i : ref) (v : Value F) : Prop :=
  set_Forall (fun c => c < i) (_prev v)
  ∧ Forall (fun r => r ∈ _prev v) (targets (_backward v))
  ∧ (closure_out (_backward v) = None ∨ closure_out (_backward v) = Some i).

#[global] Instance node_ok_dec i v : Decision (node_ok i v).
Proof. unfold node_ok. apply _. Defined.

(** A store built by the operators: acyclic by construction. *)
Definition wf (h : heap F) : Prop :=
  Forall (fun iv => node_ok iv.1 iv.2) (imap pair h).

#[global] Instance wf_dec h : Decision (wf h).
Proof. unfold wf. apply _. Defined.

(** Every node of [topo] comes strictly after each of its operands. *)
Definition operands_first (h : heap F) (topo : list ref) : Prop :=
  forall i u c, topo !! i = Some u -> c ∈ children h u ->
                exists j, j < i ∧ topo !! j = Some c.

(** Two objects that differ at most in [grad]. *)
Definition same_node (v v' : Value F) : Prop :=
  data v' = data v ∧ _backward v' = _backward v ∧ _prev v' = _prev v
  ∧ _op v' = _op v ∧ label v' = label v.

(** [h'] has the objects of [h], changed at most in the [grad] of the
    nodes in [S]. *)
Definition grads_only (S : ref -> Prop) (h h' : heap F) : Prop :=
  Forall2 same_node h h'
  ∧ forall i v v', h !! i = Some v -> h' !! i = Some v' -> ¬ S i -> v' = v.

Definition grad_of (h : heap F) (r : ref) : option F :=
  grad <$> h !! r.

End Graph.

(** ** Notions used by the proofs *)

Section ProofNotions.

Context {F : Type} {A : Arith F}.

(** The object an operator leaves in the store: [Value(d, children, op)]
    with [_backward] rebound to [c]. *)
Definition built (d : F) (c : closure F) (children : list ref) (op : op_tag F)
    : Value F :=
  mkValue d (f_lit 0) c (list_to_set children) op EmptyString.

(** A computation that keeps the store well formed, whether it returns or
    raises. *)
Definition preserves_wf {X} (m : M F X) : Prop :=
  forall h r h', wf h -> m h = (r, h') -> wf h'.

(** The state of [build_topo] between two calls: [topo] lists visited
    nodes, each after its operands. *)
Definition dfs_inv (h : heap F) (vis : gset ref) (topo : list ref) : Prop :=
  NoDup topo ∧ operands_first h topo ∧ (forall u, u ∈ topo -> u ∈ vis).

(** One turn of the loop [for child in v._prev: build_topo(child)]. *)
Definition visit_step (iter : iteration) (h : heap F) (n : nat)
    (acc : option (gset ref * list ref)) (child : ref)
    : option (gset ref * list ref) :=
  match acc with
  | Some st' => build_topo iter n h child st'
  | None => None
  end.

(** [build_topo] with fuel [n] finishes on every node below [n], appending
    the nodes it newly reaches. *)
Definition visit_ok (iter : iteration) (h : heap F) (n : nat) : Prop :=
  forall v vis topo,
    v < n -> v < length h -> dfs_inv h vis topo ->
    (forall u, u ∈ vis -> u ∉ topo -> v < u) ->
    exists new,
      build_topo iter n h v (vis, topo)
        = Some (vis ∪ list_to_set new, topo ++ new)
      ∧ dfs_inv h (vis ∪ list_to_set new) (topo ++ new)
      ∧ v ∈ topo ++ new
      ∧ (forall u, u ∈ new -> reachable h v u).

(** Computations that change at most the gradients of the nodes in [S]. *)
Definition frames {X} (S : ref -> Prop) (m : M F X) : Prop :=
  forall h r h', m h = (r, h') -> grads_only S h h'.

(** The nodes whose gradient [u._backward()] writes. *)
Definition writes (h : heap F) (u : ref) : list ref :=
  match h !! u with
  | Some x => targets (_backward x)
  | None => []
  end.

(** [r.grad += d] as a function on stores. *)
Definition bump (r : ref) (d : F) (h : heap F) : heap F :=
  alter (fun x => with_grad (f_add (grad x) d) x) r h.

Definition apply_deltas (ds : list (ref * F)) (h : heap F) : heap F :=
  foldl (fun h' rd => bump rd.1 rd.2 h') h ds.

(** What [u._backward()] adds, and to which nodes, in a well-formed store:
    it depends on [u.grad] and on [data] fields only. *)
Definition deltas (h : heap F) (u : ref) : result (list (ref * F)) :=
  match h !! u with
  | None => Raise InvalidRef
  | Some x =>
      let og := grad x in
      match _backward x with
      | BwNone => Ok []
      | BwAdd self other _ =>
          Ok [(self, f_mul (f_lit 1) og); (other, f_mul (f_lit 1) og)]
      | BwMul self other _ =>
          match h !! self, h !! other with
          | Some vs, Some vo =>
              Ok [(self, f_mul (data vo) og); (other, f_mul (data vs) og)]
          | _, _ => Raise InvalidRef
          end
      | BwPow self other _ =>
          match h !! self with
          | Some vs =>
              match py_pow (data vs) (exponent_pred other) with
              | Ok p =>
                  match exponent_mul other p with
                  | Ok m => Ok [(self, f_mul m og)]
                  | Raise e => Raise e
                  end
              | Raise e => Raise e
              end
          | None => Raise InvalidRef
          end
      | BwTanh self t _ =>
          match py_pow t (EInt 2) with
          | Ok t2 => Ok [(self, f_mul (f_sub (f_lit 1) t2) og)]
          | Raise e => Raise e
          end
      | BwExp self _ => Ok [(self, f_mul (data x) og)]
      end
  end.

(** The pass over [nodes] invokes every one of them and ends in [h']. *)
Definition completes (nodes : list ref) (h h' : heap F) : Prop :=
  run_backward nodes h = (nodes, (Ok tt, h')).

(** Once a node of the list has run, no later node writes its gradient. *)
Definition settled (h : heap F) (nodes : list ref) : Prop :=
  forall l1 u l2, nodes = l1 ++ u :: l2 ->
                  forall p, p ∈ u :: l2 -> u ∉ writes h p.

(** The leaves drawn for the numbers [rand k], ..., [rand (k + n - 1)]. *)
Definition drawn (rand : nat -> F) (k n : nat) : list (Value F) :=
  (fun j => built (rand j) BwNone [] OpLeaf) <$> seq k n.

(** The number of parameters of [MLP(nin, nouts)]. *)
Fixpoint parameter_count (nin : nat) (nouts : list nat) : nat :=
  match nouts with
  | [] => 0
  | nout :: rest => nout * S nin + parameter_count nout rest
  end.

End ProofNotions.


(** ** The derived operators, as the specification words them *)

Module Spec.
Section Spec.

Context {F : Type} {A : Arith F}.
Local Open Scope py_scope.

(** negate(a): defined as multiply(a, -1) *)
Definition negate (a : ref) : M F ref :=
  __mul__ a (OLit (f_lit (-1))).

(** subtract(a, b): defined as add(a, negate(b)) *)
Definition subtract (a b : ref) : M F ref :=
  let* n := negate b in
  __add__ a (ONode n).

(** divide(a, b): defined as multiply(a, power(b, -1)) *)
Definition divide (a b : ref) : M F ref :=
  let* p := __pow__ b (PyInt (-1)) in
  __mul__ a (ONode p).

End Spec.
End Spec.

(** ** Example programs

    Small notebook-style programs, run on binary64 floats with the
    reference C library, and two ways of enumerating operand sets. *)
Module Examples.

Import Float64.
Local Open Scope py_scope.
Local Open Scope float_scope.

(** [for child in s] in the order of [elements], and in the opposite order *)
Definition by_elements : iteration := fun _ s => elements s.
Definition by_elements_reversed : iteration := fun _ s => reverse (elements s).

(** [Value(x)] *)
Definition leaf {F} {A : Arith F} (x : F) : M F ref := new_Value x [] OpLeaf.

(** [c = a*a + a] over an existing node [a] *)
Definition diamond_over {F} {A : Arith F} (a : ref) : M F ref :=
  let* m := __mul__ a (ONode a) in
  __add__ m (ONode a).

(** [a = Value(x); t = a*a] *)
Definition square {F} {A : Arith F} (x : F) : M F ref :=
  let* a := leaf x in
  __mul__ a (ONode a).

(** [a = Value(x); t = a op k] and [t = k op a] for a number [k] *)
Definition node_with_number {F} {A : Arith F} (op : binop) (x k : F) : M F ref :=
  let* a := leaf x in
  node_op op a (OLit k).

Definition number_with_node {F} {A : Arith F} (op : binop) (k x : F) : M F ref :=
  let* a := leaf x in
  number_op op k a.

(** [a = Value(xa); b = Value(xb); c = Value(xc); t = a*b + c] *)
Definition product_plus {F} {A : Arith F} (xa xb xc : F) : M F ref :=
  let* a := leaf xa in
  let* b := leaf xb in
  let* c := leaf xc in
  let* m := __mul__ a (ONode b) in
  __add__ m (ONode c).


(** [a = Value(xa); t = (a*k1 + a*k2) + a*k3] *)
Definition three_uses {F} {A : Arith F} (xa k1 k2 k3 : F) : M F ref :=
  let* a := leaf xa in
  let* x := __mul__ a (OLit k1) in
  let* y := __mul__ a (OLit k2) in
  let* z := __mul__ a (OLit k3) in
  let* s := __add__ x (ONode y) in
  __add__ s (ONode z).

(** The store a program leaves when run from the empty store. *)
Definition store_of {F X} (p : M F X) : heap F := (p []).2.

#[export] Instance arith64 : Arith float := arith reference.

(** [three_uses] over exact integers, and the pass over it in the order of
    [elements]: the invoked nodes and the final store. *)
Definition exact_store : heap Z := store_of (three_uses 1 1 1 (10 ^ 16))%Z.

Definition exact_pass : list ref * heap Z :=
  match backward by_elements 8%nat exact_store with
  | Some (log, (_, h')) => (log, h')
  | None => ([], [])
  end.

(** [n = MLP(3, [4, 4, 1])] with every weight and bias drawn as [0.5] *)
Definition half_network : result (MLP.t * nat) * heap float :=
  MLP.__init__ (fun _ => 0.5) 0%nat 3%nat [4; 4; 1]%nat [].

End Examples.


(** ** Further notions *)

(** ** [trace] (cell 5)

    [trace(root)] collects the set of nodes under [root] and the set of
    operand edges [(child, v)] between them; [build] is threaded like
    [build_topo], with the same bound on the depth of the recursion. *)
Section Trace.

Context {F : Type}.




End Trace.

(** ** Local partial derivatives and forward-mode derivatives *)

Section Derivatives.

Context {F : Type} {A : Arith F}.

(** The factor by which the rule of node [u] multiplies [out.grad] before
    adding it to an operand: the operand and the partial derivative of [u]
    with respect to it, one entry per [+=] of the rule. *)
Definition partials (h : heap F) (u : ref) : result (list (ref * F)) :=
  match h !! u with
  | None => Raise InvalidRef
  | Some x =>
      match _backward x with
      | BwNone => Ok []
      | BwAdd self other _ => Ok [(self, f_lit 1); (other, f_lit 1)]
      | BwMul self other _ =>
          match h !! self, h !! other with
          | Some vs, Some vo => Ok [(self, data vo); (other, data vs)]
          | _, _ => Raise InvalidRef
          end
      | BwPow self other _ =>
          match h !! self with
          | Some vs =>
              match py_pow (data vs) (exponent_pred other) with
              | Ok p =>
                  match exponent_mul other p with
                  | Ok m => Ok [(self, m)]
                  | Raise e => Raise e
                  end
              | Raise e => Raise e
              end
          | None => Raise InvalidRef
          end
      | BwTanh self t _ =>
          match py_pow t (EInt 2) with
          | Ok t2 => Ok [(self, f_sub (f_lit 1) t2)]
          | Raise e => Raise e
          end
      | BwExp self _ => Ok [(self, data x)]
      end
  end.

(** The partials of a node whose rule does not raise; none otherwise. *)
Definition partial_list (h : heap F) (u : ref) : list (ref * F) :=
  match partials h u with
  | Ok ps => ps
  | Raise _ => []
  end.

(** The sum of [f x] over the members [x] of a list. *)
Definition sum_over {X} (l : list X) (f : X -> F) : F :=
  foldr (fun x acc => f_add (f x) acc) (f_lit 0) l.

(** [1] if the proposition holds, [0] otherwise. *)
Definition indicator (P : Prop) `{Decision P} : F :=
  if decide P then f_lit 1 else f_lit 0.

(** The derivative of node [v] with respect to node [u], by the chain rule
    applied forwards from the operands: [1] for [v = u], and otherwise the
    sum over the operands [c] of [v] of the partial of [v] in [c] times the
    derivative of [c].  [fuel] bounds the depth. *)
Fixpoint tangent_fuel (fuel : nat) (h : heap F) (u v : ref) : F :=
  match fuel with
  | O => f_lit 0
  | S n =>
      if decide (v = u) then f_lit 1
      else sum_over (partial_list h v)
             (fun cm => f_mul cm.2 (tangent_fuel n h u cm.1))
  end.

Definition tangent (h : heap F) (u v : ref) : F := tangent_fuel (S v) h u v.

(** The gradient of a node, [0.0] when the reference names no object. *)
Definition grad_or_zero (h : heap F) (u : ref) : F :=
  match h !! u with
  | Some x => grad x
  | None => f_lit 0
  end.

End Derivatives.

(** A second pass over [exact_store], from the gradients the first pass
    left: the invoked nodes and the final store. *)
Definition exact_second_pass : list ref * heap Z :=
  match backward Examples.by_elements 8%nat (Examples.exact_pass).2 with
  | Some (log, (_, h')) => (log, h')
  | None => ([], [])
  end.

(** ** What the forward computations do to the store *)

Section Forward.

Context {F : Type} {A : Arith F}.

(** Computations that only allocate: the objects of the store stay as they
    are, and the new objects have gradient [0.0]. *)
Definition appends {X} (m : M F X) : Prop :=
  forall h r h', m h = (r, h') ->
    exists new, h' = h ++ new ∧ Forall (fun x => grad x = f_lit 0) new.

(** An operand that is a number, or a node of the store. *)
Definition operand_valid (h : heap F) (x : operand F) : Prop :=
  match x with
  | ONode b => is_Some (h !! b)
  | OLit _ => True
  end.

(** The outcome of a call that either returns a node allocated by the
    call, the newest of the store, or raises and leaves the store as it
    was. *)
Definition fresh_or_untouched (h : heap F) (o : result ref * heap F) : Prop :=
  match o.1 with
  | Ok out => length h <= out ∧ S out = length o.2
  | Raise _ => o.2 = h
  end.

End Forward.

(** ** The value a neuron computes *)

Section NeuronValue.

Context {F : Type} {A : Arith F}.

(** The number an input stands for: the [data] of a node, or the number
    itself. *)
Definition operand_data (h : heap F) (x : operand F) : option F :=
  match x with
  | ONode r => data <$> h !! r
  | OLit k => Some k
  end.

(** [acc + w1*x1 + w2*x2 + ...], added from left to right. *)
Fixpoint weighted_sum (h : heap F) (acc : F) (wx : list (ref * operand F))
    : option F :=
  match wx with
  | [] => Some acc
  | (wi, xi) :: rest =>
      match h !! wi, operand_data h xi with
      | Some vw, Some d => weighted_sum h (f_add acc (f_mul (data vw) d)) rest
      | _, _ => None
      end
  end.

End NeuronValue.


(** The network of [half_network], and the store after its call on the
    notebook's input [[2.0, 3.0, -1.0]]. *)
Definition half_network_model : MLP.t :=
  match Examples.half_network.1 with
  | Ok (n, _) => n
  | Raise _ => {| MLP.layers := [] |}
  end.

Definition half_network_called : heap float :=
  (MLP.__call__ (A:=Examples.arith64) half_network_model
     (Many [OLit 2%float; OLit 3%float; OLit (-1)%float]) Examples.half_network.2).2.

(** A network as [MLP(nin, nouts)] builds it: no layer is empty, and every
    neuron of a layer has one weight per output of the layer before ([nin]
    weights in the first layer). *)
Fixpoint shaped (nin : nat) (ls : list Layer.t) : Prop :=
  match ls with
  | [] => True
  | l :: rest =>
      Layer.neurons l ≠ []
      ∧ Forall (fun nr => length (Neuron.w nr) = nin) (Layer.neurons l)
      ∧ shaped (length (Layer.neurons l)) rest
  end.


(** * Properties *)

(** ** Well-formed stores *)

Section WellFormed.
Context {F : Type} {A : Arith F}.
Implicit Types (h : heap F) (v u c t : ref).

Lemma wf_lookup h i (x : Value F) : wf h -> h !! i = Some x -> node_ok i x.
Proof.
  unfold wf. rewrite Forall_lookup. intros H Hi.
  apply (H i (i, x)). rewrite list_lookup_imap, Hi. done.
Qed.

Lemma wf_intro h : (forall i x, h !! i = Some x -> node_ok i x) -> wf h.
Proof.
  intros H. unfold wf. apply Forall_lookup. intros i [j x].
  rewrite list_lookup_imap. destruct (h !! i) eqn:E; simpl; [|done].
  intros [= <- <-]. simpl. by apply H.
Qed.

Lemma wf_nil : wf (F:=F) [].
Proof. apply wf_intro. intros i x. by rewrite lookup_nil. Qed.

Lemma wf_snoc h (x : Value F) : wf h -> node_ok (length h) x -> wf (h ++ [x]).
Proof.
  intros Hh Hx. apply wf_intro. intros i y Hi.
  apply lookup_app_Some in Hi as [Hi|[Hle Hi]].
  - by eapply wf_lookup.
  - apply list_lookup_singleton_Some in Hi as [Hi <-].
    replace i with (length h) by lia. done.
Qed.

Lemma children_lt h v c : wf h -> c ∈ children h v -> c < v.
Proof.
  unfold children. intros Hh. destruct (h !! v) eqn:E; [|set_solver].
  intros Hc. destruct (wf_lookup _ _ _ Hh E) as [H _]. by apply H.
Qed.

Lemma children_valid h v c : c ∈ children h v -> v < length h.
Proof.
  unfold children. destruct (h !! v) eqn:E; [|set_solver].
  intros _. by eapply lookup_lt_Some.
Qed.

Lemma reachable_le h t u : wf h -> reachable h t u -> u <= t.
Proof.
  intros Hh. induction 1 as [|x y z Hxy _ IH]; [lia|].
  apply (children_lt _ _ _ Hh) in Hxy. lia.
Qed.

Lemma reachable_valid h t u : t < length h -> wf h -> reachable h t u -> u < length h.
Proof. intros Ht Hh Hr. apply (reachable_le _ _ _ Hh) in Hr. lia. Qed.

End WellFormed.

(** ** The depth-first traversal *)

Section Dfs.
Context {F : Type} {A : Arith F}.
Implicit Types (h : heap F) (v u c t : ref).

Lemma operands_first_snoc h topo v :
  operands_first h topo ->
  (forall c, c ∈ children h v -> c ∈ topo) ->
  operands_first h (topo ++ [v]).
Proof.
  intros Hof Hc i u c Hi Hcu.
  apply lookup_app_Some in Hi as [Hi|[Hle Hi]].
  - destruct (Hof i u c Hi Hcu) as (j & Hj & Hjc).
    exists j. split; [done|]. by apply lookup_app_l_Some.
  - apply list_lookup_singleton_Some in Hi as [Hi <-].
    apply Hc, list_elem_of_lookup in Hcu as [j Hj].
    exists j. split.
    + apply lookup_lt_Some in Hj. lia.
    + by apply lookup_app_l_Some.
Qed.

Lemma operands_first_closed h topo u c :
  operands_first h topo -> u ∈ topo -> reachable h u c -> c ∈ topo.
Proof.
  intros Hof Hu Hr. induction Hr as [|x y z Hxy _ IH]; [done|].
  apply IH. apply list_elem_of_lookup in Hu as [i Hi].
  destruct (Hof i x y Hi Hxy) as (j & _ & Hj).
  by eapply list_elem_of_lookup_2.
Qed.

Section Fixed.
Variable iter : iteration.
Hypothesis Hiter : iter_ok iter.
Variable h : heap F.
Hypothesis Hwf : wf h.

Lemma visit_children n v :
  visit_ok iter h n -> v <= n ->
  forall cs vis topo,
    (forall c, c ∈ cs -> c ∈ children h v) ->
    dfs_inv h vis topo ->
    (forall u, u ∈ vis -> u ∉ topo -> v <= u) ->
    exists new,
      foldl (visit_step iter h n) (Some (vis, topo)) cs
        = Some (vis ∪ list_to_set new, topo ++ new)
      ∧ dfs_inv h (vis ∪ list_to_set new) (topo ++ new)
      ∧ (forall c, c ∈ cs -> c ∈ topo ++ new)
      ∧ (forall u, u ∈ new -> exists c, c ∈ cs ∧ reachable h c u).
Proof.
  intros IHn Hvn. induction cs as [|c cs IH]; intros vis topo Hcs Hinv Hpend.
  - exists []. simpl. rewrite (right_id_L ∅ (∪)), app_nil_r.
    repeat split; try apply Hinv; set_solver.
  - assert (Hc : c ∈ children h v) by (apply Hcs; left).
    pose proof (children_lt _ _ _ Hwf Hc) as Hlt.
    pose proof (children_valid _ _ _ Hc) as Hval.
    destruct (IHn c vis topo) as (new1 & E1 & Hinv1 & Hin1 & Hr1);
      [lia|lia|done|intros u Hu Hu'; specialize (Hpend u Hu Hu'); lia|].
    destruct (IH (vis ∪ list_to_set new1) (topo ++ new1))
      as (new2 & E2 & Hinv2 & Hin2 & Hr2); [set_solver|done| |].
    { intros u Hu Hu'. apply Hpend; [|set_solver].
      apply elem_of_union in Hu as [Hu|Hu]; [done|].
      exfalso. apply Hu'. apply elem_of_list_to_set in Hu. set_solver. }
    exists (new1 ++ new2).
    change (foldl (visit_step iter h n) (Some (vis, topo)) (c :: cs))
      with (foldl (visit_step iter h n) (build_topo iter n h c (vis, topo)) cs).
    rewrite E1, E2.
    rewrite list_to_set_app_L, (assoc_L (∪)), (assoc_L (++)).
    split; [done|]. split; [done|]. split.
    + intros c' [Hc'|Hc']%elem_of_cons; [subst c'; set_solver|by apply Hin2].
    + intros u [Hu|Hu]%elem_of_app.
      * exists c. split; [left|by apply Hr1].
      * destruct (Hr2 u Hu) as (c' & Hc' & Hr). exists c'. split; [by right|done].
Qed.

Lemma build_topo_ok n : visit_ok iter h n.
Proof.
  induction n as [|n IHn]; intros v vis topo Hvn Hval Hinv Hpend; [lia|].
  simpl. destruct (decide (v ∈ vis)) as [Hv|Hv].
  - exists []. simpl. rewrite (right_id_L ∅ (∪)), app_nil_r.
    split; [done|]. split; [done|]. split; [|set_solver].
    destruct (decide (v ∈ topo)) as [|Hn]; [done|].
    specialize (Hpend v Hv Hn). lia.
  - destruct (lookup_lt_is_Some_2 h v Hval) as [node Enode]. rewrite Enode.
    assert (Hch : children h v = _prev node) by (unfold children; by rewrite Enode).
    destruct Hinv as (Hnd & Hof & Hsub).
    destruct (visit_children n v IHn ltac:(lia) (iter v (_prev node)) ({[v]} ∪ vis) topo)
      as (new & E & (Hnd' & Hof' & Hsub') & Hin & Hr).
    { intros c Hc. rewrite Hch. rewrite (Hiter v (_prev node)) in Hc.
      by apply elem_of_elements in Hc. }
    { repeat split; [done|done|]. intros u Hu. apply Hsub in Hu. set_solver. }
    { intros u [Hu%elem_of_singleton|Hu]%elem_of_union Hu'; [lia|].
      specialize (Hpend u Hu Hu'). lia. }
    fold (visit_step iter h n). rewrite E. simpl.
    assert (Hvnew : v ∉ topo ++ new).
    { intros [Hvt|Hvn']%elem_of_app; [by apply Hv, Hsub|].
      destruct (Hr v Hvn') as (c & Hc & Hrc).
      apply (reachable_le _ _ _ Hwf) in Hrc.
      assert (c < v); [|lia].
      apply (children_lt h); [done|]. rewrite Hch.
      rewrite (Hiter v (_prev node)) in Hc. by apply elem_of_elements in Hc. }
    exists (new ++ [v]).
    split.
    { f_equal. f_equal; [|by rewrite (assoc_L (++))].
      rewrite list_to_set_app_L. set_solver. }
    rewrite (assoc_L (++)). split; [|split].
    + split; [|split].
      * apply NoDup_app. split; [done|]. split; [|apply NoDup_singleton].
        intros u Hu Hu'%list_elem_of_singleton. by subst u.
      * apply operands_first_snoc; [done|]. intros c Hc. apply Hin.
        rewrite (Hiter v (_prev node)). apply elem_of_elements. by rewrite <- Hch.
      * intros u [Hu|Hu%list_elem_of_singleton]%elem_of_app.
        -- apply Hsub' in Hu. rewrite list_to_set_app_L. set_solver.
        -- rewrite list_to_set_app_L. set_solver.
    + set_solver.
    + intros u [Hu|Hu%list_elem_of_singleton]%elem_of_app; [|subst u; apply rtc_refl].
      destruct (Hr u Hu) as (c & Hc & Hrc).
      eapply rtc_l; [|exact Hrc]. simpl. rewrite Hch.
      rewrite (Hiter v (_prev node)) in Hc. by apply elem_of_elements in Hc.
Qed.

(** The order [backward] builds. *)
Lemma topo_order_ok t :
  t < length h ->
  exists topo,
    topo_order iter h t = Some topo
    ∧ NoDup topo
    ∧ operands_first h topo
    ∧ (forall u, u ∈ topo <-> reachable h t u).
Proof.
  intros Ht.
  destruct (build_topo_ok (length h) t ∅ []) as (new & E & (Hnd & Hof & _) & Hin & Hr);
    [done|done| |set_solver|].
  { repeat split; [apply NoDup_nil_2| |set_solver].
    intros i u c Hi. by rewrite lookup_nil in Hi. }
  exists new. unfold topo_order. rewrite E. simpl. simpl in *.
  repeat split; try done.
  - apply Hr.
  - intros Hu. by eapply operands_first_closed.
Qed.
End Fixed.
End Dfs.

(** ** What a backward pass may change *)

Section Frames.
Context {F : Type} {A : Arith F}.
Implicit Types (h : heap F) (v u c t : ref) (S : ref -> Prop).
Local Open Scope py_scope.

Lemma same_node_refl (x : Value F) : same_node x x.
Proof. by repeat split. Qed.

Lemma same_node_trans (x y z : Value F) :
  same_node x y -> same_node y z -> same_node x z.
Proof. unfold same_node. intros (?&?&?&?&?) (?&?&?&?&?). repeat split; congruence. Qed.

Lemma same_node_with_grad g (x : Value F) : same_node x (with_grad g x).
Proof. by repeat split. Qed.

Lemma grads_only_refl S h : grads_only S h h.
Proof.
  split.
  - apply Forall2_same_length_lookup_2; [done|].
    intros i x y Hx Hy. assert (x = y) as -> by congruence. apply same_node_refl.
  - intros i x y Hx Hy _. congruence.
Qed.

Lemma grads_only_length S h h' : grads_only S h h' -> length h' = length h.
Proof. intros [H _]. symmetry. by eapply Forall2_length. Qed.

Lemma grads_only_lookup S h h' i x :
  grads_only S h h' -> h !! i = Some x ->
  exists y, h' !! i = Some y ∧ same_node x y.
Proof.
  intros [H _] Hx. destruct (Forall2_lookup_l _ _ _ _ _ H Hx) as (y & Hy & Hs). eauto.
Qed.

Lemma grads_only_lookup_r S h h' i y :
  grads_only S h h' -> h' !! i = Some y ->
  exists x, h !! i = Some x ∧ same_node x y.
Proof.
  intros [H _] Hy. destruct (Forall2_lookup_r _ _ _ _ _ H Hy) as (x & Hx & Hs). eauto.
Qed.

Lemma grads_only_trans S h1 h2 h3 :
  grads_only S h1 h2 -> grads_only S h2 h3 -> grads_only S h1 h3.
Proof.
  intros H12 H23. split.
  - destruct H12 as [H12 _], H23 as [H23 _].
    eapply Forall2_trans; [|exact H12|exact H23]. apply same_node_trans.
  - intros i x z Hx Hz HS.
    destruct (grads_only_lookup _ _ _ _ _ H12 Hx) as (y & Hy & _).
    destruct H12 as [_ H12], H23 as [_ H23].
    rewrite (H23 i y z Hy Hz HS). by apply (H12 i x y).
Qed.

Lemma grads_only_mono S S' h h' :
  (forall i, S i -> S' i) -> grads_only S h h' -> grads_only S' h h'.
Proof. intros HS [H1 H2]. split; [done|]. intros i x y Hx Hy Hn. apply (H2 i); auto. Qed.


Lemma grads_only_wf S h h' : grads_only S h h' -> wf h -> wf h'.
Proof.
  intros H Hwf. apply wf_intro. intros i y Hy.
  destruct (grads_only_lookup_r _ _ _ _ _ H Hy) as (x & Hx & (_ & Hb & Hp & _)).
  pose proof (wf_lookup _ _ _ Hwf Hx) as Hok.
  unfold node_ok in *. by rewrite Hb, Hp.
Qed.


Lemma frames_ret {X} S (x : X) : frames (F:=F) S (ret (F:=F) x).
Proof. intros h r h' [= _ <-]. apply grads_only_refl. Qed.

Lemma frames_raise {X} S e : frames (F:=F) S (raise (F:=F) (X:=X) e).
Proof. intros h r h' [= _ <-]. apply grads_only_refl. Qed.

Lemma frames_lift {X} S (x : result X) : frames (F:=F) S (lift (F:=F) x).
Proof. intros h r h' [= _ <-]. apply grads_only_refl. Qed.

Lemma frames_bind {X Y} S (m : M F X) (k : X -> M F Y) :
  frames (F:=F) S m -> (forall x, frames (F:=F) S (k x)) -> frames (F:=F) S (bind m k).
Proof.
  intros Hm Hk h r h'. unfold bind. destruct (m h) as [[x|e] h1] eqn:E.
  - intros Hk'. eapply grads_only_trans; [by eapply Hm|by eapply Hk].
  - intros [= _ <-]. by eapply Hm.
Qed.

Lemma frames_deref S r : frames (F:=F) S (deref r).
Proof.
  intros h x h'. unfold deref. destruct (h !! r); intros [= _ <-]; apply grads_only_refl.
Qed.

Lemma frames_get_data S r : frames (F:=F) S (get_data r).
Proof. apply frames_bind; [apply frames_deref|intros; apply frames_ret]. Qed.

Lemma frames_get_grad S r : frames (F:=F) S (get_grad r).
Proof. apply frames_bind; [apply frames_deref|intros; apply frames_ret]. Qed.

Lemma frames_set_grad S r g : S r -> frames (F:=F) S (set_grad r g).
Proof.
  intros HS h x h'. unfold set_grad, update.
  destruct (h !! r) as [y|] eqn:Hy; intros [= _ <-]; [|apply grads_only_refl].
  split.
  - apply Forall2_same_length_lookup_2; [by rewrite length_insert|].
    intros i a b Ha Hb. destruct (decide (i = r)) as [->|Hne].
    + rewrite list_lookup_insert_eq in Hb by (by eapply lookup_lt_Some).
      assert (a = y) as -> by congruence. injection Hb as <-. apply same_node_with_grad.
    + rewrite list_lookup_insert_ne in Hb by done.
      assert (a = b) as -> by congruence. apply same_node_refl.
  - intros i a b Ha Hb Hn. destruct (decide (i = r)) as [->|Hne]; [done|].
    rewrite list_lookup_insert_ne in Hb by done. congruence.
Qed.

Lemma frames_accumulate S target m out : S target -> frames (F:=F) S (accumulate target m out).
Proof.
  intros HS. unfold accumulate.
  repeat (apply frames_bind; [first [apply frames_get_grad|apply frames_get_data]|intros]).
  by apply frames_set_grad.
Qed.

Ltac frames_step :=
  first [ apply frames_get_grad | apply frames_get_data | apply frames_lift
        | apply frames_ret | apply frames_accumulate; set_solver
        | apply frames_set_grad; set_solver
        | apply frames_bind; [|intros] ].

Lemma frames_call_closure (c : closure F) :
  frames (F:=F) (fun i => i ∈ targets c) (call_closure c).
Proof. destruct c; simpl; repeat frames_step. Qed.

Lemma frames_call_backward h u r h' :
  call_backward u h = (r, h') -> grads_only (fun i => i ∈ writes h u) h h'.
Proof.
  unfold call_backward, bind, deref, writes.
  destruct (h !! u) as [x|]; [|intros [= _ <-]; apply grads_only_refl].
  apply frames_call_closure.
Qed.

Lemma grads_only_writes S h h' u : grads_only S h h' -> writes h' u = writes h u.
Proof.
  intros H. unfold writes. destruct (h !! u) as [x|] eqn:Hx.
  - destruct (grads_only_lookup _ _ _ _ _ H Hx) as (y & -> & (_ & -> & _)). done.
  - apply lookup_ge_None in Hx. rewrite <- (grads_only_length _ _ _ H) in Hx.
    apply lookup_ge_None in Hx. by rewrite Hx.
Qed.

Lemma writes_children h u i : wf h -> i ∈ writes h u -> i ∈ children h u.
Proof.
  unfold writes, children. intros Hwf. destruct (h !! u) as [x|] eqn:Hx; [|set_solver].
  destruct (wf_lookup _ _ _ Hwf Hx) as (_ & Ht & _).
  rewrite Forall_forall in Ht. apply Ht.
Qed.

Lemma run_backward_frame S nodes : forall h log r h',
  (forall u i, u ∈ nodes -> i ∈ writes h u -> S i) ->
  run_backward nodes h = (log, (r, h')) ->
  grads_only S h h'.
Proof.
  induction nodes as [|u nodes IH]; intros h log r h' HS; simpl.
  - intros [= _ _ <-]. apply grads_only_refl.
  - destruct (call_backward u h) as [[[]|e] h1] eqn:E.
    + destruct (run_backward nodes h1) as [log1 [r1 h2]] eqn:E1. simpl.
      intros [= _ _ <-].
      assert (H1 : grads_only S h h1).
      { eapply grads_only_mono; [|by eapply frames_call_backward].
        intros i Hi. apply (HS u); [left|done]. }
      eapply grads_only_trans; [exact H1|].
      eapply IH; [|exact E1]. intros u' i Hu' Hi.
      rewrite (grads_only_writes _ _ _ _ H1) in Hi. apply (HS u'); [by right|done].
    + intros [= _ _ <-]. eapply grads_only_mono; [|by eapply frames_call_backward].
      intros i Hi. apply (HS u); [left|done].
Qed.

Lemma run_backward_log nodes : forall h log r h',
  run_backward nodes h = (log, (r, h')) ->
  log `prefix_of` nodes ∧ (r = Ok tt -> log = nodes).
Proof.
  induction nodes as [|u nodes IH]; intros h log r h'; simpl.
  - intros [= <- <- _]. done.
  - destruct (call_backward u h) as [[[]|e] h1] eqn:E.
    + destruct (run_backward nodes h1) as [log1 [r1 h2]] eqn:E1. simpl.
      intros [= <- <- _]. destruct (IH _ _ _ _ E1) as [Hp Hok]. split.
      * by apply prefix_cons.
      * intros H. f_equal. by apply Hok.
    + intros [= <- <- _]. split; [|done]. exists nodes. done.
Qed.
End Frames.

(** ** The backward pass *)

Section Backward.
Context {F : Type} {A : Arith F}.
Implicit Types (h : heap F) (v u c t : ref) (S : ref -> Prop).

Lemma set_grad_valid h t g :
  t < length h ->
  exists x, h !! t = Some x ∧ set_grad t g h = (Ok tt, <[t := with_grad g x]> h).
Proof.
  intros Ht. destruct (lookup_lt_is_Some_2 h t Ht) as [x Hx].
  exists x. split; [done|]. unfold set_grad, update. by rewrite Hx.
Qed.


Lemma backward_ok iter h t :
  iter_ok iter -> wf h -> t < length h ->
  exists topo log r h',
    topo_order iter h t = Some topo
    ∧ NoDup topo
    ∧ operands_first h topo
    ∧ (forall u, u ∈ topo <-> reachable h t u)
    ∧ backward iter t h = Some (log, (r, h'))
    ∧ log `prefix_of` reverse topo
    ∧ (r = Ok tt -> log = reverse topo)
    ∧ grads_only (reachable h t) h h'
    ∧ grad_of h' t = Some (f_lit 1).
Proof.
  intros Hiter Hwf Ht.
  destruct (topo_order_ok iter Hiter h Hwf t Ht) as (topo & Etopo & Hnd & Hof & Hreach).
  destruct (set_grad_valid h t (f_lit 1) Ht) as (x & Hx & Eset).
  destruct (run_backward (reverse topo) (<[t := with_grad (f_lit 1) x]> h))
    as [log [r h']] eqn:Erun.
  exists topo, log, r, h'.
  assert (Hseed : grads_only (fun i => i = t) h (<[t := with_grad (f_lit 1) x]> h)).
  { eapply (frames_set_grad _ t (f_lit 1)); [|exact Eset]. done. }
  assert (Hw : forall S0, (forall u i, reachable h t u -> i ∈ children h u -> S0 i) ->
             grads_only S0 (<[t := with_grad (f_lit 1) x]> h) h').
  { intros S0 HS0. eapply run_backward_frame; [|exact Erun].
    intros u i Hu Hi. rewrite (grads_only_writes _ _ _ _ Hseed) in Hi.
    apply (HS0 u); [|by apply writes_children].
    apply Hreach. by rewrite elem_of_reverse in Hu. }
  repeat split; try done.
  - apply Hreach.
  - apply Hreach.
  - unfold backward. by rewrite Etopo, Eset, Erun.
  - by eapply run_backward_log.
  - by eapply run_backward_log.
  - eapply grads_only_trans.
    + eapply grads_only_mono; [|exact Hseed]. intros i ->. apply rtc_refl.
    + apply Hw. intros u i Hu Hi. eapply rtc_r; [exact Hu|exact Hi].
  - intros i v v' Hv Hv' Hn.
    assert (Hne : i ≠ t) by (intros ->; apply Hn, rtc_refl).
    destruct (Hw (reachable h t)) as [_ H2].
    { intros u j Hu Hj. eapply rtc_r; [exact Hu|exact Hj]. }
    apply (H2 i v v'); [|done|done].
    by rewrite list_lookup_insert_ne.
  - destruct (Hw (fun i => i < t)) as [_ H2].
    { intros u i Hu Hi. apply (reachable_le _ _ _ Hwf) in Hu.
      apply (children_lt _ _ _ Hwf) in Hi. lia. }
    unfold grad_of.
    assert (Hl : (<[t := with_grad (f_lit 1) x]> h) !! t = Some (with_grad (f_lit 1) x)).
    { apply list_lookup_insert_eq. done. }
    destruct (lookup_lt_is_Some_2 h' t) as [y Hy].
    { destruct (Hw (fun _ => True)) as [Hf _]; [done|].
      apply Forall2_length in Hf. rewrite length_insert in Hf. lia. }
    rewrite Hy. rewrite (H2 t _ y Hl Hy); [done|lia].
Qed.
End Backward.

(** ** The operators build well-formed stores *)

Section Ops.
Context {F : Type} {A : Arith F}.
Implicit Types (h : heap F) (S : ref -> Prop).
Local Open Scope py_scope.

Lemma lookup_snoc_length h (x : Value F) : (h ++ [x]) !! length h = Some x.
Proof. rewrite lookup_app_r by lia. by rewrite Nat.sub_diag. Qed.

Lemma insert_snoc_length h (x y : Value F) : <[length h := y]> (h ++ [x]) = h ++ [y].
Proof. rewrite insert_app_r_alt by lia. by rewrite Nat.sub_diag. Qed.

(** Allocation followed by the rebinding of [_backward]. *)
Lemma new_Value_bound {X} d children op (c : ref -> closure F) (k : ref -> M F X) h :
  (let* out := new_Value d children op in set_backward out (c out) ;; k out) h
  = k (length h) (h ++ [built d (c (length h)) children op]).
Proof.
  unfold bind, new_Value, set_backward, update.
  rewrite lookup_snoc_length, insert_snoc_length. done.
Qed.

Lemma get_data_Some {X} r (x : Value F) (k : F -> M F X) h :
  h !! r = Some x -> (let* d := get_data r in k d) h = k (data x) h.
Proof. intros H. unfold bind, get_data, deref, bind, ret. by rewrite H. Qed.

Lemma get_data_None {X} r (k : F -> M F X) h :
  h !! r = None -> (let* d := get_data r in k d) h = (Raise InvalidRef, h).
Proof. intros H. unfold bind, get_data, deref, bind, ret. by rewrite H. Qed.

Lemma node_ok_built i d c children op :
  Forall (fun r => r < i) children ->
  Forall (fun r => r ∈ children) (targets c) ->
  closure_out c = None ∨ closure_out c = Some i ->
  node_ok i (built d c children op).
Proof.
  intros Hc Ht Ho. split; [|split]; simpl; [| |done].
  - intros r Hr%elem_of_list_to_set. rewrite Forall_forall in Hc. by apply Hc.
  - eapply Forall_impl; [exact Ht|]. intros r Hr. by apply elem_of_list_to_set.
Qed.

Lemma wf_leaf h k : wf h -> wf (h ++ [built k BwNone [] OpLeaf]).
Proof.
  intros H. apply wf_snoc; [done|]. apply node_ok_built; simpl; auto.
Qed.

Lemma wrap_cases x h :
  wrap x h = match x with
             | ONode r => (Ok r, h)
             | OLit k => (Ok (length h), h ++ [built k BwNone [] OpLeaf])
             end.
Proof. by destruct x. Qed.

Lemma binary_wf (f : F -> F -> F) (c : ref -> ref -> ref -> closure F) op self other :
  (forall a b o, targets (c a b o) = [a; b] ∧ closure_out (c a b o) = Some o) ->
  preserves_wf (F:=F)
    (let* other := wrap other in
     let* a := get_data self in
     let* b := get_data other in
     let* out := new_Value (f a b) [self; other] op in
     set_backward out (c self other out) ;;
     ret out).
Proof.
  intros Hc h r h' Hwf. unfold bind at 1. rewrite wrap_cases.
  assert (forall h0 o, wf h0 ->
    (let* a := get_data self in
     let* b := get_data o in
     let* out := new_Value (f a b) [self; o] op in
     set_backward out (c self o out) ;; ret out) h0 = (r, h') -> wf h') as Hgen.
  { clear h Hwf. intros h o Hwf.
    destruct (h !! self) as [x|] eqn:Hx;
      [rewrite (get_data_Some _ x) by done|rewrite get_data_None by done; by intros [= _ <-]].
    destruct (h !! o) as [y|] eqn:Hy;
      [rewrite (get_data_Some _ y) by done|rewrite get_data_None by done; by intros [= _ <-]].
    rewrite (new_Value_bound _ _ _ (fun out => c self o out)). intros [= _ <-].
    apply wf_snoc; [done|]. destruct (Hc self o (length h)) as [Et Eo].
    apply lookup_lt_Some in Hx, Hy.
    apply node_ok_built; [repeat constructor; done| |by right].
    rewrite Et. repeat constructor; set_solver. }
  destruct other as [b|k]; apply Hgen; [done|by apply wf_leaf].
Qed.

Lemma add_wf self other : preserves_wf (F:=F) (__add__ self other).
Proof. apply (binary_wf f_add BwAdd). done. Qed.

Lemma mul_wf self other : preserves_wf (F:=F) (__mul__ self other).
Proof. apply (binary_wf f_mul BwMul). done. Qed.

Lemma unary_wf {X} (f : F -> M F X) (g : X -> F) (c : X -> ref -> closure F)
    (op : X -> op_tag F) self :
  (forall x, preserves_wf (F:=F) (f x) ∧ forall h r h', f x h = (r, h') -> h' = h) ->
  (forall x o, targets (c x o) = [self] ∧ closure_out (c x o) = Some o) ->
  preserves_wf (F:=F)
    (let* a := get_data self in
     let* v := f a in
     let* out := new_Value (g v) [self] (op v) in
     set_backward out (c v out) ;;
     ret out).
Proof.
  intros Hf Hc h r h' Hwf.
  destruct (h !! self) as [x|] eqn:Hx;
    [rewrite (get_data_Some _ x) by done|rewrite get_data_None by done; by intros [= _ <-]].
  unfold bind at 1. destruct (f (data x) h) as [[v|e] h1] eqn:E.
  - destruct (Hf (data x)) as [_ Hsame]. apply Hsame in E as ->.
    rewrite (new_Value_bound _ _ _ (fun out => c v out)). intros [= _ <-].
    apply wf_snoc; [done|]. destruct (Hc v (length h)) as [Et Eo].
    apply lookup_lt_Some in Hx.
    apply node_ok_built; [repeat constructor; done| |by right].
    rewrite Et. repeat constructor; set_solver.
  - destruct (Hf (data x)) as [_ Hsame]. apply Hsame in E as ->. by intros [= _ <-].
Qed.

Lemma lift_pure {X} (x : result X) : preserves_wf (F:=F) (lift x) ∧
  forall h r h', lift x h = (r, h') -> h' = h.
Proof. split; intros h r h'; [intros ?|]; by intros [= _ <-]. Qed.

Lemma pow_wf self other : preserves_wf (F:=F) (__pow__ self other).
Proof.
  unfold __pow__. destruct (as_exponent other) as [p|].
  - apply (unary_wf (fun a => lift (py_pow a p)) id (fun _ => BwPow self p) (fun _ => OpPow p)).
    + intros x. apply lift_pure.
    + done.
  - intros h r h' Hwf [= _ <-]. done.
Qed.

Lemma exp_wf self : preserves_wf (F:=F) (exp self).
Proof.
  apply (unary_wf (fun a => lift (f_exp a)) id (fun _ => BwExp self) (fun _ => OpExp)).
  - intros x. apply lift_pure.
  - done.
Qed.

Lemma tanh_wf self : preserves_wf (F:=F) (tanh self).
Proof.
  intros h r h' Hwf. unfold tanh.
  destruct (h !! self) as [x|] eqn:Hx;
    [rewrite (get_data_Some _ x) by done|rewrite get_data_None by done; by intros [= _ <-]].
  unfold bind at 1, lift at 1.
  destruct (f_exp (f_mul (f_lit 2) (data x))) as [e1|e]; [|by intros [= _ <-]].
  unfold bind at 1, lift at 1. unfold bind at 1, lift at 1.
  destruct (f_div (f_sub e1 (f_lit 1)) (f_add e1 (f_lit 1))) as [t|e]; [|by intros [= _ <-]].
  rewrite (new_Value_bound _ _ _ (fun out => BwTanh self t out)). intros [= _ <-].
  apply wf_snoc; [done|]. apply lookup_lt_Some in Hx.
  apply node_ok_built; [repeat constructor; done| |by right].
  repeat constructor; set_solver.
Qed.

Lemma preserves_wf_bind {X Y} (m : M F X) (k : X -> M F Y) :
  preserves_wf (F:=F) m -> (forall x, preserves_wf (F:=F) (k x)) -> preserves_wf (F:=F) (bind m k).
Proof.
  intros Hm Hk h r h' Hwf. unfold bind. destruct (m h) as [[x|e] h1] eqn:E.
  - apply Hk. by eapply Hm.
  - intros [= _ <-]. by eapply Hm.
Qed.

Lemma neg_wf self : preserves_wf (F:=F) (__neg__ self).
Proof. apply mul_wf. Qed.

Lemma sub_wf self other : preserves_wf (F:=F) (__sub__ self other).
Proof.
  destruct other; simpl; [|apply add_wf].
  apply preserves_wf_bind; [apply neg_wf|intros; apply add_wf].
Qed.

Lemma truediv_wf self other : preserves_wf (F:=F) (__truediv__ self other).
Proof.
  destruct other; simpl.
  - apply preserves_wf_bind; [apply pow_wf|intros; apply mul_wf].
  - apply preserves_wf_bind; [apply lift_pure|intros; apply mul_wf].
Qed.
End Ops.

(** ** Local rules as gradient increments *)

Section Deltas.
Context {F : Type} {A : Arith F}.
Implicit Types (h : heap F) (S : ref -> Prop).
Local Open Scope py_scope.
Local Arguments py_pow : simpl never.
Local Arguments exponent_mul : simpl never.
Local Arguments exponent_pred : simpl never.

Lemma bump_lookup_ne r d h i : r ≠ i -> bump r d h !! i = h !! i.
Proof. intros. unfold bump. by rewrite list_lookup_alter_ne. Qed.

Lemma bump_lookup_eq r d h x :
  h !! r = Some x -> bump r d h !! r = Some (with_grad (f_add (grad x) d) x).
Proof. intros H. unfold bump. by rewrite list_lookup_alter_eq, H. Qed.

Lemma bump_insert r d h x :
  h !! r = Some x -> <[r := with_grad (f_add (grad x) d) x]> h = bump r d h.
Proof.
  intros H. apply list_eq. intros i. destruct (decide (r = i)) as [<-|Hne].
  - rewrite (bump_lookup_eq _ _ _ _ H). apply list_lookup_insert_eq.
    by eapply lookup_lt_Some.
  - by rewrite bump_lookup_ne, list_lookup_insert_ne.
Qed.

Lemma bump_grads_only r d h : grads_only (fun i => i = r) h (bump r d h).
Proof.
  split.
  - apply Forall2_same_length_lookup_2; [unfold bump; by rewrite length_alter|].
    intros i a b Ha Hb. destruct (decide (r = i)) as [<-|Hne].
    + rewrite (bump_lookup_eq _ _ _ _ Ha) in Hb. injection Hb as <-.
      apply same_node_with_grad.
    + rewrite bump_lookup_ne in Hb by done. assert (a = b) as -> by congruence.
      apply same_node_refl.
  - intros i a b Ha Hb Hn. rewrite bump_lookup_ne in Hb by congruence. congruence.
Qed.

Lemma apply_deltas_grads_only ds : forall h,
  grads_only (fun i => i ∈ ds.*1) h (apply_deltas ds h).
Proof.
  induction ds as [|[r d] ds IH]; intros h; simpl; [apply grads_only_refl|].
  eapply grads_only_trans.
  - eapply grads_only_mono; [|apply (bump_grads_only r d)]. intros i ->. left.
  - eapply grads_only_mono; [|apply IH]. intros i Hi. by right.
Qed.

Lemma accumulate_spec h target m out vt vo :
  h !! target = Some vt -> h !! out = Some vo ->
  accumulate target m out h = (Ok tt, bump target (f_mul m (grad vo)) h).
Proof.
  intros Ht Ho. unfold accumulate, bind, get_grad, bind, deref, ret, set_grad, update.
  rewrite Ht, Ho, Ht. by rewrite (bump_insert _ _ _ _ Ht).
Qed.


(** [node._backward()] is the application of its deltas. *)
Lemma call_backward_deltas h u :
  wf h ->
  call_backward u h =
    match deltas h u with
    | Ok ds => (Ok tt, apply_deltas ds h)
    | Raise e => (Raise e, h)
    end.
Proof.
  intros Hwf. unfold call_backward, deltas. unfold bind at 1, deref at 1.
  destruct (h !! u) as [x|] eqn:Hx; [|done].
  destruct (wf_lookup _ _ _ Hwf Hx) as (Hprev & Htg & Hout).
  assert (Hval : forall r, r ∈ targets (_backward x) -> r < u ∧ exists y, h !! r = Some y).
  { intros r Hr. rewrite Forall_forall in Htg. apply Htg in Hr. apply Hprev in Hr.
    split; [done|]. apply lookup_lt_is_Some_2. apply lookup_lt_Some in Hx. lia. }
  destruct (_backward x) as [|s o out|s o out|s p out|s t out|s out] eqn:Hb;
    simpl in *; [done|..];
    (destruct Hout as [Hout|Hout]; [done|injection Hout as ->]).
  - destruct (Hval s) as (Hs & vs & Es); [set_solver|].
    destruct (Hval o) as (Ho & vo & Eo); [set_solver|].
    unfold bind. rewrite (accumulate_spec _ _ _ _ vs x) by done.
    assert (is_Some (bump s (f_mul (f_lit 1) (grad x)) h !! o)) as [vo' Eo'].
    { apply lookup_lt_is_Some. unfold bump. rewrite length_alter. by eapply lookup_lt_Some. }
    rewrite (accumulate_spec _ _ _ _ vo' x); [done|done|].
    rewrite bump_lookup_ne by lia. done.
  - destruct (Hval s) as (Hs & vs & Es); [set_solver|].
    destruct (Hval o) as (Ho & vo & Eo); [set_solver|].
    rewrite Es, Eo.
    unfold bind, get_grad, get_data, bind, deref, ret, set_grad, update.
    rewrite Es, Eo, Hx, Es. rewrite (bump_insert _ _ _ _ Es).
    set (h1 := bump s (f_mul (data vo) (grad x)) h).
    destruct (h1 !! o) as [vo'|] eqn:Eo'.
    2:{ apply lookup_ge_None in Eo'. unfold h1, bump in Eo'. rewrite length_alter in Eo'.
        apply lookup_lt_Some in Eo. lia. }
    assert (Es' : h1 !! s = Some (with_grad (f_add (grad vs) (f_mul (data vo) (grad x))) vs))
      by (by apply bump_lookup_eq).
    assert (Hx' : h1 !! u = Some x) by (unfold h1; rewrite bump_lookup_ne by lia; done).
    rewrite Es', Hx', Eo'. simpl. rewrite (bump_insert _ _ _ _ Eo'). reflexivity.
  - destruct (Hval s) as (Hs & vs & Es); [set_solver|].
    unfold bind, get_grad, get_data, bind, deref, ret, lift, set_grad, update.
    repeat (rewrite Es; simpl).
    destruct (py_pow (data vs) (exponent_pred p)) as [q|e]; simpl; [|done].
    destruct (exponent_mul p q) as [m|e]; simpl; [|done].
    rewrite Hx; simpl. rewrite Es; simpl. by rewrite (bump_insert _ _ _ _ Es).
  - destruct (Hval s) as (Hs & vs & Es); [set_solver|].
    generalize (py_pow t (EInt 2)). intros pw.
    unfold bind, get_grad, get_data, bind, deref, ret, lift, set_grad, update.
    rewrite Es; simpl.
    destruct pw as [q|e]; simpl; [|done].
    rewrite Hx; simpl. rewrite Es; simpl. by rewrite (bump_insert _ _ _ _ Es).
  - destruct (Hval s) as (Hs & vs & Es); [set_solver|].
    unfold bind, get_grad, get_data, bind, deref, ret, lift, set_grad, update.
    repeat (first [rewrite Es|rewrite Hx]; simpl).
    by rewrite (bump_insert _ _ _ _ Es).
Qed.

Lemma grads_only_lookup_None S h h' i :
  grads_only S h h' -> h !! i = None -> h' !! i = None.
Proof.
  intros H Hi. apply lookup_ge_None. rewrite (grads_only_length _ _ _ H).
  by apply lookup_ge_None.
Qed.

(** The deltas of [u] do not change when other gradients do. *)
Lemma deltas_stable S h h' u :
  grads_only S h h' -> ¬ S u -> deltas h' u = deltas h u.
Proof.
  intros H Hu. unfold deltas. destruct (h !! u) as [x|] eqn:Hx.
  2:{ by rewrite (grads_only_lookup_None _ _ _ _ H Hx). }
  destruct (grads_only_lookup _ _ _ _ _ H Hx) as (y & Hy & _).
  destruct H as [Hf H2]. rewrite (H2 u x y Hx Hy Hu) in Hy. rewrite Hy.
  assert (Hd : forall r, match h' !! r with Some v => Some (data v) | None => None end
                       = match h !! r with Some v => Some (data v) | None => None end).
  { intros r. destruct (h !! r) as [a|] eqn:Ha.
    - destruct (Forall2_lookup_l _ _ _ _ _ Hf Ha) as (b & -> & (-> & _)). done.
    - assert (h' !! r = None) as ->; [|done].
      apply lookup_ge_None. rewrite <- (Forall2_length _ _ _ Hf). by apply lookup_ge_None. }
  destruct (_backward x) as [|s o out|s o out|s p out|s t out|s out]; try done.
  - pose proof (Hd s) as Hs. pose proof (Hd o) as Ho.
    destruct (h' !! s), (h !! s), (h' !! o), (h !! o); try done; congruence.
  - pose proof (Hd s) as Hs. destruct (h' !! s), (h !! s); try done.
    injection Hs as Hs. by rewrite Hs.
Qed.

Section Commute.
Hypothesis add_comm : forall x y : F, f_add x y = f_add y x.
Hypothesis add_assoc : forall x y z : F, f_add x (f_add y z) = f_add (f_add x y) z.





Lemma completes_cons u nodes h h' :
  completes (u :: nodes) h h' <->
  exists h1, call_backward u h = (Ok tt, h1) ∧ completes nodes h1 h'.
Proof.
  unfold completes. simpl. destruct (call_backward u h) as [[[]|e] h1] eqn:E.
  - destruct (run_backward nodes h1) as [log [r h2]] eqn:E1. simpl. split.
    + intros [= -> -> ->]. eauto.
    + intros (h0 & [= <-] & Hr). rewrite E1 in Hr. by injection Hr as -> -> ->.
  - split; [done|]. by intros (h0 & [= ] & _).
Qed.



Lemma settled_tail h u nodes : settled h (u :: nodes) -> settled h nodes.
Proof. intros H l1 v l2 ->. apply (H (u :: l1) v l2). done. Qed.


Lemma settled_grads_only S h h' nodes :
  grads_only S h h' -> settled h nodes -> settled h' nodes.
Proof.
  intros Hg H l1 u l2 E p Hp. rewrite (grads_only_writes _ _ _ _ Hg). by eapply H.
Qed.

End Commute.
End Deltas.

(** ** Independence from the enumeration order *)

Section Order.
Context {F : Type} {A : Arith F}.
Implicit Types (h : heap F).

Lemma settled_reverse_topo h topo :
  wf h -> NoDup topo -> operands_first h topo -> settled h (reverse topo).
Proof.
  intros Hwf Hnd Hof l1 u l2 E p Hp Hw.
  apply (writes_children _ _ _ Hwf) in Hw.
  assert (Et : topo = reverse l2 ++ u :: reverse l1).
  { rewrite <- (reverse_involutive topo), E, reverse_app, reverse_cons.
    by rewrite <- app_assoc. }
  apply elem_of_cons in Hp as [->|Hp].
  - apply (children_lt _ _ _ Hwf) in Hw. lia.
  - apply elem_of_reverse, list_elem_of_lookup in Hp as [i Hi].
    assert (Hi' : topo !! i = Some p) by (rewrite Et; by apply lookup_app_l_Some).
    destruct (Hof i p u Hi' Hw) as (j & Hj & Hju).
    assert (Hu : topo !! length (reverse l2) = Some u).
    { rewrite Et. rewrite lookup_app_r by lia. by rewrite Nat.sub_diag. }
    pose proof (NoDup_lookup _ _ _ _ Hnd Hju Hu) as ->.
    apply lookup_lt_Some in Hi. lia.
Qed.

End Order.

(** ** The result of each operator *)

Section OpSpecs.
Context {F : Type} {A : Arith F}.
Local Open Scope py_scope.

Lemma add_node_spec (h : heap F) a b va vb :
  h !! a = Some va -> h !! b = Some vb ->
  __add__ a (ONode b) h
  = (Ok (length h),
     h ++ [built (f_add (data va) (data vb)) (BwAdd a b (length h)) [a; b] OpAdd]).
Proof.
  intros Ha Hb. unfold __add__. unfold bind at 1. simpl.
  rewrite (get_data_Some _ va) by done. rewrite (get_data_Some _ vb) by done.
  by rewrite (new_Value_bound _ _ _ (fun out => BwAdd a b out)).
Qed.

Lemma mul_node_spec (h : heap F) a b va vb :
  h !! a = Some va -> h !! b = Some vb ->
  __mul__ a (ONode b) h
  = (Ok (length h),
     h ++ [built (f_mul (data va) (data vb)) (BwMul a b (length h)) [a; b] OpMul]).
Proof.
  intros Ha Hb. unfold __mul__. unfold bind at 1. simpl.
  rewrite (get_data_Some _ va) by done. rewrite (get_data_Some _ vb) by done.
  by rewrite (new_Value_bound _ _ _ (fun out => BwMul a b out)).
Qed.

Lemma add_literal_spec (h : heap F) a va k :
  h !! a = Some va ->
  __add__ a (OLit k) h
  = (Ok (S (length h)),
     h ++ [built k BwNone [] OpLeaf;
           built (f_add (data va) k) (BwAdd a (length h) (S (length h)))
             [a; length h] OpAdd]).
Proof.
  intros Ha. unfold __add__. unfold bind at 1. simpl.
  rewrite (get_data_Some _ va) by (by apply lookup_app_l_Some).
  rewrite (get_data_Some _ (built k BwNone [] OpLeaf)) by apply lookup_snoc_length.
  rewrite (new_Value_bound _ _ _ (fun out => BwAdd a (length h) out)).
  simpl. rewrite length_app, <- app_assoc. simpl. by rewrite Nat.add_1_r.
Qed.

Lemma mul_literal_spec (h : heap F) a va k :
  h !! a = Some va ->
  __mul__ a (OLit k) h
  = (Ok (S (length h)),
     h ++ [built k BwNone [] OpLeaf;
           built (f_mul (data va) k) (BwMul a (length h) (S (length h)))
             [a; length h] OpMul]).
Proof.
  intros Ha. unfold __mul__. unfold bind at 1. simpl.
  rewrite (get_data_Some _ va) by (by apply lookup_app_l_Some).
  rewrite (get_data_Some _ (built k BwNone [] OpLeaf)) by apply lookup_snoc_length.
  rewrite (new_Value_bound _ _ _ (fun out => BwMul a (length h) out)).
  simpl. rewrite length_app, <- app_assoc. simpl. by rewrite Nat.add_1_r.
Qed.

Lemma pow_spec (h : heap F) a va other :
  h !! a = Some va ->
  __pow__ a other h
  = match as_exponent other with
    | None => (Raise AssertionError, h)
    | Some p =>
        match py_pow (data va) p with
        | Ok v => (Ok (length h), h ++ [built v (BwPow a p (length h)) [a] (OpPow p)])
        | Raise e => (Raise e, h)
        end
    end.
Proof.
  intros Ha. unfold __pow__. destruct (as_exponent other) as [p|]; [|done].
  rewrite (get_data_Some _ va) by done. unfold bind at 1, lift at 1.
  destruct (py_pow (data va) p) as [v|e]; [|done].
  by rewrite (new_Value_bound _ _ _ (fun out => BwPow a p out)).
Qed.

Lemma exp_spec (h : heap F) a va :
  h !! a = Some va ->
  exp a h
  = match f_exp (data va) with
    | Ok v => (Ok (length h), h ++ [built v (BwExp a (length h)) [a] OpExp])
    | Raise e => (Raise e, h)
    end.
Proof.
  intros Ha. unfold exp. rewrite (get_data_Some _ va) by done.
  unfold bind at 1, lift at 1. destruct (f_exp (data va)) as [v|e]; [|done].
  by rewrite (new_Value_bound _ _ _ (fun out => BwExp a out)).
Qed.

Lemma tanh_spec (h : heap F) a va :
  h !! a = Some va ->
  tanh a h
  = match f_exp (f_mul (f_lit 2) (data va)) with
    | Ok e =>
        match f_div (f_sub e (f_lit 1)) (f_add e (f_lit 1)) with
        | Ok t => (Ok (length h), h ++ [built t (BwTanh a t (length h)) [a] OpTanh])
        | Raise x => (Raise x, h)
        end
    | Raise x => (Raise x, h)
    end.
Proof.
  intros Ha. unfold tanh. rewrite (get_data_Some _ va) by done.
  unfold bind at 1, lift at 1.
  destruct (f_exp (f_mul (f_lit 2) (data va))) as [e|x]; [|done].
  unfold bind at 1, lift at 1. unfold bind at 1, lift at 1.
  destruct (f_div (f_sub e (f_lit 1)) (f_add e (f_lit 1))) as [t|x]; [|done].
  by rewrite (new_Value_bound _ _ _ (fun out => BwTanh a t out)).
Qed.

End OpSpecs.

(** ** Building and calling the network *)

Section Network.
Context {F : Type} {A : Arith F}.
Local Open Scope py_scope.

Lemma drawn_app rand k n m : drawn rand k (n + m) = drawn rand k n ++ drawn rand (k + n) m.
Proof. unfold drawn. by rewrite seq_app, fmap_app. Qed.

Lemma length_drawn rand k n : length (drawn rand k n) = n.
Proof. unfold drawn. by rewrite length_fmap, length_seq. Qed.

Lemma draw_values_spec rand nin : forall k (h : heap F),
  Neuron.draw_values rand k nin h = (Ok (seq (length h) nin), h ++ drawn rand k nin).
Proof.
  induction nin as [|n IH]; intros k h.
  - simpl. unfold ret, drawn. simpl. by rewrite app_nil_r.
  - simpl. unfold bind at 1. unfold new_Value at 1.
    unfold bind at 1. rewrite IH. unfold ret.
    rewrite length_app. simpl. rewrite Nat.add_1_r, <- app_assoc. done.
Qed.

Lemma Neuron_init_spec rand k nin (h : heap F) :
  Neuron.__init__ rand k nin h
  = (Ok ({| Neuron.w := seq (length h) nin; Neuron.b := length h + nin |}, S (k + nin)),
     h ++ drawn rand k (S nin)).
Proof.
  unfold Neuron.__init__. unfold bind at 1. rewrite draw_values_spec.
  unfold bind, new_Value, ret. rewrite length_app, length_drawn.
  replace (S nin) with (nin + 1) by lia. rewrite drawn_app, app_assoc. done.
Qed.

Lemma make_neurons_spec rand nin nout : forall k (h : heap F),
  exists ns,
    Layer.make_neurons rand k nin nout h
    = (Ok (ns, k + nout * S nin), h ++ drawn rand k (nout * S nin))
    ∧ length ns = nout
    ∧ concat (Neuron.parameters <$> ns) = seq (length h) (nout * S nin).
Proof.
  induction nout as [|n IH]; intros k h.
  - exists []. simpl. unfold ret, drawn. simpl. rewrite app_nil_r, Nat.add_0_r. done.
  - simpl Layer.make_neurons. unfold bind at 1. rewrite Neuron_init_spec.
    destruct (IH (S (k + nin)) (h ++ drawn rand k (S nin))) as (ns & E & Hl & Hp).
    unfold bind at 1. simpl fst. simpl snd. rewrite E. unfold ret.
    eexists. split; [|split].
    + f_equal.
      * do 2 f_equal. simpl. lia.
      * rewrite <- app_assoc. f_equal.
        replace (S n * S nin) with (S nin + n * S nin) by lia.
        rewrite drawn_app. do 2 f_equal. lia.
    + simpl. by rewrite Hl.
    + rewrite fmap_cons. cbn [concat fst]. rewrite Hp. unfold Neuron.parameters.
      cbn [Neuron.w Neuron.b]. rewrite length_app, length_drawn.
      replace (S n * S nin) with ((nin + 1) + n * S nin) by lia.
      rewrite !seq_app. cbn [seq]. f_equal. f_equal. lia.
Qed.

Lemma Layer_init_spec rand k nin nout (h : heap F) :
  exists l,
    Layer.__init__ rand k nin nout h
    = (Ok (l, k + nout * S nin), h ++ drawn rand k (nout * S nin))
    ∧ length (Layer.neurons l) = nout
    ∧ Layer.parameters l = seq (length h) (nout * S nin).
Proof.
  destruct (make_neurons_spec rand nin nout k h) as (ns & E & Hl & Hp).
  exists {| Layer.neurons := ns |}. unfold Layer.__init__, bind. rewrite E. done.
Qed.

Lemma make_layers_spec rand nouts : forall nin k (h : heap F),
  exists ls,
    MLP.make_layers rand k nin nouts h
    = (Ok (ls, k + parameter_count nin nouts),
       h ++ drawn rand k (parameter_count nin nouts))
    ∧ Forall2 (fun l n => length (Layer.neurons l) = n) ls nouts
    ∧ concat (Layer.parameters <$> ls) = seq (length h) (parameter_count nin nouts).
Proof.
  induction nouts as [|nout rest IH]; intros nin k h.
  - exists []. simpl. unfold ret, drawn. simpl. rewrite app_nil_r, Nat.add_0_r. done.
  - simpl MLP.make_layers. unfold bind at 1.
    destruct (Layer_init_spec rand k nin nout h) as (l & El & Hl & Hp). rewrite El.
    destruct (IH nout (k + nout * S nin) (h ++ drawn rand k (nout * S nin)))
      as (ls & E & Hf & Hps).
    unfold bind at 1. simpl fst. simpl snd. rewrite E. unfold ret.
    exists (l :: ls). split; [|split].
    + f_equal.
      * do 2 f_equal. simpl. lia.
      * rewrite <- app_assoc. f_equal. simpl parameter_count. by rewrite drawn_app.
    + by constructor.
    + rewrite fmap_cons. cbn [concat]. rewrite Hp, Hps, length_app, length_drawn.
      cbn [parameter_count]. by rewrite seq_app.
Qed.



End Network.

(** ** The diamond [c = a*a + a] over a leaf of any store *)

Section Diamond.
Context {F : Type} {A : Arith F}.
Variable h : heap F.
Variable a : ref.
Variable va : Value F.
Hypothesis Hwf : wf h.
Hypothesis Ha : h !! a = Some va.
Hypothesis Hleaf : _prev va = ∅.
Hypothesis Hnone : _backward va = BwNone.

Let n := length h.
Let x := data va.
Let mn : Value F := built (f_mul x x) (BwMul a a n) [a; a] OpMul.
Let cn : Value F := built (f_add (f_mul x x) x) (BwAdd n a (S n)) [n; a] OpAdd.
Let h1 : heap F := h ++ [mn; cn].

Lemma diamond_over_store : Examples.diamond_over a h = (Ok (S n), h1).
Proof.
  unfold Examples.diamond_over. unfold bind at 1.
  rewrite (mul_node_spec h a a va va Ha Ha).
  rewrite (add_node_spec _ n a mn va).
  - rewrite length_app, <- app_assoc. simpl. by rewrite Nat.add_1_r.
  - apply lookup_snoc_length.
  - by apply lookup_app_l_Some.
Qed.

Lemma diamond_over_wf : wf h1.
Proof.
  pose proof diamond_over_store as E. unfold Examples.diamond_over in E.
  eapply (preserves_wf_bind (__mul__ a (ONode a)) (fun m => __add__ m (ONode a)));
    [apply mul_wf|intros; apply add_wf|exact Hwf|exact E].
Qed.

Lemma diamond_leaf_lt : a < n.
Proof. by eapply lookup_lt_Some. Qed.

Lemma diamond_store_leaf : h1 !! a = Some va.
Proof. by apply lookup_app_l_Some. Qed.

Lemma diamond_store_product : h1 !! n = Some mn.
Proof. unfold h1. rewrite lookup_app_r by (unfold n; lia). by rewrite Nat.sub_diag. Qed.

Lemma diamond_store_sum : h1 !! S n = Some cn.
Proof.
  unfold h1. rewrite lookup_app_r by (unfold n; lia).
  by replace (S n - length h) with 1 by (unfold n; lia).
Qed.

Lemma diamond_children_leaf : children h1 a = ∅.
Proof. unfold children. by rewrite diamond_store_leaf. Qed.

Lemma diamond_children_product : children h1 n = {[a]}.
Proof. unfold children. rewrite diamond_store_product. simpl. set_solver. Qed.

Lemma diamond_children_sum : children h1 (S n) = {[n; a]}.
Proof. unfold children. rewrite diamond_store_sum. simpl. set_solver. Qed.

Lemma diamond_reachable u : reachable h1 (S n) u -> u ∈ [a; n; S n].
Proof.
  assert (Hfa : forall w, reachable h1 a w -> w = a).
  { intros w Hr. apply rtc_inv in Hr as [Hr|(y & Hy & _)]; [done|].
    rewrite diamond_children_leaf in Hy. set_solver. }
  assert (Hfn : forall w, reachable h1 n w -> w = n ∨ w = a).
  { intros w Hr. apply rtc_inv in Hr as [Hr|(y & Hy & Hr)]; [by left|].
    rewrite diamond_children_product in Hy. apply elem_of_singleton in Hy. subst y.
    right. by apply Hfa. }
  intros Hr. apply rtc_inv in Hr as [Hr|(y & Hy & Hr)]; [subst u; set_solver|].
  rewrite diamond_children_sum in Hy. apply elem_of_union in Hy as [Hy|Hy];
    apply elem_of_singleton in Hy; subst y.
  - destruct (Hfn _ Hr) as [Hu|Hu]; subst u; set_solver.
  - rewrite (Hfa _ Hr). set_solver.
Qed.

Lemma diamond_over_topo iter :
  iter_ok iter -> topo_order iter h1 (S n) = Some [a; n; S n].
Proof.
  intros Hiter. pose proof diamond_leaf_lt as Hlt.
  destruct (topo_order_ok iter Hiter h1 diamond_over_wf (S n))
    as (topo & E & Hnd & Hof & Hr).
  { unfold h1. rewrite length_app. simpl. unfold n. lia. }
  rewrite E. f_equal.
  assert (H2 : S n ∈ topo) by (apply Hr, rtc_refl).
  apply list_elem_of_lookup in H2 as [i2 H2].
  destruct (Hof i2 (S n) n H2) as (i1 & Hlt1 & H1); [rewrite diamond_children_sum; set_solver|].
  destruct (Hof i1 n a H1) as (i0 & Hlt0 & H0); [rewrite diamond_children_product; set_solver|].
  assert (Hlen : length topo <= 3).
  { change 3 with (length [a; n; S n]). apply submseteq_length, NoDup_submseteq; [done|].
    intros u Hu%Hr. by apply diamond_reachable. }
  pose proof (lookup_lt_Some _ _ _ H2) as Hi2.
  assert (i2 = 2) as -> by lia. assert (i1 = 1) as -> by lia. assert (i0 = 0) as -> by lia.
  destruct topo as [|a0 [|b0 [|c0 [|d0 topo]]]]; simpl in *; try lia; simplify_eq. done.
Qed.

Let d1 : F := f_mul (f_lit 1) (f_lit 1).
Let gm : F := f_add (f_lit 0) d1.
Let h2 : heap F := <[S n := with_grad (f_lit 1) cn]> h1.
Let h3 : heap F := bump a d1 (bump n d1 h2).
Let h4 : heap F := bump a (f_mul x gm) (bump a (f_mul x gm) h3).

Lemma diamond_seed_grads : grads_only (fun i => i = S n) h1 h2.
Proof.
  apply (frames_set_grad (fun i => i = S n) (S n) (f_lit 1) eq_refl h1 (Ok tt)).
  unfold set_grad, update. by rewrite diamond_store_sum.
Qed.

Lemma diamond_sum_grads : grads_only (fun _ => True) h2 h3.
Proof.
  eapply grads_only_mono; [|apply (apply_deltas_grads_only [(n, d1); (a, d1)])]. done.
Qed.

Lemma diamond_product_grads : grads_only (fun _ => True) h3 h4.
Proof.
  eapply grads_only_mono;
    [|apply (apply_deltas_grads_only [(a, f_mul x gm); (a, f_mul x gm)])]. done.
Qed.

Lemma diamond_seed_sum : h2 !! S n = Some (with_grad (f_lit 1) cn).
Proof. apply list_lookup_insert_eq. by eapply lookup_lt_Some, diamond_store_sum. Qed.

Lemma diamond_sum_product : h3 !! n = Some (with_grad gm mn).
Proof.
  pose proof diamond_leaf_lt. unfold h3. rewrite bump_lookup_ne by lia.
  rewrite (bump_lookup_eq n d1 h2 mn); [done|].
  unfold h2. rewrite list_lookup_insert_ne by lia. apply diamond_store_product.
Qed.

Lemma diamond_sum_leaf : h3 !! a = Some (with_grad (f_add (grad va) d1) va).
Proof.
  pose proof diamond_leaf_lt. unfold h3. apply bump_lookup_eq.
  rewrite bump_lookup_ne by lia.
  unfold h2. rewrite list_lookup_insert_ne by lia. apply diamond_store_leaf.
Qed.

Lemma diamond_product_leaf :
  h4 !! a
  = Some (with_grad (f_add (f_add (f_add (grad va) d1) (f_mul x gm)) (f_mul x gm)) va).
Proof.
  unfold h4.
  rewrite (bump_lookup_eq a _ _ (with_grad (f_add (f_add (grad va) d1) (f_mul x gm)) va));
    [done|].
  by rewrite (bump_lookup_eq a _ _ _ diamond_sum_leaf).
Qed.

Lemma diamond_over_pass : run_backward [S n; n; a] h2 = ([S n; n; a], (Ok tt, h4)).
Proof.
  assert (Hwf2 : wf h2) by (eapply grads_only_wf; [apply diamond_seed_grads|apply diamond_over_wf]).
  assert (Hwf3 : wf h3) by (eapply grads_only_wf; [apply diamond_sum_grads|done]).
  assert (Hwf4 : wf h4) by (eapply grads_only_wf; [apply diamond_product_grads|done]).
  assert (E1 : call_backward (S n) h2 = (Ok tt, h3)).
  { rewrite call_backward_deltas by done. unfold deltas. by rewrite diamond_seed_sum. }
  assert (E2 : call_backward n h3 = (Ok tt, h4)).
  { rewrite call_backward_deltas by done. unfold deltas. rewrite diamond_sum_product. simpl.
    by rewrite diamond_sum_leaf. }
  assert (E3 : call_backward a h4 = (Ok tt, h4)).
  { rewrite call_backward_deltas by done. unfold deltas. rewrite diamond_product_leaf. simpl.
    by rewrite Hnone. }
  simpl. rewrite E1. simpl. rewrite E2. simpl. by rewrite E3.
Qed.

(** The pass over the diamond, for any enumeration of the operand sets. *)
Lemma diamond_over_backward iter :
  iter_ok iter ->
  backward iter (S n) h1 = Some ([S n; n; a], (Ok tt, h4))
  ∧ grad_of h4 a
    = Some (f_add (f_add (f_add (grad va) d1) (f_mul x gm)) (f_mul x gm)).
Proof.
  intros Hiter. split.
  - unfold backward. rewrite (diamond_over_topo iter Hiter).
    unfold set_grad, update. rewrite diamond_store_sum.
    change (reverse [a; n; S n]) with [S n; n; a].
    fold h2. by rewrite diamond_over_pass.
  - unfold grad_of. by rewrite diamond_product_leaf.
Qed.

End Diamond.

(** ** [trace] visits what [build_topo] visits *)

Section TraceProps.
Context {F : Type}.
Variable iter : iteration.
Hypothesis Hiter : iter_ok iter.
Variable h : heap F.



End TraceProps.

(** ** Nodes without operands *)

Section Leaves.
Context {F : Type} {A : Arith F}.

Lemma no_operands_no_rule (h : heap F) t vt :
  wf h -> h !! t = Some vt -> _prev vt = ∅ -> _backward vt = BwNone.
Proof.
  intros Hwf Ht Hp. destruct (wf_lookup _ _ _ Hwf Ht) as (_ & Hall & _).
  rewrite Hp in Hall. destruct (_backward vt); try done;
    apply Forall_cons in Hall as [Hin _]; set_solver.
Qed.

Lemma topo_order_no_operands iter (h : heap F) t vt :
  iter_ok iter -> h !! t = Some vt -> _prev vt = ∅ ->
  topo_order iter h t = Some [t].
Proof.
  intros Hiter Ht Hp. unfold topo_order.
  destruct (length h) as [|n] eqn:El.
  { apply lookup_lt_Some in Ht. lia. }
  simpl. rewrite decide_False by set_solver. rewrite Ht, Hp.
  assert (iter t ∅ = []) as ->.
  { apply Permutation_nil_r. rewrite (Hiter t ∅). by rewrite elements_empty. }
  done.
Qed.

End Leaves.

(** ** A rule runs on the final gradient of its node *)

Section Final.
Context {F : Type} {A : Arith F}.

Lemma apply_deltas_app (ds1 ds2 : list (ref * F)) (h : heap F) :
  apply_deltas (ds1 ++ ds2) h = apply_deltas ds2 (apply_deltas ds1 h).
Proof. unfold apply_deltas. by rewrite foldl_app. Qed.

(** In a pass over a settled list, what each rule added is what it would
    add in the final store. *)
Lemma completes_final nodes : forall (h h' : heap F),
  wf h -> settled h nodes -> completes nodes h h' ->
  exists dss,
    Forall2 (fun u ds => deltas h' u = Ok ds) nodes dss
    ∧ h' = apply_deltas (concat dss) h.
Proof.
  induction nodes as [|u rest IH]; intros h h' Hwf Hs Hc.
  - unfold completes in Hc. simpl in Hc. injection Hc as <-.
    exists []. split; [constructor|done].
  - assert (Hfr : grads_only (fun i => exists p, p ∈ u :: rest ∧ i ∈ writes h p) h h').
    { eapply run_backward_frame; [|exact Hc]. intros p i Hp Hi. by exists p. }
    pose proof Hc as Hc'. apply completes_cons in Hc' as (h1 & Eu & Hrest).
    rewrite call_backward_deltas in Eu by done.
    destruct (deltas h u) as [ds|e] eqn:Ed; [|done].
    injection Eu as <-.
    pose proof (apply_deltas_grads_only ds h) as Hg.
    destruct (IH (apply_deltas ds h) h') as (dss & Hall & Eh').
    { by eapply grads_only_wf. }
    { eapply settled_grads_only; [exact Hg|]. by eapply settled_tail. }
    { done. }
    exists (ds :: dss). split.
    + constructor; [|done]. rewrite <- Ed. eapply deltas_stable; [exact Hfr|].
      intros (p & Hp & Hi). by apply (Hs [] u rest eq_refl p Hp).
    + simpl. by rewrite apply_deltas_app.
Qed.


(** The pass of [backward], when it completes: the order it ran, and the
    store it leaves in terms of the contributions computed from that
    store. *)
Lemma backward_completes_final iter (h : heap F) t log h' :
  iter_ok iter -> wf h -> t < length h ->
  backward iter t h = Some (log, (Ok tt, h')) ->
  exists vt topo dss,
    h !! t = Some vt
    ∧ topo_order iter h t = Some topo
    ∧ NoDup topo
    ∧ (forall u, u ∈ topo <-> reachable h t u)
    ∧ log = reverse topo
    ∧ grads_only (fun _ => True) h h'
    ∧ Forall2 (fun u ds => deltas h' u = Ok ds) log dss
    ∧ h' = apply_deltas (concat dss) (<[t := with_grad (f_lit 1) vt]> h).
Proof.
  intros Hiter Hwf Ht Hb.
  destruct (topo_order_ok iter Hiter h Hwf t Ht) as (topo & Etopo & Hnd & Hof & Hreach).
  destruct (set_grad_valid h t (f_lit 1) Ht) as (vt & Hvt & Eset).
  unfold backward in Hb. rewrite Etopo, Eset in Hb. injection Hb as Hb.
  assert (Hseed : grads_only (fun i => i = t) h (<[t := with_grad (f_lit 1) vt]> h)).
  { eapply (frames_set_grad _ t (f_lit 1)); [|exact Eset]. done. }
  destruct (run_backward_log _ _ _ _ _ Hb) as [_ Hlog].
  specialize (Hlog eq_refl). subst log.
  destruct (completes_final (reverse topo) (<[t := with_grad (f_lit 1) vt]> h) h')
    as (dss & Hall & Eh'); [| |exact Hb|].
  { by eapply grads_only_wf. }
  { eapply settled_grads_only; [exact Hseed|]. by apply settled_reverse_topo. }
  exists vt, topo, dss.
  split; [done|]. split; [done|]. split; [done|]. split; [done|]. split; [done|].
  split; [|done].
  eapply grads_only_trans.
  - eapply grads_only_mono; [|exact Hseed]. done.
  - eapply run_backward_frame; [|exact Hb]. done.
Qed.

End Final.

(** ** Partials *)

Section Partials.
Context {F : Type} {A : Arith F}.
Local Arguments py_pow : simpl never.
Local Arguments exponent_mul : simpl never.
Local Arguments exponent_pred : simpl never.

Lemma partials_writes (h : heap F) u ps :
  partials h u = Ok ps -> ps.*1 = writes h u.
Proof.
  unfold partials, writes. destruct (h !! u) as [x|]; [|done].
  destruct (_backward x); simpl; repeat case_match; try done;
    by intros [= <-].
Qed.

Lemma partial_list_lt (h : heap F) v c m :
  wf h -> (c, m) ∈ partial_list h v -> c ∈ children h v ∧ c < v.
Proof.
  intros Hwf Hin. unfold partial_list in Hin.
  destruct (partials h v) as [ps|] eqn:Ep; [|by apply elem_of_nil in Hin].
  assert (Hc : c ∈ children h v).
  { apply writes_children; [done|]. rewrite <- (partials_writes _ _ _ Ep).
    apply list_elem_of_fmap. by exists (c, m). }
  split; [done|]. by eapply children_lt.
Qed.

Lemma deltas_partials (h : heap F) u :
  deltas h u
  = match partials h u with
    | Ok ps => Ok ((fun cm => (cm.1, f_mul cm.2 (grad_or_zero h u))) <$> ps)
    | Raise e => Raise e
    end.
Proof.
  unfold deltas, partials, grad_or_zero. destruct (h !! u) as [x|]; [|done].
  destruct (_backward x); simpl; repeat case_match; done.
Qed.

Lemma partials_grads_only S (h h' : heap F) u :
  grads_only S h h' -> partials h' u = partials h u.
Proof.
  intros H. unfold partials.
  assert (Hd : forall r, match h' !! r with Some v => Some (data v, _backward v) | None => None end
                       = match h !! r with Some v => Some (data v, _backward v) | None => None end).
  { destruct H as [Hf _]. intros r. destruct (h !! r) as [a|] eqn:Ha.
    - destruct (Forall2_lookup_l _ _ _ _ _ Hf Ha) as (b & -> & (-> & -> & _)). done.
    - assert (h' !! r = None) as ->; [|done].
      apply lookup_ge_None. rewrite <- (Forall2_length _ _ _ Hf). by apply lookup_ge_None. }
  pose proof (Hd u) as Hu.
  destruct (h' !! u) as [y|], (h !! u) as [x|]; try done.
  injection Hu as Hu1 Hu2. rewrite Hu2, Hu1.
  destruct (_backward x) as [|s o out|s o out|s p out|s t out|s out]; try done.
  - pose proof (Hd s) as Hs. pose proof (Hd o) as Ho.
    destruct (h' !! s), (h !! s), (h' !! o), (h !! o); try done; congruence.
  - pose proof (Hd s) as Hs. destruct (h' !! s), (h !! s); try done.
    injection Hs as Hs _. by rewrite Hs.
Qed.

End Partials.

(** ** Reverse accumulation and forward accumulation agree

    Over a commutative semiring, where sums can be regrouped. *)

Section Adjoint.
Context {F : Type} {A : Arith F}.
Hypothesis Hsr : semi_ring_theory (f_lit 0) (f_lit 1) f_add f_mul eq.

Add Ring arith_ring : Hsr.

Local Notation "0" := (f_lit 0).
Local Notation "1" := (f_lit 1).
Local Infix "+" := f_add.
Local Infix "*" := f_mul.

Lemma sum_over_ext {X} (l : list X) (f g : X -> F) :
  (forall x, x ∈ l -> f x = g x) -> sum_over l f = sum_over l g.
Proof.
  induction l as [|x l IH]; intros H; [done|]. simpl.
  rewrite (H x) by left. rewrite IH; [done|]. intros y Hy. apply H. by right.
Qed.

Lemma sum_over_zero {X} (l : list X) (f : X -> F) :
  (forall x, x ∈ l -> f x = 0) -> sum_over l f = 0.
Proof.
  induction l as [|x l IH]; intros H; [done|]. simpl.
  rewrite (H x) by left. rewrite IH; [ring|]. intros y Hy. apply H. by right.
Qed.

Lemma sum_over_add {X} (l : list X) (f g : X -> F) :
  sum_over l (fun x => f x + g x) = sum_over l f + sum_over l g.
Proof. induction l as [|x l IH]; simpl; [ring|]. rewrite IH. ring. Qed.

Lemma sum_over_scale {X} (l : list X) (m : F) (f : X -> F) :
  sum_over l (fun x => m * f x) = m * sum_over l f.
Proof. induction l as [|x l IH]; simpl; [ring|]. rewrite IH. ring. Qed.

Lemma sum_over_app {X} (l1 l2 : list X) (f : X -> F) :
  sum_over (l1 ++ l2) f = sum_over l1 f + sum_over l2 f.
Proof. induction l1 as [|x l1 IH]; simpl; [ring|]. rewrite IH. ring. Qed.

Lemma sum_over_swap {X Y} (l1 : list X) (l2 : list Y) (f : X -> Y -> F) :
  sum_over l1 (fun x => sum_over l2 (fun y => f x y))
  = sum_over l2 (fun y => sum_over l1 (fun x => f x y)).
Proof.
  induction l1 as [|x l1 IH]; simpl.
  - symmetry. by apply sum_over_zero.
  - rewrite IH. by rewrite <- sum_over_add.
Qed.

Lemma sum_over_perm {X} (l1 l2 : list X) (f : X -> F) :
  l1 ≡ₚ l2 -> sum_over l1 f = sum_over l2 f.
Proof.
  induction 1 as [|x l1 l2 _ IH|x y l|l1 l2 l3 _ IH1 _ IH2]; simpl.
  - done.
  - by rewrite IH.
  - ring.
  - by rewrite IH1.
Qed.

Lemma sum_over_fmap {X Y} (g : X -> Y) (l : list X) (f : Y -> F) :
  sum_over (g <$> l) f = sum_over l (fun x => f (g x)).
Proof. induction l as [|x l IH]; simpl; [done|]. by rewrite <- IH. Qed.

Lemma sum_over_concat {X} (ls : list (list X)) (f : X -> F) :
  sum_over (concat ls) f = sum_over ls (fun l => sum_over l f).
Proof. induction ls as [|l ls IH]; simpl; [done|]. by rewrite sum_over_app, IH. Qed.

Lemma indicator_sym (u v : ref) : indicator (u = v) = indicator (v = u).
Proof. unfold indicator. destruct (decide (u = v)) as [->|]; [by rewrite decide_True|by rewrite decide_False]. Qed.

(** A sum that picks one member of a list without duplicates. *)
Lemma sum_over_pick (l : list ref) (v : ref) (g : ref -> F) :
  NoDup l -> v ∈ l ->
  sum_over l (fun w => indicator (w = v) * g w) = g v.
Proof.
  unfold indicator. induction 1 as [|x l Hx Hnd IH]; intros Hv.
  - by apply elem_of_nil in Hv.
  - simpl. destruct (decide (x = v)) as [->|Hne].
    + rewrite sum_over_zero; [ring|]. intros w Hw.
      destruct (decide (w = v)) as [->|]; [done|ring].
    + apply elem_of_cons in Hv as [->|Hv]; [done|]. rewrite IH by done. ring.
Qed.

(** Sums over the nodes of the store may leave out nodes that add [0]. *)
Lemma sum_over_nodes (n : nat) (l : list ref) (g : ref -> F) :
  NoDup l -> (forall w, w ∈ l -> w < n) ->
  (forall w, w < n -> w ∉ l -> g w = 0) ->
  sum_over (seq 0 n) g = sum_over l g.
Proof.
  intros Hnd Hlt Hz.
  assert (Hsub : l ⊆+ seq 0 n).
  { apply NoDup_submseteq; [done|]. intros w Hw. apply elem_of_seq. specialize (Hlt w Hw). lia. }
  apply submseteq_Permutation in Hsub as [k Hk].
  rewrite (sum_over_perm _ _ _ Hk), sum_over_app.
  rewrite (sum_over_zero k); [ring|].
  intros w Hw. apply Hz.
  - assert (w ∈ seq 0 n) as Hs%elem_of_seq by (rewrite Hk; set_solver). lia.
  - intros Hl. pose proof (NoDup_seq 0 n) as Hn. rewrite Hk in Hn.
    apply NoDup_app in Hn as (_ & Hd & _). by apply (Hd w).
Qed.

(** *** The forward-mode derivative *)

Variable h : heap F.
Hypothesis Hwf : wf h.

Lemma tangent_fuel_enough u : forall n m v,
  v < n -> v < m -> tangent_fuel n h u v = tangent_fuel m h u v.
Proof.
  induction n as [|n IH]; intros m v Hn Hm; [lia|].
  destruct m as [|m]; [lia|]. simpl.
  destruct (decide (v = u)); [done|].
  apply sum_over_ext. intros [c k] Hc. simpl.
  destruct (partial_list_lt h v c k Hwf Hc) as [_ Hlt].
  rewrite (IH m c); [done|lia|lia].
Qed.

Lemma tangent_unfold u v :
  tangent h u v
  = if decide (v = u) then 1
    else sum_over (partial_list h v) (fun cm => cm.2 * tangent h u cm.1).
Proof.
  unfold tangent at 1. simpl. destruct (decide (v = u)); [done|].
  apply sum_over_ext. intros [c k] Hc. simpl.
  destruct (partial_list_lt h v c k Hwf Hc) as [_ Hlt].
  unfold tangent. f_equal. apply tangent_fuel_enough; lia.
Qed.

(** A node does not depend on a node it does not reach. *)
Lemma tangent_unreachable u : forall v, ¬ reachable h v u -> tangent h u v = 0.
Proof.
  intros v. induction (lt_wf v) as [v _ IH]. intros Hn.
  rewrite tangent_unfold. destruct (decide (v = u)) as [->|Hne].
  - exfalso. apply Hn, rtc_refl.
  - apply sum_over_zero. intros [c k] Hc. simpl.
    destruct (partial_list_lt h v c k Hwf Hc) as [Hch Hlt].
    rewrite IH; [ring|done|].
    intros Hr. apply Hn. by eapply rtc_l.
Qed.

Lemma tangent_above u v : v < u -> tangent h u v = 0.
Proof.
  intros Hlt. apply tangent_unreachable. intros Hr.
  apply (reachable_le _ _ _ Hwf) in Hr. lia.
Qed.

(** The chain rule through the operands of [v]. *)
Lemma tangent_forward u v :
  tangent h u v
  = indicator (v = u)
    + sum_over (partial_list h v) (fun cm => cm.2 * tangent h u cm.1).
Proof.
  rewrite tangent_unfold. unfold indicator.
  destruct (decide (v = u)) as [->|Hne]; [|ring].
  rewrite sum_over_zero; [ring|]. intros [c k] Hc. simpl.
  destruct (partial_list_lt h u c k Hwf Hc) as [_ Hlt].
  rewrite tangent_above by done. ring.
Qed.

(** The chain rule through the consumers of [u]. *)
Lemma tangent_backward : forall v u,
  v < length h ->
  tangent h u v
  = indicator (u = v)
    + sum_over (seq 0 (length h)) (fun w =>
        sum_over (partial_list h w) (fun cm =>
          indicator (cm.1 = u) * (cm.2 * tangent h w v))).
Proof.
  assert (Hdistr : forall a b c : F, a * (b + c) = a * b + a * c) by (intros; ring).
  intros v. induction (lt_wf v) as [v _ IH]. intros u Hv.
  destruct (decide (u = v)) as [->|Hne].
  - rewrite tangent_unfold. rewrite decide_True by done.
    unfold indicator at 1. rewrite decide_True by done.
    rewrite sum_over_zero; [ring|]. intros w _.
    apply sum_over_zero. intros [c k] Hc. simpl. unfold indicator.
    destruct (decide (c = v)) as [->|]; [|ring].
    destruct (partial_list_lt h w v k Hwf Hc) as [_ Hlt].
    rewrite tangent_above by done. ring.
  - rewrite tangent_unfold. rewrite decide_False by done.
    unfold indicator at 1. rewrite decide_False by done.
    transitivity
      (sum_over (partial_list h v) (fun cm' => cm'.2 * indicator (u = cm'.1))
       + sum_over (partial_list h v) (fun cm' =>
           sum_over (seq 0 (length h)) (fun w =>
             sum_over (partial_list h w) (fun cm =>
               cm'.2 * (indicator (cm.1 = u) * (cm.2 * tangent h w cm'.1)))))).
    { rewrite <- sum_over_add. apply sum_over_ext. intros [c k] Hc. simpl.
      destruct (partial_list_lt h v c k Hwf Hc) as [_ Hlt].
      rewrite (IH c Hlt u) by lia.
      rewrite Hdistr. f_equal.
      rewrite <- sum_over_scale. apply sum_over_ext. intros w _.
      by rewrite <- sum_over_scale. }
    transitivity
      (sum_over (seq 0 (length h)) (fun w =>
         sum_over (partial_list h w) (fun cm =>
           indicator (cm.1 = u) * (cm.2 * indicator (v = w))))
       + sum_over (seq 0 (length h)) (fun w =>
           sum_over (partial_list h w) (fun cm =>
             sum_over (partial_list h v) (fun cm' =>
               cm'.2 * (indicator (cm.1 = u) * (cm.2 * tangent h w cm'.1)))))).
    2:{ rewrite (SRadd_0_l Hsr), <- sum_over_add.
        apply sum_over_ext. intros w _. rewrite <- sum_over_add.
        apply sum_over_ext. intros [c k] Hc. simpl.
        rewrite (tangent_forward w v), !Hdistr. f_equal.
        rewrite <- !sum_over_scale. apply sum_over_ext. intros [c' k'] _. simpl.
        ring. }
    f_equal.
    + rewrite (sum_over_ext _ _ (fun w => indicator (w = v)
                 * sum_over (partial_list h w) (fun cm => indicator (cm.1 = u) * cm.2))).
      2:{ intros w _. rewrite <- sum_over_scale, (indicator_sym v w).
          apply sum_over_ext. intros; ring. }
      rewrite sum_over_pick; [|apply NoDup_seq|apply elem_of_seq; lia].
      apply sum_over_ext. intros [c k] _. simpl. unfold indicator.
      destruct (decide (u = c)) as [->|]; [rewrite decide_True by done; ring|].
      rewrite decide_False by done. ring.
    + rewrite sum_over_swap. apply sum_over_ext. intros w _.
      by rewrite sum_over_swap.
Qed.

(** *** The gradients [backward] leaves *)

Lemma grad_or_zero_bump r d (h0 : heap F) u :
  u < length h0 ->
  grad_or_zero (bump r d h0) u = grad_or_zero h0 u + indicator (r = u) * d.
Proof.
  intros Hu. destruct (lookup_lt_is_Some_2 h0 u Hu) as [x Hx].
  unfold grad_or_zero, indicator. destruct (decide (r = u)) as [->|Hne].
  - rewrite (bump_lookup_eq u d h0 x Hx), Hx. simpl. ring.
  - rewrite bump_lookup_ne by done. rewrite Hx. ring.
Qed.

Lemma grad_or_zero_apply_deltas ds : forall (h0 : heap F) u,
  u < length h0 ->
  grad_or_zero (apply_deltas ds h0) u
  = grad_or_zero h0 u + sum_over ds (fun rd => indicator (rd.1 = u) * rd.2).
Proof.
  induction ds as [|[r d] ds IH]; intros h0 u Hu; simpl.
  - unfold apply_deltas. simpl. ring.
  - change (apply_deltas ((r, d) :: ds) h0) with (apply_deltas ds (bump r d h0)).
    rewrite IH by (unfold bump; by rewrite length_alter).
    rewrite grad_or_zero_bump by done. ring.
Qed.

Lemma sum_over_Forall2 {X Y} (R : X -> Y -> Prop) (f : X -> F) (g : Y -> F) l1 l2 :
  Forall2 R l1 l2 -> (forall x y, R x y -> f x = g y) ->
  sum_over l1 f = sum_over l2 g.
Proof.
  intros H Hfg. induction H as [|x y l1 l2 Hxy _ IH]; simpl; [done|].
  by rewrite (Hfg x y Hxy), IH.
Qed.

(** When the pass completes from gradients that were [0], the gradient of
    every node under [t] is the derivative of [t] in that node. *)
Lemma backward_adjoint iter t log h' :
  iter_ok iter -> t < length h ->
  (forall u x, reachable h t u -> u ≠ t -> h !! u = Some x -> grad x = 0) ->
  backward iter t h = Some (log, (Ok tt, h')) ->
  forall u, reachable h t u -> grad_or_zero h' u = tangent h u t.
Proof.
  intros Hiter Ht Hzero Hb.
  destruct (backward_completes_final iter h t log h' Hiter Hwf Ht Hb)
    as (vt & topo & dss & Hvt & _ & Hnd & Hreach & -> & Hg & Hall & Eh').
  set (hs := <[t := with_grad 1 vt]> h) in *.
  assert (Hlen : length hs = length h) by (unfold hs; by rewrite length_insert).
  assert (Hseed : forall u, reachable h t u -> grad_or_zero hs u = indicator (u = t)).
  { intros u Hu. unfold grad_or_zero, indicator, hs.
    destruct (decide (u = t)) as [->|Hne].
    - by rewrite list_lookup_insert_eq by done.
    - rewrite list_lookup_insert_ne by done.
      destruct (lookup_lt_is_Some_2 h u) as [x Hx]; [by eapply reachable_valid|].
      rewrite Hx. by eapply Hzero. }
  assert (Hsum : forall u, u < length h ->
    grad_or_zero h' u
    = grad_or_zero hs u
      + sum_over (reverse topo) (fun w =>
          sum_over (partial_list h w) (fun cm =>
            indicator (cm.1 = u) * (cm.2 * grad_or_zero h' w)))).
  { intros u Hu. rewrite Eh' at 1.
    rewrite grad_or_zero_apply_deltas by lia. f_equal.
    rewrite sum_over_concat. symmetry.
    eapply sum_over_Forall2; [exact Hall|]. intros w ds Hd. simpl in Hd.
    rewrite deltas_partials in Hd. unfold partial_list.
    rewrite <- (partials_grads_only _ _ _ w Hg).
    destruct (partials h' w) as [ps|]; [|done]. injection Hd as <-.
    by rewrite sum_over_fmap. }
  intros u. remember (t - u) as d eqn:Ed. revert u Ed.
  induction (lt_wf d) as [d _ IH]. intros u -> Hu.
  assert (Hle : u <= t) by (by eapply reachable_le).
  rewrite Hsum by lia. rewrite (Hseed u Hu).
  rewrite (tangent_backward t u Ht). f_equal.
  rewrite (sum_over_nodes (length h) (reverse topo)).
  - apply sum_over_ext. intros w Hw. apply sum_over_ext. intros [c k] Hc. simpl.
    unfold indicator. destruct (decide (c = u)) as [->|]; [|ring].
    destruct (partial_list_lt h w u k Hwf Hc) as [_ Hlt].
    assert (Hrw : reachable h t w) by (by apply Hreach, elem_of_reverse).
    pose proof (reachable_le _ _ _ Hwf Hrw).
    rewrite (IH (t - w)); [done|lia|done|done].
  - by rewrite reverse_Permutation.
  - intros w Hw. eapply reachable_valid; [exact Ht|done|]. by apply Hreach, elem_of_reverse.
  - intros w _ Hw. apply sum_over_zero. intros [c k] _. simpl.
    rewrite tangent_unreachable; [ring|].
    intros Hr. apply Hw, elem_of_reverse. by apply Hreach.
Qed.

(** The general law: gradients that were not [0] before the pass are
    carried along, each weighted by the derivative of its node. *)
Lemma backward_adjoint_seeded iter t log h' :
  iter_ok iter -> t < length h ->
  backward iter t h = Some (log, (Ok tt, h')) ->
  forall u, reachable h t u ->
    grad_or_zero h' u
    = sum_over log (fun v =>
        (if decide (v = t) then 1 else grad_or_zero h v) * tangent h u v).
Proof.
  intros Hiter Ht Hb.
  destruct (backward_completes_final iter h t log h' Hiter Hwf Ht Hb)
    as (vt & topo & dss & Hvt & _ & Hnd & Hreach & -> & Hg & Hall & Eh').
  set (hs := <[t := with_grad 1 vt]> h) in *.
  set (seed := fun v : ref => if decide (v = t) then 1 else grad_or_zero h v).
  assert (Hlen : length hs = length h) by (unfold hs; by rewrite length_insert).
  assert (Hseed : forall u, grad_or_zero hs u = seed u).
  { intros u. unfold grad_or_zero, seed, hs.
    destruct (decide (u = t)) as [->|Hne].
    - by rewrite list_lookup_insert_eq by done.
    - by rewrite list_lookup_insert_ne by done. }
  assert (Hsum : forall u, u < length h ->
    grad_or_zero h' u
    = grad_or_zero hs u
      + sum_over (reverse topo) (fun w =>
          sum_over (partial_list h w) (fun cm =>
            indicator (cm.1 = u) * (cm.2 * grad_or_zero h' w)))).
  { intros u Hu. rewrite Eh' at 1.
    rewrite grad_or_zero_apply_deltas by lia. f_equal.
    rewrite sum_over_concat. symmetry.
    eapply sum_over_Forall2; [exact Hall|]. intros w ds Hd. simpl in Hd.
    rewrite deltas_partials in Hd. unfold partial_list.
    rewrite <- (partials_grads_only _ _ _ w Hg).
    destruct (partials h' w) as [ps|]; [|done]. injection Hd as <-.
    by rewrite sum_over_fmap. }
  assert (Hlog : forall w, w ∈ reverse topo -> reachable h t w ∧ w < length h).
  { intros w Hw%elem_of_reverse%Hreach. split; [done|]. by eapply reachable_valid. }
  assert (Hnd' : NoDup (reverse topo)) by (by rewrite reverse_Permutation).
  assert (Hdistr : forall a b c : F, a * (b + c) = a * b + a * c) by (intros; ring).
  intros u. remember (t - u) as d eqn:Ed. revert u Ed.
  induction (lt_wf d) as [d _ IH]. intros u -> Hu.
  assert (Hle : u <= t) by (by eapply reachable_le).
  assert (Hul : u ∈ reverse topo) by (by apply elem_of_reverse, Hreach).
  rewrite Hsum by lia. rewrite (Hseed u).
  transitivity
    (sum_over (reverse topo) (fun v => seed v * indicator (u = v))
     + sum_over (reverse topo) (fun v =>
         seed v * sum_over (seq 0 (length h)) (fun w =>
           sum_over (partial_list h w) (fun cm =>
             indicator (cm.1 = u) * (cm.2 * tangent h w v))))).
  2:{ rewrite <- sum_over_add. apply sum_over_ext. intros v Hv.
      destruct (Hlog v Hv) as [_ Hvl].
      by rewrite (tangent_backward v u Hvl), Hdistr. }
  f_equal.
  - rewrite (sum_over_ext _ _ (fun v => indicator (v = u) * seed v)).
    + by rewrite sum_over_pick.
    + intros v _. rewrite (indicator_sym u v). ring.
  - rewrite (sum_over_ext _
      (fun v => seed v * sum_over (seq 0 (length h)) _)
      (fun v => sum_over (seq 0 (length h)) (fun w =>
         sum_over (partial_list h w) (fun cm =>
           indicator (cm.1 = u) * (cm.2 * (seed v * tangent h w v)))))).
    2:{ intros v _. rewrite <- sum_over_scale. apply sum_over_ext. intros w _.
        rewrite <- sum_over_scale. apply sum_over_ext. intros; ring. }
    rewrite sum_over_swap.
    rewrite (sum_over_nodes (length h) (reverse topo)); [|done|apply Hlog|].
    + apply sum_over_ext. intros w Hw. rewrite sum_over_swap.
      apply sum_over_ext. intros [c k] Hc. simpl.
      rewrite !sum_over_scale.
      unfold indicator. destruct (decide (c = u)) as [->|]; [|ring].
      destruct (partial_list_lt h w u k Hwf Hc) as [_ Hlt].
      destruct (Hlog w Hw) as [Hrw _].
      pose proof (reachable_le _ _ _ Hwf Hrw).
      rewrite (IH (t - w)); [done|lia|done|done].
    + intros w _ Hw. apply sum_over_zero. intros v Hv.
      apply sum_over_zero. intros [c k] _. simpl.
      rewrite (tangent_unreachable w v); [ring|].
      intros Hr. apply Hw, elem_of_reverse, Hreach.
      destruct (Hlog v Hv) as [Hrv _]. unfold reachable in *. by etrans.
Qed.

End Adjoint.

(** ** The forward computations only allocate *)

Section Appends.
Context {F : Type} {A : Arith F}.
Local Open Scope py_scope.

Lemma appends_same {X} (m : M F X) :
  (forall h r h', m h = (r, h') -> h' = h) -> appends m.
Proof. intros H h r h' E. exists []. rewrite app_nil_r. split; [by eapply H|done]. Qed.

Lemma appends_ret {X} (x : X) : appends (ret (F:=F) x).
Proof. apply appends_same. by intros h r h' [= _ <-]. Qed.

Lemma appends_raise {X} e : appends (raise (F:=F) (X:=X) e).
Proof. apply appends_same. by intros h r h' [= _ <-]. Qed.

Lemma appends_lift {X} (x : result X) : appends (lift (F:=F) x).
Proof. apply appends_same. by intros h r h' [= _ <-]. Qed.

Lemma appends_bind {X Y} (m : M F X) (k : X -> M F Y) :
  appends m -> (forall x, appends (k x)) -> appends (bind m k).
Proof.
  intros Hm Hk h r h'. unfold bind. destruct (m h) as [[x|e] h1] eqn:E.
  - intros E2. destruct (Hm _ _ _ E) as (n1 & -> & H1).
    destruct (Hk x _ _ _ E2) as (n2 & -> & H2).
    exists (n1 ++ n2). rewrite app_assoc. split; [done|]. by apply Forall_app.
  - intros [= <- <-]. by eapply Hm.
Qed.

Lemma appends_get_data r : appends (get_data (F:=F) r).
Proof.
  apply appends_same. intros h x h'. unfold get_data, bind, deref, ret.
  destruct (h !! r); by intros [= _ <-].
Qed.

Lemma appends_new_Value_bound d children op (c : ref -> closure F) :
  appends (let* out := new_Value d children op in set_backward out (c out) ;; ret out).
Proof.
  intros h r h'. rewrite (new_Value_bound d children op c (fun out => ret out)).
  intros [= _ <-]. eexists. split; [done|]. by repeat constructor.
Qed.

Lemma appends_wrap x : appends (wrap (F:=F) x).
Proof.
  intros h r h'. rewrite wrap_cases. destruct x as [b|k]; intros [= _ <-].
  - exists []. by rewrite app_nil_r.
  - eexists. split; [done|]. by repeat constructor.
Qed.

Lemma appends_add self other : appends (__add__ (F:=F) self other).
Proof.
  unfold __add__. apply appends_bind; [apply appends_wrap|intros o].
  apply appends_bind; [apply appends_get_data|intros a].
  apply appends_bind; [apply appends_get_data|intros b].
  apply (appends_new_Value_bound _ _ _ (fun out => BwAdd self o out)).
Qed.

Lemma appends_mul self other : appends (__mul__ (F:=F) self other).
Proof.
  unfold __mul__. apply appends_bind; [apply appends_wrap|intros o].
  apply appends_bind; [apply appends_get_data|intros a].
  apply appends_bind; [apply appends_get_data|intros b].
  apply (appends_new_Value_bound _ _ _ (fun out => BwMul self o out)).
Qed.

Lemma appends_pow self other : appends (__pow__ (F:=F) self other).
Proof.
  unfold __pow__. destruct (as_exponent other) as [p|]; [|apply appends_raise].
  apply appends_bind; [apply appends_get_data|intros a].
  apply appends_bind; [apply appends_lift|intros v].
  apply (appends_new_Value_bound _ _ _ (fun out => BwPow self p out)).
Qed.

Lemma appends_exp self : appends (exp (F:=F) self).
Proof.
  unfold exp. apply appends_bind; [apply appends_get_data|intros a].
  apply appends_bind; [apply appends_lift|intros v].
  apply (appends_new_Value_bound _ _ _ (fun out => BwExp self out)).
Qed.

Lemma appends_tanh self : appends (tanh (F:=F) self).
Proof.
  unfold tanh. apply appends_bind; [apply appends_get_data|intros a].
  apply appends_bind; [apply appends_lift|intros e1].
  apply appends_bind; [apply appends_lift|intros e2].
  apply appends_bind; [apply appends_lift|intros t].
  apply (appends_new_Value_bound _ _ _ (fun out => BwTanh self t out)).
Qed.

Lemma appends_neg self : appends (__neg__ (F:=F) self).
Proof. apply appends_mul. Qed.

Lemma appends_sub self other : appends (__sub__ (F:=F) self other).
Proof.
  destruct other; simpl; [|apply appends_add].
  apply appends_bind; [apply appends_neg|intros; apply appends_add].
Qed.

Lemma appends_truediv self other : appends (__truediv__ (F:=F) self other).
Proof.
  destruct other; simpl.
  - apply appends_bind; [apply appends_pow|intros; apply appends_mul].
  - apply appends_bind; [apply appends_lift|intros; apply appends_mul].
Qed.

Lemma appends_node_op op a x : appends (node_op (F:=F) op a x).
Proof.
  destruct op; [apply appends_add|apply appends_sub|apply appends_mul|apply appends_truediv].
Qed.

Lemma appends_number_op op k a : appends (number_op (F:=F) op k a).
Proof.
  destruct op; simpl; [apply appends_add|apply appends_raise|apply appends_mul|apply appends_raise].
Qed.

Lemma appends_sum_products wx : forall acc, appends (Neuron.sum_products (F:=F) acc wx).
Proof.
  induction wx as [|[wi xi] wx IH]; intros acc; simpl; [apply appends_ret|].
  apply appends_bind; [apply appends_mul|intros p].
  apply appends_bind; [apply appends_add|intros acc']. apply IH.
Qed.

Lemma appends_Neuron_call n x : appends (Neuron.__call__ (F:=F) n x).
Proof.
  destruct x; simpl; [apply appends_raise|].
  apply appends_bind; [apply appends_sum_products|intros; apply appends_tanh].
Qed.

Lemma appends_call_neurons ns x : appends (Layer.call_neurons (F:=F) ns x).
Proof.
  induction ns as [|n ns IH]; simpl; [apply appends_ret|].
  apply appends_bind; [apply appends_Neuron_call|intros o].
  apply appends_bind; [apply IH|intros; apply appends_ret].
Qed.

Lemma appends_Layer_call l x : appends (Layer.__call__ (F:=F) l x).
Proof.
  unfold Layer.__call__. apply appends_bind; [apply appends_call_neurons|].
  intros [|o [|o' os]]; apply appends_ret.
Qed.

Lemma appends_call_layers ls : forall x, appends (MLP.call_layers (F:=F) ls x).
Proof.
  induction ls as [|l ls IH]; intros x; simpl; [apply appends_ret|].
  apply appends_bind; [apply appends_Layer_call|intros; apply IH].
Qed.

Lemma Forall_drawn rand k n :
  Forall (fun x : Value F => grad x = f_lit 0) (drawn rand k n).
Proof. unfold drawn. apply Forall_fmap, Forall_forall. done. Qed.

Lemma appends_MLP_init rand k nin nouts : appends (MLP.__init__ (F:=F) rand k nin nouts).
Proof.
  intros h r h'. unfold MLP.__init__, bind.
  destruct (make_layers_spec rand nouts nin k h) as (ls & -> & _). intros [= _ <-].
  eexists. split; [done|]. apply Forall_drawn.
Qed.

(** *** The network keeps the store well formed *)

Lemma preserves_wf_ret {X} (x : X) : preserves_wf (F:=F) (ret x).
Proof. by intros h r h' Hwf [= _ <-]. Qed.

Lemma preserves_wf_raise {X} e : preserves_wf (F:=F) (raise (X:=X) e).
Proof. by intros h r h' Hwf [= _ <-]. Qed.

Lemma sum_products_wf wx : forall acc, preserves_wf (F:=F) (Neuron.sum_products acc wx).
Proof.
  induction wx as [|[wi xi] wx IH]; intros acc; simpl; [apply preserves_wf_ret|].
  apply preserves_wf_bind; [apply mul_wf|intros p].
  apply preserves_wf_bind; [apply add_wf|intros acc']. apply IH.
Qed.

Lemma Neuron_call_wf n x : preserves_wf (F:=F) (Neuron.__call__ n x).
Proof.
  destruct x; simpl; [apply preserves_wf_raise|].
  apply preserves_wf_bind; [apply sum_products_wf|intros; apply tanh_wf].
Qed.

Lemma call_neurons_wf ns x : preserves_wf (F:=F) (Layer.call_neurons ns x).
Proof.
  induction ns as [|n ns IH]; simpl; [apply preserves_wf_ret|].
  apply preserves_wf_bind; [apply Neuron_call_wf|intros o].
  apply preserves_wf_bind; [apply IH|intros; apply preserves_wf_ret].
Qed.

Lemma Layer_call_wf l x : preserves_wf (F:=F) (Layer.__call__ l x).
Proof.
  unfold Layer.__call__. apply preserves_wf_bind; [apply call_neurons_wf|].
  intros [|o [|o' os]]; apply preserves_wf_ret.
Qed.

Lemma call_layers_wf ls : forall x, preserves_wf (F:=F) (MLP.call_layers ls x).
Proof.
  induction ls as [|l ls IH]; intros x; simpl; [apply preserves_wf_ret|].
  apply preserves_wf_bind; [apply Layer_call_wf|intros; apply IH].
Qed.

Lemma wf_drawn rand n : forall k (h : heap F), wf h -> wf (h ++ drawn rand k n).
Proof.
  induction n as [|n IH]; intros k h Hwf.
  - unfold drawn. simpl. by rewrite app_nil_r.
  - replace (S n) with (1 + n) by lia. rewrite drawn_app, app_assoc.
    apply IH. by apply wf_leaf.
Qed.

Lemma MLP_init_wf rand k nin nouts : preserves_wf (F:=F) (MLP.__init__ rand k nin nouts).
Proof.
  intros h r h' Hwf. unfold MLP.__init__, bind.
  destruct (make_layers_spec rand nouts nin k h) as (ls & -> & _). intros [= _ <-].
  by apply wf_drawn.
Qed.

Lemma number_op_wf op k a : preserves_wf (F:=F) (number_op op k a).
Proof.
  destruct op; simpl; [apply add_wf|apply preserves_wf_raise|apply mul_wf|apply preserves_wf_raise].
Qed.

Lemma node_op_wf op a x : preserves_wf (F:=F) (node_op op a x).
Proof. destruct op; [apply add_wf|apply sub_wf|apply mul_wf|apply truediv_wf]. Qed.

(** *** Fresh results *)

Lemma fresh_add (h : heap F) a x :
  is_Some (h !! a) -> operand_valid h x -> fresh_or_untouched h (__add__ a x h).
Proof.
  intros [va Ha] Hx. destruct x as [b|k].
  - destruct Hx as [vb Hb]. rewrite (add_node_spec h a b va vb Ha Hb).
    unfold fresh_or_untouched. simpl. rewrite length_app. simpl. lia.
  - rewrite (add_literal_spec h a va k Ha).
    unfold fresh_or_untouched. simpl. rewrite length_app. simpl. lia.
Qed.

Lemma fresh_mul (h : heap F) a x :
  is_Some (h !! a) -> operand_valid h x -> fresh_or_untouched h (__mul__ a x h).
Proof.
  intros [va Ha] Hx. destruct x as [b|k].
  - destruct Hx as [vb Hb]. rewrite (mul_node_spec h a b va vb Ha Hb).
    unfold fresh_or_untouched. simpl. rewrite length_app. simpl. lia.
  - rewrite (mul_literal_spec h a va k Ha).
    unfold fresh_or_untouched. simpl. rewrite length_app. simpl. lia.
Qed.

Lemma fresh_pow (h : heap F) a p :
  is_Some (h !! a) -> fresh_or_untouched h (__pow__ a p h).
Proof.
  intros [va Ha]. rewrite (pow_spec h a va p Ha).
  destruct (as_exponent p) as [e|]; [|done].
  destruct (py_pow (data va) e); [|done].
  unfold fresh_or_untouched. simpl. rewrite length_app. simpl. lia.
Qed.

Lemma fresh_exp (h : heap F) a :
  is_Some (h !! a) -> fresh_or_untouched h (exp a h).
Proof.
  intros [va Ha]. rewrite (exp_spec h a va Ha).
  destruct (f_exp (data va)); [|done].
  unfold fresh_or_untouched. simpl. rewrite length_app. simpl. lia.
Qed.

Lemma fresh_tanh (h : heap F) a :
  is_Some (h !! a) -> fresh_or_untouched h (tanh a h).
Proof.
  intros [va Ha]. rewrite (tanh_spec h a va Ha).
  destruct (f_exp _); [|done]. destruct (f_div _ _); [|done].
  unfold fresh_or_untouched. simpl. rewrite length_app. simpl. lia.
Qed.

Lemma fresh_sub (h : heap F) a x :
  is_Some (h !! a) -> operand_valid h x -> fresh_or_untouched h (__sub__ a x h).
Proof.
  intros Ha Hx. destruct x as [b|k]; [|by apply fresh_add].
  destruct Hx as [vb Hb]. destruct Ha as [va Ha]. simpl. unfold bind.
  unfold __neg__. rewrite (mul_literal_spec h b vb _ Hb).
  erewrite add_node_spec.
  - unfold fresh_or_untouched. simpl. rewrite !length_app. simpl. lia.
  - by apply lookup_app_l_Some.
  - rewrite lookup_app_r by lia. replace (S (length h) - length h) with 1 by lia. done.
Qed.

Lemma fresh_truediv (h : heap F) a x :
  is_Some (h !! a) -> operand_valid h x -> fresh_or_untouched h (__truediv__ a x h).
Proof.
  intros Ha Hx. destruct x as [b|k]; simpl; unfold bind.
  - destruct Hx as [vb Hb]. destruct Ha as [va Ha].
    rewrite (pow_spec h b vb _ Hb). cbn [as_exponent].
    destruct (py_pow (data vb) (EInt (-1))) as [q|e]; [|done].
    erewrite mul_node_spec.
    + unfold fresh_or_untouched. simpl. rewrite !length_app. simpl. lia.
    + by apply lookup_app_l_Some.
    + apply lookup_snoc_length.
  - unfold lift. destruct (f_pow k (f_lit (-1))) as [q|e]; simpl; [|done].
    by apply fresh_mul.
Qed.

End Appends.

(** ** The forward pass of a neuron *)

Section NeuronProps.
Context {F : Type} {A : Arith F}.
Local Open Scope py_scope.

Lemma operand_valid_app (h new : heap F) x :
  operand_valid h x -> operand_valid (h ++ new) x.
Proof.
  destruct x as [b|k]; [|done]. intros [v Hv]. exists v. by apply lookup_app_l_Some.
Qed.

Lemma weighted_sum_app (h new : heap F) wx : forall acc,
  Forall (fun p => is_Some (h !! p.1) ∧ operand_valid h p.2) wx ->
  weighted_sum (h ++ new) acc wx = weighted_sum h acc wx.
Proof.
  induction wx as [|[wi xi] wx IH]; intros acc Hall; [done|].
  apply Forall_cons in Hall as [[[vw Hw] Hx] Hall]. simpl in *.
  rewrite (lookup_app_l_Some _ _ _ _ Hw), Hw.
  assert (operand_data (h ++ new) xi = operand_data h xi) as ->.
  { destruct xi as [b|k]; [|done]. destruct Hx as [vb Hb]. simpl.
    by rewrite (lookup_app_l_Some _ _ _ _ Hb), Hb. }
  destruct (operand_data h xi); [|done]. by apply IH.
Qed.

(** [sum(...)] over valid weights and inputs returns a node holding the
    weighted sum. *)
Lemma sum_products_spec wx : forall acc (h : heap F) va,
  h !! acc = Some va ->
  Forall (fun p => is_Some (h !! p.1) ∧ operand_valid h p.2) wx ->
  exists pre new out vo,
    weighted_sum h (data va) wx = Some pre
    ∧ Neuron.sum_products acc wx h = (Ok out, h ++ new)
    ∧ (h ++ new) !! out = Some vo
    ∧ data vo = pre.
Proof.
  induction wx as [|[wi xi] wx IH]; intros acc h va Ha Hall.
  - exists (data va), [], acc, va. simpl. rewrite app_nil_r. done.
  - pose proof Hall as Hall0.
    apply Forall_cons in Hall as [[[vw Hw] Hx] Hall]. simpl in Hw, Hx.
    simpl Neuron.sum_products. unfold bind at 1.
    destruct xi as [b|k].
    + destruct Hx as [vb Hb]. rewrite (mul_node_spec h wi b vw vb Hw Hb).
      set (pn := built (f_mul (data vw) (data vb)) (BwMul wi b (length h)) [wi; b] OpMul).
      set (h1 := h ++ [pn]).
      unfold bind at 1.
      rewrite (add_node_spec h1 acc (length h) va pn (lookup_app_l_Some _ _ _ _ Ha)
                 (lookup_snoc_length _ _)).
      set (sn := built (f_add (data va) (data pn)) (BwAdd acc (length h) (length h1))
                   [acc; length h] OpAdd).
      destruct (IH (length h1) (h1 ++ [sn]) sn) as (pre & new & out & vo & Hs & E & Ho & Hd).
      { apply lookup_snoc_length. }
      { eapply Forall_impl; [exact Hall|]. intros [w' x'] [[v' Hv'] Hx']. simpl in *.
        split; [exists v'; by do 2 apply lookup_app_l_Some|by do 2 apply operand_valid_app]. }
      rewrite E. exists pre, ([pn; sn] ++ new), out, vo.
      assert (Eh : h ++ [pn; sn] ++ new = (h1 ++ [sn]) ++ new).
      { unfold h1. by rewrite <- !app_assoc. }
      rewrite Eh. split; [|done].
      simpl. rewrite Hw, Hb. simpl. rewrite <- Hs. symmetry.
      unfold h1. rewrite <- app_assoc. by apply weighted_sum_app.
    + rewrite (mul_literal_spec h wi vw k Hw).
      set (ln := built k BwNone [] OpLeaf).
      set (pn := built (f_mul (data vw) k) (BwMul wi (length h) (S (length h)))
                   [wi; length h] OpMul).
      set (h1 := h ++ [ln; pn]).
      unfold bind at 1.
      rewrite (add_node_spec h1 acc (S (length h)) va pn (lookup_app_l_Some _ _ _ _ Ha)).
      2:{ unfold h1. rewrite lookup_app_r by lia.
          replace (S (length h) - length h) with 1 by lia. done. }
      set (sn := built (f_add (data va) (data pn)) (BwAdd acc (S (length h)) (length h1))
                   [acc; S (length h)] OpAdd).
      destruct (IH (length h1) (h1 ++ [sn]) sn) as (pre & new & out & vo & Hs & E & Ho & Hd).
      { apply lookup_snoc_length. }
      { eapply Forall_impl; [exact Hall|]. intros [w' x'] [[v' Hv'] Hx']. simpl in *.
        split; [exists v'; by do 2 apply lookup_app_l_Some|by do 2 apply operand_valid_app]. }
      rewrite E. exists pre, ([ln; pn; sn] ++ new), out, vo.
      assert (Eh : h ++ [ln; pn; sn] ++ new = (h1 ++ [sn]) ++ new).
      { unfold h1. by rewrite <- !app_assoc. }
      rewrite Eh. split; [|done].
      simpl. rewrite Hw. rewrite <- Hs. symmetry.
      unfold h1. rewrite <- app_assoc. by apply weighted_sum_app.
Qed.

Lemma zip_take_l {X Y} (l : list X) (k : list Y) :
  zip l (take (length l) k) = zip l k.
Proof.
  revert k. induction l as [|x l IH]; intros [|y k]; simpl; try done. by rewrite IH.
Qed.

Lemma zip_take_r {X Y} (l : list X) (k : list Y) :
  zip (take (length k) l) k = zip l k.
Proof.
  revert k. induction l as [|x l IH]; intros [|y k]; simpl; try done. by rewrite IH.
Qed.

Lemma call_neurons_length ns x : forall (h : heap F) os h',
  Layer.call_neurons ns x h = (Ok os, h') -> length os = length ns.
Proof.
  induction ns as [|n ns IH]; intros h os h'; simpl.
  - by intros [= <- _].
  - unfold bind at 1. destruct (Neuron.__call__ n x h) as [[o|e] h1]; [|done].
    unfold bind at 1. destruct (Layer.call_neurons ns x h1) as [[os'|e] h2] eqn:E; [|done].
    intros [= <- _]. simpl. f_equal. by eapply IH.
Qed.

Lemma call_neurons_One n ns o (h : heap F) :
  Layer.call_neurons (n :: ns) (One o) h = (Raise TypeError, h).
Proof. done. Qed.

End NeuronProps.

(** ** Floats that compare equal to zero *)

Section FloatZero.
Local Open Scope float_scope.

Lemma float_eqb_zero (x : float) : (x =? 0) = true -> x = 0 ∨ x = neg_zero.
Proof.
  rewrite FloatAxioms.eqb_spec.
  change (Prim2SF 0) with (S754_zero false). intros H.
  rewrite <- (SF2Prim_Prim2SF x).
  destruct (Prim2SF x) as [s|s| |s m e]; try done.
  - destruct s; [by right|by left].
  - by destruct s.
  - by destruct s.
Qed.

End FloatZero.

Section DrawnLookup.
Context {F : Type} {A : Arith F}.

Lemma lookup_drawn (h : heap F) rand k n j :
  j < n ->
  (h ++ drawn rand k n) !! (length h + j) = Some (built (rand (k + j)) BwNone [] OpLeaf).
Proof.
  intros Hj. rewrite lookup_app_r by lia.
  replace (length h + j - length h) with j by lia.
  unfold drawn. rewrite list_lookup_fmap, lookup_seq_lt by done. done.
Qed.

End DrawnLookup.

(** ** The nodes a network returns *)

Section NetworkResults.
Context {F : Type} {A : Arith F}.
Local Open Scope py_scope.

Lemma tanh_result (h : heap F) a o h' :
  tanh a h = (Ok o, h') -> o < length h'.
Proof.
  destruct (h !! a) as [va|] eqn:Ha.
  - rewrite (tanh_spec h a va Ha). destruct (f_exp _); [|done].
    destruct (f_div _ _); [|done]. intros [= <- <-]. rewrite length_app. simpl. lia.
  - unfold tanh. by rewrite get_data_None.
Qed.

Lemma Neuron_call_result n x (h : heap F) o h' :
  Neuron.__call__ n x h = (Ok o, h') -> o < length h'.
Proof.
  destruct x as [r|xs]; simpl; [done|]. unfold bind at 1.
  destruct (Neuron.sum_products _ _ h) as [[act|e] h1]; [|done]. apply tanh_result.
Qed.

Lemma appends_length {X} (m : M F X) (h : heap F) r h' :
  appends m -> m h = (r, h') -> length h <= length h'.
Proof. intros Hm E. destruct (Hm _ _ _ E) as (new & -> & _). rewrite length_app. lia. Qed.

Lemma call_neurons_result ns x : forall (h : heap F) os h',
  Layer.call_neurons ns x h = (Ok os, h') -> Forall (fun o => o < length h') os.
Proof.
  induction ns as [|n ns IH]; intros h os h'; simpl.
  - by intros [= <- _].
  - unfold bind at 1. destruct (Neuron.__call__ n x h) as [[o|e] h1] eqn:En; [|done].
    unfold bind at 1. destruct (Layer.call_neurons ns x h1) as [[os'|e] h2] eqn:E; [|done].
    intros [= <- <-]. constructor; [|by eapply IH].
    apply Neuron_call_result in En.
    pose proof (appends_length _ _ _ _ (appends_call_neurons ns x) E). lia.
Qed.



End NetworkResults.

(** ** Every parameter is under the output *)

Section Reach.
Context {F : Type} {A : Arith F}.
Local Open Scope py_scope.

Lemma elem_of_concat {X} (x : X) (ls : list (list X)) :
  x ∈ concat ls <-> exists l, x ∈ l ∧ l ∈ ls.
Proof.
  induction ls as [|l ls IH]; simpl.
  - split; [by intros ?%elem_of_nil|]. by intros (l & _ & ?%elem_of_nil).
  - rewrite elem_of_app, IH. split.
    + intros [H|(l' & H1 & H2)]; [exists l; split; [done|by left]|].
      exists l'. split; [done|by right].
    + intros (l' & H1 & [->|H2]%elem_of_cons); [by left|]. right. by exists l'.
Qed.

Lemma children_app (h new : heap F) v :
  v < length h -> children (h ++ new) v = children h v.
Proof. intros Hv. unfold children. by rewrite lookup_app_l. Qed.

Lemma reachable_app (h new : heap F) t u :
  reachable h t u -> reachable (h ++ new) t u.
Proof.
  induction 1 as [|v c u Hc _ IH]; [apply rtc_refl|].
  eapply rtc_l; [|exact IH]. simpl.
  rewrite children_app; [done|]. by eapply children_valid.
Qed.

Lemma children_snoc (h : heap F) d c cs op :
  children (h ++ [built d c cs op]) (length h) = list_to_set cs.
Proof. unfold children. by rewrite lookup_snoc_length. Qed.

Lemma reachable_child (h : heap F) v c : c ∈ children h v -> reachable h v c.
Proof. intros Hc. eapply rtc_l; [exact Hc|apply rtc_refl]. Qed.

(** The node [sum(...)] returns is over [acc], every weight and every
    input node of the list. *)
Lemma sum_products_reach wx : forall acc (h : heap F) out h',
  is_Some (h !! acc) ->
  Forall (fun p => is_Some (h !! p.1) ∧ operand_valid h p.2) wx ->
  Neuron.sum_products acc wx h = (Ok out, h') ->
  reachable h' out acc
  ∧ forall wi xi, (wi, xi) ∈ wx ->
      reachable h' out wi ∧ forall r, xi = ONode r -> reachable h' out r.
Proof.
  induction wx as [|[wi xi] wx IH]; intros acc h out h' [va Ha] Hall.
  - intros [= <- <-]. split; [apply rtc_refl|]. intros wi xi Hin.
    by apply elem_of_nil in Hin.
  - apply Forall_cons in Hall as [[[vw Hw] Hx] Hall]. simpl in Hw, Hx.
    simpl Neuron.sum_products. unfold bind at 1.
    assert (Hgen : forall (h1 : heap F) p vp new1,
      h1 = h ++ new1 -> h1 !! p = Some vp ->
      wi ∈ children h1 p -> (forall r, xi = ONode r -> r ∈ children h1 p) ->
      (let* acc' := __add__ acc (ONode p) in Neuron.sum_products acc' wx) h1
        = (Ok out, h') ->
      reachable h' out acc
      ∧ forall wi0 xi0, (wi0, xi0) ∈ (wi, xi) :: wx ->
          reachable h' out wi0 ∧ forall r, xi0 = ONode r -> reachable h' out r).
    { intros h1 p vp new1 -> Hp Hcw Hcx. unfold bind at 1.
      rewrite (add_node_spec _ acc p va vp (lookup_app_l_Some _ _ _ _ Ha) Hp).
      set (sn := built _ _ _ _). set (h2 := (h ++ new1) ++ [sn]). intros E.
      destruct (appends_sum_products wx _ _ _ _ E) as (new2 & -> & _).
      destruct (IH (length (h ++ new1)) h2 out (h2 ++ new2)) as [Hacc Hrest].
      { exists sn. apply lookup_snoc_length. }
      { eapply Forall_impl; [exact Hall|]. intros [w' x'] [[v' Hv'] Hx']. simpl in *.
        split; [exists v'; by do 2 apply lookup_app_l_Some|by do 2 apply operand_valid_app]. }
      { done. }
      assert (Hs : forall c, c = acc ∨ c = p -> reachable (h2 ++ new2) out c).
      { intros c Hc. unfold reachable in *. etrans; [exact Hacc|].
        apply reachable_app, reachable_child. unfold h2, sn.
        rewrite children_snoc. destruct Hc as [-> | ->]; set_solver. }
      assert (Hpr : forall c, c ∈ children (h ++ new1) p -> reachable (h2 ++ new2) out c).
      { intros c Hc. unfold reachable in *. etrans; [apply Hs; by right|].
        unfold h2. rewrite <- app_assoc. by apply reachable_app, reachable_child. }
      split; [apply Hs; by left|].
      intros wi0 xi0 [[= -> ->]|Hin]%elem_of_cons.
      - split; [by apply Hpr|]. intros r Hr. by apply Hpr, Hcx.
      - by apply Hrest. }
    destruct xi as [b|k].
    + destruct Hx as [vb Hb]. rewrite (mul_node_spec h wi b vw vb Hw Hb).
      eapply (Hgen _ (length h) _ [_]); [done|apply lookup_snoc_length| |].
      * rewrite children_snoc. set_solver.
      * intros r [= ->]. rewrite children_snoc. set_solver.
    + rewrite (mul_literal_spec h wi vw k Hw).
      eapply (Hgen _ (S (length h)) _ [_; _]); [done| | |done].
      * rewrite lookup_app_r by lia.
        replace (S (length h) - length h) with 1 by lia. done.
      * unfold children. rewrite lookup_app_r by lia.
        replace (S (length h) - length h) with 1 by lia. simpl. set_solver.
Qed.

(** The output of a neuron is over its bias, and over the weights and the
    input nodes that [zip] pairs. *)
Lemma Neuron_call_reach n xs (h : heap F) o h' :
  Forall (fun r => is_Some (h !! r)) (Neuron.parameters n) ->
  Forall (operand_valid h) xs ->
  Neuron.__call__ n (Many xs) h = (Ok o, h') ->
  reachable h' o (Neuron.b n)
  ∧ (forall i wi, Neuron.w n !! i = Some wi -> i < length xs -> reachable h' o wi)
  ∧ (forall i r, xs !! i = Some (ONode r) -> i < length (Neuron.w n) -> reachable h' o r).
Proof.
  intros Hp Hx. unfold Neuron.parameters in Hp.
  apply Forall_app in Hp as [Hw Hb]. rewrite Forall_singleton in Hb.
  simpl. unfold bind at 1.
  destruct (Neuron.sum_products _ _ h) as [[act|e] h1] eqn:E; [|done].
  intros Et.
  assert (Hzip : Forall (fun p => is_Some (h !! p.1) ∧ operand_valid h p.2)
                    (zip (Neuron.w n) xs)).
  { apply Forall_forall. intros [w x] Hin. simpl.
    rewrite Forall_forall in Hw. rewrite Forall_forall in Hx. split.
    - apply Hw. by eapply elem_of_zip_l.
    - apply Hx. by eapply elem_of_zip_r. }
  destruct (sum_products_reach _ _ _ _ _ Hb Hzip E) as [Hacc Hrest].
  assert (Hact : is_Some (h1 !! act)).
  { destruct (h1 !! act) eqn:Ha; [done|]. unfold tanh in Et.
    by rewrite get_data_None in Et. }
  destruct Hact as [va Ha]. rewrite (tanh_spec h1 act va Ha) in Et.
  destruct (f_exp _) as [e|]; [|done]. destruct (f_div _ _) as [tv|]; [|done].
  injection Et as <- <-.
  assert (Hup : forall c, reachable h1 act c ->
            reachable (h1 ++ [built tv (BwTanh act tv (length h1)) [act] OpTanh]) (length h1) c).
  { intros c Hc. unfold reachable in *. etrans; [|by apply reachable_app].
    apply reachable_child. rewrite children_snoc. set_solver. }
  split; [by apply Hup|]. split.
  - intros i wi Hi Hlt. destruct (lookup_lt_is_Some_2 xs i Hlt) as [xi Hxi].
    destruct (Hrest wi xi) as [H1 _]; [|by apply Hup].
    apply list_elem_of_lookup. exists i. by apply lookup_zip_Some.
  - intros i r Hi Hlt. destruct (lookup_lt_is_Some_2 (Neuron.w n) i Hlt) as [wi Hwi].
    destruct (Hrest wi (ONode r)) as [_ H2]; [|by apply Hup, H2].
    apply list_elem_of_lookup. exists i. by apply lookup_zip_Some.
Qed.

(** [[n(x) for n in self.neurons]]: each output is over the parameters of
    its neuron and over the input nodes. *)
Lemma call_neurons_reach xs ns : forall (h : heap F) os h',
  (forall nr, nr ∈ ns -> Forall (fun r => is_Some (h !! r)) (Neuron.parameters nr)) ->
  Forall (operand_valid h) xs ->
  Layer.call_neurons ns (Many xs) h = (Ok os, h') ->
  Forall2 (fun nr o =>
    reachable h' o (Neuron.b nr)
    ∧ (forall i wi, Neuron.w nr !! i = Some wi -> i < length xs -> reachable h' o wi)
    ∧ (forall i r, xs !! i = Some (ONode r) -> i < length (Neuron.w nr) ->
         reachable h' o r)) ns os.
Proof.
  induction ns as [|nr ns IH]; intros h os h' Hp Hx.
  - intros [= <- <-]. constructor.
  - cbn [Layer.call_neurons]. unfold bind at 1.
    destruct (Neuron.__call__ nr (Many xs) h) as [[o|e] h1] eqn:En; [|done].
    unfold bind at 1.
    destruct (Layer.call_neurons ns (Many xs) h1) as [[os'|e] h2] eqn:E; [|done].
    unfold ret. intros [= <- <-].
    destruct (appends_Neuron_call nr (Many xs) _ _ _ En) as (new1 & -> & _).
    destruct (appends_call_neurons ns (Many xs) _ _ _ E) as (new2 & -> & _).
    constructor.
    + assert (Hnr : nr ∈ nr :: ns) by left.
      destruct (Neuron_call_reach nr xs h o _ (Hp nr Hnr) Hx En) as (Hb & Hw & Hi).
      split; [by apply reachable_app|]. split.
      * intros i wi H1 H2. by apply reachable_app, (Hw i).
      * intros i r H1 H2. by apply reachable_app, (Hi i).
    + apply (IH (h ++ new1)); [| |done].
      * intros nr' Hnr'. eapply Forall_impl; [apply (Hp nr'); by right|].
        intros r [v Hv]. exists v. by apply lookup_app_l_Some.
      * eapply Forall_impl; [exact Hx|]. intros x. by apply operand_valid_app.
Qed.

Lemma Layer_call_One l o (h : heap F) :
  Layer.neurons l ≠ [] -> Layer.__call__ l (One o) h = (Raise TypeError, h).
Proof. intros Hl. unfold Layer.__call__, bind. by destruct (Layer.neurons l). Qed.

(** The single node a network returns is over every parameter of its
    layers, and over what its inputs are over. *)
Lemma call_layers_reach ls : forall xs (h : heap F) (S : ref -> Prop) y h',
  shaped (length xs) ls ->
  (forall p, p ∈ concat (Layer.parameters <$> ls) -> is_Some (h !! p)) ->
  Forall (operand_valid h) xs ->
  (forall p, S p -> exists i r, xs !! i = Some (ONode r) ∧ reachable h r p) ->
  MLP.call_layers ls (Many xs) h = (Ok y, h') ->
  match y with
  | One o =>
      forall p, S p ∨ p ∈ concat (Layer.parameters <$> ls) -> reachable h' o p
  | Many _ => True
  end.
Proof.
  induction ls as [|l rest IH]; intros xs h S y h' Hsh Hval Hx Hinv.
  - intros [= <- <-]. done.
  - destruct Hsh as (Hne & Hlen & Hsh).
    simpl MLP.call_layers. unfold bind at 1.
    destruct (Layer.__call__ l (Many xs) h) as [[x'|e] h1] eqn:El; [|done].
    intros Erest.
    pose proof El as El'. unfold Layer.__call__, bind in El'.
    destruct (Layer.call_neurons (Layer.neurons l) (Many xs) h) as [[os|e] h1'] eqn:En;
      [|done].
    assert (Hvn : forall nr, nr ∈ Layer.neurons l ->
              Forall (fun r => is_Some (h !! r)) (Neuron.parameters nr)).
    { intros nr Hnr. apply Forall_forall. intros r Hr. apply Hval.
      rewrite fmap_cons. simpl. apply elem_of_app. left.
      unfold Layer.parameters. apply elem_of_concat. exists (Neuron.parameters nr).
      split; [done|]. apply list_elem_of_fmap. by exists nr. }
    pose proof (call_neurons_reach xs _ _ _ _ Hvn Hx En) as Hreach.
    destruct (appends_call_neurons _ _ _ _ _ En) as (new1 & -> & _).
    pose proof (call_neurons_result _ _ _ _ _ En) as Hos.
    assert (Hfirst : forall p, S p ->
              exists o0, os !! 0 = Some o0 ∧ reachable (h ++ new1) o0 p).
    { intros p Hp. destruct (Hinv p Hp) as (i & r & Hi & Hr).
      destruct (Layer.neurons l) as [|n0 ns0] eqn:Ens; [done|].
      inversion Hreach as [|? o0 ? os0 (_ & _ & Hin) _]; subst.
      exists o0. split; [done|]. unfold reachable in *. etrans.
      - apply (Hin i r Hi). apply Forall_cons in Hlen as [-> _].
        by eapply lookup_lt_Some.
      - by apply reachable_app. }
    assert (Hown : forall p, p ∈ Layer.parameters l ->
              exists j oj, os !! j = Some oj ∧ reachable (h ++ new1) oj p).
    { intros p Hp. unfold Layer.parameters in Hp.
      apply elem_of_concat in Hp as (ps & Hps & Hin).
      apply list_elem_of_fmap in Hin as (nr & -> & Hnr).
      apply list_elem_of_lookup in Hnr as [j Hj].
      destruct (Forall2_lookup_l _ _ _ _ _ Hreach Hj) as (oj & Hoj & Hb & Hw & _).
      exists j, oj. split; [done|].
      unfold Neuron.parameters in Hps. apply elem_of_app in Hps as [Hps|Hps].
      - apply list_elem_of_lookup in Hps as [i Hi]. apply (Hw i); [done|].
        rewrite Forall_forall in Hlen. rewrite <- (Hlen nr).
        + by eapply lookup_lt_Some.
        + apply list_elem_of_lookup. by exists j.
      - apply list_elem_of_singleton in Hps. by subst p. }
    destruct os as [|o1 [|o2 os]]; injection El' as <- <-.
    + apply Forall2_length in Hreach. by destruct (Layer.neurons l).
    + destruct rest as [|l2 rest].
      * injection Erest as <- <-. intros p [Hp|Hp].
        -- destruct (Hfirst p Hp) as (o0 & [= <-] & Hr). done.
        -- rewrite fmap_cons in Hp. simpl in Hp. rewrite app_nil_r in Hp.
           destruct (Hown p Hp) as (j & oj & Hj & Hr).
           destruct j as [|j]; [|done]. by injection Hj as <-.
      * simpl in Erest. unfold bind in Erest.
        destruct Hsh as (Hne2 & _). by rewrite (Layer_call_One l2 o1) in Erest.
    + set (xs' := (ONode <$> o1 :: o2 :: os) : list (operand F)).
      destruct y as [o|ys]; [|done].
      intros p Hp.
      apply (IH xs' (h ++ new1) (fun p => S p ∨ p ∈ Layer.parameters l) (One o) h').
      * unfold xs'. rewrite length_fmap. apply Forall2_length in Hreach.
        by rewrite <- Hreach.
      * intros q Hq. destruct (Hval q) as [v Hv].
        { rewrite fmap_cons. simpl. apply elem_of_app. by right. }
        exists v. by apply lookup_app_l_Some.
      * unfold xs'. apply Forall_fmap. eapply Forall_impl; [exact Hos|].
        intros o' Ho'. simpl. by apply lookup_lt_is_Some_2.
      * intros q [Hq|Hq].
        -- destruct (Hfirst q Hq) as (o0 & Ho0 & Hr). exists 0, o0. split; [|done].
           unfold xs'. by rewrite list_lookup_fmap, Ho0.
        -- destruct (Hown q Hq) as (j & oj & Hj & Hr). exists j, oj. split; [|done].
           unfold xs'. by rewrite list_lookup_fmap, Hj.
      * exact Erest.
      * rewrite fmap_cons in Hp. simpl in Hp. rewrite elem_of_app in Hp. tauto.
Qed.

(** The shape of the networks [MLP] builds. *)
Lemma make_neurons_arity rand nin nout : forall k (h : heap F) ns k' h',
  Layer.make_neurons rand k nin nout h = (Ok (ns, k'), h') ->
  length ns = nout ∧ Forall (fun nr => length (Neuron.w nr) = nin) ns.
Proof.
  induction nout as [|m IH]; intros k h ns k' h'; simpl.
  - intros [= <- _ _]. done.
  - unfold bind at 1. rewrite Neuron_init_spec. unfold bind at 1. simpl.
    destruct (Layer.make_neurons rand _ nin m _) as [[[ns' k2]|e] h2] eqn:E; [|done].
    intros [= <- _ _]. destruct (IH _ _ _ _ _ E) as [Hl Hf]. simpl. split; [by rewrite Hl|].
    constructor; [|done]. simpl. by rewrite length_seq.
Qed.

Lemma make_layers_shaped rand nouts : forall nin k (h : heap F) ls k' h',
  Forall (fun m => 0 < m) nouts ->
  MLP.make_layers rand k nin nouts h = (Ok (ls, k'), h') ->
  shaped nin ls.
Proof.
  induction nouts as [|nout rest IH]; intros nin k h ls k' h' Hpos; simpl.
  - intros [= <- _ _]. done.
  - apply Forall_cons in Hpos as [Hpos Hrest].
    unfold bind at 1. unfold Layer.__init__ at 1. unfold bind at 1.
    destruct (Layer.make_neurons rand k nin nout h) as [[[ns k1]|e] h1] eqn:En; [|done].
    simpl. unfold bind at 1.
    destruct (MLP.make_layers rand k1 nout rest h1) as [[[ls' k2]|e] h2] eqn:El; [|done].
    intros [= <- _ _]. destruct (make_neurons_arity _ _ _ _ _ _ _ _ En) as [Hl Hf].
    simpl. split; [|split; [done|]].
    + destruct ns; [simpl in Hl; lia|done].
    + rewrite Hl. by eapply IH.
Qed.

End Reach.

(** * The claims *)

Section Claims.

Import Examples.
Local Open Scope py_scope.




(** C2 (amended).  For every leaf [a] of a well-formed store whose
    gradient is [0.0], whatever its value [x], and for every enumeration
    order, [c = a*a + a; c.backward()] returns and leaves
    [a.grad = (1.0 + x*1.0) + x*1.0], the three contributions added in
    binary64 one after the other: the contribution of the edge from [c] and
    the two contributions through [a*a] are accumulated, none overwritten.
    In exact arithmetic this is [2*x + 1]; in binary64 it may differ from
    the float [2*x + 1] by a rounding. *)
Theorem diamond_gradient (L : Float64.libm) (iter : iteration)
    (h : heap float) (a : ref) (va : Value float) :
  iter_ok iter -> wf h ->
  h !! a = Some va -> _prev va = ∅ -> _backward va = BwNone ->
  grad va = 0%float ->
  exists c h1 log h',
    diamond_over (A:=Float64.arith L) a h = (Ok c, h1)
    ∧ backward (A:=Float64.arith L) iter c h1 = Some (log, (Ok tt, h'))
    ∧ grad_of h' a = Some ((1 + data va * 1) + data va * 1)%float.
Proof.
  intros Hiter Hwf Ha Hleaf Hnone Hg.
  destruct (diamond_over_backward (A:=Float64.arith L) h a va Hwf Ha Hleaf Hnone
              iter Hiter) as [E1 E2].
  eexists _, _, _, _.
  split; [apply (diamond_over_store (A:=Float64.arith L) h a va Ha)|].
  split; [exact E1|].
  rewrite E2, Hg. reflexivity.
Qed.

Lemma diamond_gradient_witness :
  exists c h1 log h',
    diamond_over (A:=Float64.arith Float64.reference) 0 (store_of (leaf 3%float))
    = (Ok c, h1)
    ∧ backward (A:=Float64.arith Float64.reference) by_elements c h1
      = Some (log, (Ok tt, h'))
    ∧ grad_of h' 0 = Some ((1 + 3 * 1) + 3 * 1)%float.
Proof.
  apply (diamond_gradient Float64.reference by_elements (store_of (leaf 3%float)) 0
           (built 3%float BwNone [] OpLeaf)).
  - intros v s. reflexivity.
  - apply (bool_decide_unpack _). vm_compute. exact I.
  - reflexivity.
  - reflexivity.
  - reflexivity.
  - reflexivity.
Defined.

(** C2, as stated, fails: for [a = Value(0.1)] the pass leaves
    [a.grad = 1.2000000000000002], and [2*0.1 + 1] is the float [1.2]. *)
Lemma diamond_gradient_is_rounded :
  exists c h1 log h',
    diamond_over 0 (store_of (leaf 0.1%float)) = (Ok c, h1)
    ∧ backward by_elements c h1 = Some (log, (Ok tt, h'))
    ∧ grad_of h' 0 = Some 1.2000000000000002%float
    ∧ grad_of h' 0 <> Some (2 * 0.1 + 1)%float.
Proof.
  eexists _, _, _, _.
  split; [vm_compute; reflexivity|].
  split; [vm_compute; reflexivity|].
  split; [vm_compute; reflexivity|].
  vm_compute. discriminate.
Qed.




Lemma prev_built {F} {A : Arith F} (d : F) c children op :
  _prev (built d c children op) = list_to_set children.
Proof. reflexivity. Qed.

(** C4 (amended).  For nodes [a] and [b] of the store, [a + b] and [a * b]
    return a new node whose operands are the set [{a, b}] of the inputs:
    unordered, with one or two members, so that [a * a] has the single
    operand [a]; [a ** p], [a.exp()] and [a.tanh()], when they return,
    return a new node whose only operand is [a]. *)
Theorem operands_are_the_set_of_inputs {F} {A : Arith F}
    (h : heap F) (a b : ref) (va vb : Value F) :
  h !! a = Some va -> h !! b = Some vb ->
  (exists v, __add__ a (ONode b) h = (Ok (length h), h ++ [v])
             ∧ _prev v = {[a; b]} ∧ 1 <= size (_prev v) <= 2)
  ∧ (exists v, __mul__ a (ONode b) h = (Ok (length h), h ++ [v])
               ∧ _prev v = {[a; b]} ∧ 1 <= size (_prev v) <= 2)
  ∧ (exists v, __mul__ a (ONode a) h = (Ok (length h), h ++ [v])
               ∧ _prev v = {[a]} ∧ size (_prev v) = 1)
  ∧ (forall p out h', __pow__ a p h = (Ok out, h') ->
       exists v, out = length h ∧ h' = h ++ [v] ∧ _prev v = {[a]})
  ∧ (forall out h', exp a h = (Ok out, h') ->
       exists v, out = length h ∧ h' = h ++ [v] ∧ _prev v = {[a]})
  ∧ (forall out h', tanh a h = (Ok out, h') ->
       exists v, out = length h ∧ h' = h ++ [v] ∧ _prev v = {[a]}).
Proof.
  intros Ha Hb.
  assert (Hsize : forall x y : ref, 1 <= size ({[x; y]} : gset ref) <= 2).
  { intros x y. destruct (decide (x = y)) as [->|Hne].
    - rewrite union_idemp_L, size_singleton. lia.
    - rewrite size_union by set_solver. rewrite !size_singleton. lia. }
  assert (Hset2 : forall x y : ref, list_to_set [x; y] = ({[x; y]} : gset ref))
    by (intros; set_solver).
  assert (Hset1 : forall x : ref, list_to_set [x] = ({[x]} : gset ref))
    by (intros; set_solver).
  split; [|split; [|split; [|split; [|split]]]].
  - eexists. split; [by apply add_node_spec|]. rewrite prev_built, Hset2. auto.
  - eexists. split; [by apply mul_node_spec|]. rewrite prev_built, Hset2. auto.
  - eexists. split; [by apply mul_node_spec|]. rewrite prev_built, Hset2, union_idemp_L. split; [done|apply size_singleton].
  - intros p out h'. rewrite (pow_spec h a va p Ha).
    destruct (as_exponent p) as [e|]; [|done].
    destruct (py_pow (data va) e) as [v|x]; [|done].
    intros [= <- <-]. eexists. split; [done|]. split; [done|]. rewrite prev_built. apply Hset1.
  - intros out h'. rewrite (exp_spec h a va Ha).
    destruct (f_exp (data va)) as [v|x]; [|done].
    intros [= <- <-]. eexists. split; [done|]. split; [done|]. rewrite prev_built. apply Hset1.
  - intros out h'. rewrite (tanh_spec h a va Ha).
    destruct (f_exp (f_mul (f_lit 2) (data va))) as [e|x]; [|done].
    destruct (f_div (f_sub e (f_lit 1)) (f_add e (f_lit 1))) as [t|x]; [|done].
    intros [= <- <-]. eexists. split; [done|]. split; [done|]. rewrite prev_built. apply Hset1.
Qed.

Lemma operands_are_the_set_of_inputs_witness :
  exists v,
    __add__ 0 (ONode 1) (store_of (product_plus 2 3 1)%float)
      = (Ok (length (store_of (product_plus 2 3 1)%float)),
         store_of (product_plus 2 3 1)%float ++ [v])
    ∧ _prev v = {[0; 1]} ∧ 1 <= size (_prev v) <= 2.
Proof.
  destruct (operands_are_the_set_of_inputs
              (store_of (product_plus 2 3 1)%float) 0 1
              (built 2%float BwNone [] OpLeaf) (built 3%float BwNone [] OpLeaf))
    as [H _].
  - vm_compute. reflexivity.
  - vm_compute. reflexivity.
  - exact H.
Defined.

(** C4, as stated, fails: the node of [a * a] has one operand entry, not
    the sequence [(a, a)]. *)
Lemma square_has_one_operand :
  exists h v,
    square 3%float [] = (Ok 1, h)
    ∧ h !! 1 = Some v
    ∧ size (_prev v) = 1
    ∧ ¬ (elements (_prev v) ≡ₚ [0; 0]).
Proof.
  eexists _, _.
  split; [vm_compute; reflexivity|].
  split; [vm_compute; reflexivity|].
  split; [vm_compute; reflexivity|].
  intros H. apply Permutation_length in H. vm_compute in H. discriminate.
Qed.






(** C6 (amended).  For a node [a] of the store and a number [k]: [a + k],
    [k + a], [a * k] and [k * a] wrap [k] into a new leaf (no operands,
    zero gradient) and return the new sum or product node over [a] and that
    leaf; [a - k] is [a + (-k)] and wraps the number [-k]; [a / k] is
    [a * (k ** -1)] and wraps the number [k ** -1], or raises what
    [k ** -1] raises ([ZeroDivisionError] for [k = 0.0]) and builds
    nothing. *)
Theorem numbers_are_wrapped_into_leaves {F} {A : Arith F}
    (h : heap F) (a : ref) (va : Value F) (k : F) :
  h !! a = Some va ->
  node_op BinAdd a (OLit k) h
  = (Ok (S (length h)),
     h ++ [built k BwNone [] OpLeaf;
           built (f_add (data va) k) (BwAdd a (length h) (S (length h)))
             [a; length h] OpAdd])
  ∧ number_op BinAdd k a h = node_op BinAdd a (OLit k) h
  ∧ node_op BinMul a (OLit k) h
    = (Ok (S (length h)),
       h ++ [built k BwNone [] OpLeaf;
             built (f_mul (data va) k) (BwMul a (length h) (S (length h)))
               [a; length h] OpMul])
  ∧ number_op BinMul k a h = node_op BinMul a (OLit k) h
  ∧ node_op BinSub a (OLit k) h
    = (Ok (S (length h)),
       h ++ [built (f_neg k) BwNone [] OpLeaf;
             built (f_add (data va) (f_neg k)) (BwAdd a (length h) (S (length h)))
               [a; length h] OpAdd])
  ∧ node_op BinTrueDiv a (OLit k) h
    = match f_pow k (f_lit (-1)) with
      | Ok q =>
          (Ok (S (length h)),
           h ++ [built q BwNone [] OpLeaf;
                 built (f_mul (data va) q) (BwMul a (length h) (S (length h)))
                   [a; length h] OpMul])
      | Raise e => (Raise e, h)
      end.
Proof.
  intros Ha. repeat split.
  - by apply add_literal_spec.
  - by apply mul_literal_spec.
  - by apply add_literal_spec.
  - unfold node_op, forward_method, __truediv__. unfold bind at 1, lift at 1.
    destruct (f_pow k (f_lit (-1))) as [q|e]; [|done]. by apply mul_literal_spec.
Qed.

Lemma numbers_are_wrapped_into_leaves_witness :
  node_op BinAdd 0 (OLit 2%float) (store_of (leaf 5%float))
  = (Ok (S (length (store_of (leaf 5%float)))),
     store_of (leaf 5%float)
     ++ [built 2%float BwNone [] OpLeaf;
         built (f_add (data (built 5%float BwNone [] OpLeaf)) 2%float)
           (BwAdd 0 (length (store_of (leaf 5%float)))
              (S (length (store_of (leaf 5%float)))))
           [0; length (store_of (leaf 5%float))] OpAdd]).
Proof.
  destruct (numbers_are_wrapped_into_leaves (store_of (leaf 5%float)) 0
              (built 5%float BwNone [] OpLeaf) 2%float) as [H _].
  - vm_compute. reflexivity.
  - exact H.
Defined.

(** C6, as stated, fails: [a - 2.0] wraps [-2.0], and no node of the store
    holds the literal [2.0]; [a / 0.0] does not return a node, it raises
    [ZeroDivisionError]. *)
Lemma subtraction_and_division_take_a_number_first :
  (exists h v,
     node_with_number BinSub 5%float 2%float [] = (Ok 2, h)
     ∧ h !! 1 = Some v ∧ data v = (-2)%float ∧ _prev v = ∅
     ∧ forall i w, h !! i = Some w -> data w <> 2%float)
  ∧ (node_with_number BinTrueDiv 5%float 0%float []).1 = Raise ZeroDivisionError.
Proof.
  split; [|vm_compute; reflexivity].
  eexists _, _.
  split; [vm_compute; reflexivity|].
  split; [vm_compute; reflexivity|].
  split; [vm_compute; reflexivity|].
  split; [vm_compute; reflexivity|].
  intros [|[|[|i]]] w; vm_compute; intros [= <-]; vm_compute; discriminate.
Qed.

(** [k - a] and [k / a] with a number on the left find no reflected method
    in the class and raise [TypeError], where [k + a] and [k * a] succeed. *)
Lemma reflected_subtraction_and_division_raise {F} {A : Arith F}
    (h : heap F) (a : ref) (k : F) :
  number_op BinSub k a h = (Raise TypeError, h)
  ∧ number_op BinTrueDiv k a h = (Raise TypeError, h).
Proof. done. Qed.

(** C7.  In a well-formed store, [backward] on a node [t] returns, keeps
    the number of objects, and changes nothing but [grad] fields: every
    object keeps its [data], [_prev], [_op], [_backward] and [label], and an
    object that is not reachable from [t] is left as it was. *)
Theorem backward_changes_gradients_only {F} {A : Arith F}
    (iter : iteration) (h : heap F) (t : ref) :
  iter_ok iter -> wf h -> t < length h ->
  exists log r h',
    backward iter t h = Some (log, (r, h'))
    ∧ length h' = length h
    ∧ forall i v, h !! i = Some v ->
        exists v', h' !! i = Some v'
          ∧ data v' = data v ∧ _prev v' = _prev v ∧ _op v' = _op v
          ∧ _backward v' = _backward v ∧ label v' = label v
          ∧ (¬ reachable h t i -> v' = v).
Proof.
  intros Hiter Hwf Ht.
  destruct (backward_ok iter h t Hiter Hwf Ht)
    as (topo & log & r & h' & _ & _ & _ & _ & Eb & _ & _ & Hg & _).
  exists log, r, h'. split; [done|]. split; [by eapply grads_only_length|].
  intros i v Hv.
  destruct (grads_only_lookup _ _ _ _ _ Hg Hv) as (v' & Hv' & (Hd & Hb & Hp & Ho & Hl)).
  exists v'. repeat split; try done.
  intros Hn. destruct Hg as [_ H2]. by apply (H2 i).
Qed.

Lemma backward_changes_gradients_only_witness :
  exists log r h',
    backward by_elements_reversed 3 (store_of (product_plus 2 3 1)%float)
      = Some (log, (r, h'))
    ∧ length h' = length (store_of (product_plus 2 3 1)%float)
    ∧ forall i v, store_of (product_plus 2 3 1)%float !! i = Some v ->
        exists v', h' !! i = Some v'
          ∧ data v' = data v ∧ _prev v' = _prev v ∧ _op v' = _op v
          ∧ _backward v' = _backward v ∧ label v' = label v
          ∧ (¬ reachable (store_of (product_plus 2 3 1)%float) 3 i -> v' = v).
Proof.
  apply (backward_changes_gradients_only by_elements_reversed
           (store_of (product_plus 2 3 1)%float) 3).
  - intros v s. apply reverse_Permutation.
  - apply (bool_decide_unpack _). vm_compute. exact I.
  - vm_compute. lia.
Defined.

(** C8.  The derived operators are the compositions the specification
    gives, as computations on the store: [-a] is [a * -1], [a - b] is
    [a + (-b)] and [a / b] is [a * b**-1].  They return the same node and
    leave the same store, hence the same values, operands and local rules:
    [-a] adds the leaf [-1] and a product node; [a - b] adds the leaf [-1],
    the product [b * -1] and a sum node; [a / b] adds the power node
    [b ** -1] and a product node, or raises what [b.data ** -1] raises. *)
Theorem derived_operators_are_compositions {F} {A : Arith F}
    (h : heap F) (a b : ref) :
  __neg__ a h = Spec.negate a h
  ∧ __sub__ a (ONode b) h = Spec.subtract a b h
  ∧ __truediv__ a (ONode b) h = Spec.divide a b h
  ∧ (forall va, h !! a = Some va ->
       __neg__ a h
       = (Ok (S (length h)),
          h ++ [built (f_lit (-1)) BwNone [] OpLeaf;
                built (f_mul (data va) (f_lit (-1)))
                  (BwMul a (length h) (S (length h))) [a; length h] OpMul]))
  ∧ (forall va vb, h !! a = Some va -> h !! b = Some vb ->
       __sub__ a (ONode b) h
       = (Ok (S (S (length h))),
          h ++ [built (f_lit (-1)) BwNone [] OpLeaf;
                built (f_mul (data vb) (f_lit (-1)))
                  (BwMul b (length h) (S (length h))) [b; length h] OpMul;
                built (f_add (data va) (f_mul (data vb) (f_lit (-1))))
                  (BwAdd a (S (length h)) (S (S (length h))))
                  [a; S (length h)] OpAdd]))
  ∧ (forall va vb, h !! a = Some va -> h !! b = Some vb ->
       __truediv__ a (ONode b) h
       = match py_pow (data vb) (EInt (-1)) with
         | Ok q =>
             (Ok (S (length h)),
              h ++ [built q (BwPow b (EInt (-1)) (length h)) [b] (OpPow (EInt (-1)));
                    built (f_mul (data va) q)
                      (BwMul a (length h) (S (length h))) [a; length h] OpMul])
         | Raise e => (Raise e, h)
         end).
Proof.
  split; [done|]. split; [done|]. split; [done|]. split; [|split].
  - intros va Ha. by apply mul_literal_spec.
  - intros va vb Ha Hb. unfold __sub__, __neg__. unfold bind at 1.
    rewrite (mul_literal_spec h b vb _ Hb).
    rewrite (add_node_spec _ a (S (length h)) va
               (built (f_mul (data vb) (f_lit (-1)))
                  (BwMul b (length h) (S (length h))) [b; length h] OpMul)).
    + rewrite length_app, <- app_assoc. simpl.
      by replace (length h + 2) with (S (S (length h))) by lia.
    + by apply lookup_app_l_Some.
    + rewrite lookup_app_r by lia.
      by replace (S (length h) - length h) with 1 by lia.
  - intros va vb Ha Hb. unfold __truediv__. unfold bind at 1.
    rewrite (pow_spec h b vb _ Hb). simpl as_exponent. cbv iota.
    destruct (py_pow (data vb) (EInt (-1))) as [q|e]; [|done].
    rewrite (mul_node_spec _ a (length h) va
               (built q (BwPow b (EInt (-1)) (length h)) [b] (OpPow (EInt (-1))))).
    + rewrite length_app, <- app_assoc. simpl. by rewrite Nat.add_1_r.
    + by apply lookup_app_l_Some.
    + apply lookup_snoc_length.
Qed.






End Claims.


(** * Further properties of the code *)

Section Further.

Import Examples.
Local Open Scope py_scope.



(** X2.  [backward] on a node without operands (an input, a parameter, a
    wrapped number): the order holds the node alone, its rule is the no-op
    [lambda: None], and the call only sets the gradient of the node to
    [1.0], whatever it was. *)
Theorem backward_on_a_leaf {F} {A : Arith F}
    (iter : iteration) (h : heap F) (t : ref) (vt : Value F) :
  iter_ok iter -> wf h -> h !! t = Some vt -> _prev vt = ∅ ->
  backward iter t h = Some ([t], (Ok tt, <[t := with_grad (f_lit 1) vt]> h)).
Proof.
  intros Hiter Hwf Ht Hp.
  unfold backward. rewrite (topo_order_no_operands iter h t vt Hiter Ht Hp).
  unfold set_grad, update. rewrite Ht.
  change (reverse [t]) with [t]. simpl.
  unfold call_backward, bind, deref.
  rewrite list_lookup_insert_eq by (by eapply lookup_lt_Some). simpl.
  by rewrite (no_operands_no_rule h t vt Hwf Ht Hp).
Qed.

Lemma backward_on_a_leaf_witness :
  backward by_elements 0 (store_of (product_plus 2 3 1)%float)
  = Some ([0], (Ok tt, <[0 := with_grad (f_lit 1) (built 2%float BwNone [] OpLeaf)]>
                          (store_of (product_plus 2 3 1)%float))).
Proof.
  apply (backward_on_a_leaf by_elements (store_of (product_plus 2 3 1)%float) 0
           (built 2%float BwNone [] OpLeaf)).
  - intros v s. reflexivity.
  - apply (bool_decide_unpack _). vm_compute. exact I.
  - reflexivity.
  - reflexivity.
Defined.

(** X3.  When [backward] on [t] completes in a well-formed store, every
    rule ran on the final gradient of its node: the store it leaves is the
    seeded store ([t.grad = 1.0]) to which were added, for each node of the
    reversed order in turn, the contributions its rule computes from the
    gradients of the final store.  No node receives a contribution after its
    own rule has run. *)
Theorem backward_rules_see_final_gradients {F} {A : Arith F}
    (iter : iteration) (h : heap F) (t : ref) (log : list ref) (h' : heap F) :
  iter_ok iter -> wf h -> t < length h ->
  backward iter t h = Some (log, (Ok tt, h')) ->
  exists vt dss,
    h !! t = Some vt
    ∧ Forall2 (fun u ds => deltas h' u = Ok ds) log dss
    ∧ h' = apply_deltas (concat dss) (<[t := with_grad (f_lit 1) vt]> h).
Proof.
  intros Hiter Hwf Ht Hb.
  destruct (backward_completes_final iter h t log h' Hiter Hwf Ht Hb)
    as (vt & topo & dss & Hvt & _ & _ & _ & _ & _ & Hall & Eh').
  by exists vt, dss.
Qed.

Lemma backward_rules_see_final_gradients_witness :
  exists vt dss,
    exact_store !! 8 = Some vt
    ∧ Forall2 (fun u ds => deltas exact_pass.2 u = Ok ds) exact_pass.1 dss
    ∧ exact_pass.2 = apply_deltas (concat dss) (<[8 := with_grad (f_lit 1) vt]> exact_store).
Proof.
  apply (backward_rules_see_final_gradients by_elements exact_store 8).
  - intros v s. reflexivity.
  - apply (bool_decide_unpack _). vm_compute. exact I.
  - vm_compute. lia.
  - vm_compute. reflexivity.
Defined.

(** X4.  Reverse accumulation computes derivatives.  Over an arithmetic
    that is a commutative semiring (exact numbers; not binary64, whose
    addition rounds), in a well-formed store where the gradients of the
    nodes under [t] are [0], when [backward] on [t] completes the gradient
    of every node [u] under [t] is the derivative of [t] with respect to
    [u]: the value the chain rule gives when the partial derivatives of
    each operation are combined forwards, from the operands to [t]. *)
Theorem backward_computes_derivatives {F} {A : Arith F}
    (iter : iteration) (h : heap F) (t : ref) (log : list ref) (h' : heap F) :
  semi_ring_theory (f_lit 0) (f_lit 1) f_add f_mul eq ->
  iter_ok iter -> wf h -> t < length h ->
  (forall u x, reachable h t u -> u ≠ t -> h !! u = Some x -> grad x = f_lit 0) ->
  backward iter t h = Some (log, (Ok tt, h')) ->
  forall u, reachable h t u -> grad_of h' u = Some (tangent h u t).
Proof.
  intros Hsr Hiter Hwf Ht Hzero Hb u Hu.
  rewrite <- (backward_adjoint Hsr h Hwf iter t log h' Hiter Ht Hzero Hb u Hu).
  destruct (backward_completes_final iter h t log h' Hiter Hwf Ht Hb)
    as (_ & _ & _ & _ & _ & _ & _ & _ & Hg & _).
  destruct (lookup_lt_is_Some_2 h u) as [x Hx]; [by eapply reachable_valid|].
  destruct (grads_only_lookup _ _ _ _ _ Hg Hx) as (y & Hy & _).
  unfold grad_of, grad_or_zero. by rewrite Hy.
Qed.

Lemma backward_computes_derivatives_witness :
  grad_of exact_pass.2 0 = Some (tangent exact_store 0 8).
Proof.
  apply (backward_computes_derivatives by_elements exact_store 8 exact_pass.1).
  - constructor; intros; cbn; ring.
  - intros v s. reflexivity.
  - apply (bool_decide_unpack _). vm_compute. exact I.
  - vm_compute. lia.
  - assert (H : Forall (fun x => grad x = 0%Z) exact_store)
      by (apply (bool_decide_unpack _); vm_compute; exact I).
    intros u x _ _ Hx. rewrite Forall_lookup in H. by apply (H u).
  - vm_compute. reflexivity.
  - apply (rtc_l _ 8 6 0); [|apply (rtc_l _ 6 0 0); [|apply rtc_refl]];
      vm_compute; apply (bool_decide_unpack _); vm_compute; exact I.
Defined.

(** X5.  Gradients left by earlier passes are carried along.  Over a
    commutative semiring, when [backward] on [t] completes in a well-formed
    store, the gradient of every node [u] under [t] is the sum, over the
    nodes [v] the pass visited, of the derivative of [v] with respect to [u]
    weighted by [1] for [v = t] and by the gradient [v] held before the
    pass otherwise.  Nothing resets a gradient, and the gradient an inner
    node held is propagated again to the nodes under it. *)
Theorem backward_carries_earlier_gradients {F} {A : Arith F}
    (iter : iteration) (h : heap F) (t : ref) (log : list ref) (h' : heap F) :
  semi_ring_theory (f_lit 0) (f_lit 1) f_add f_mul eq ->
  iter_ok iter -> wf h -> t < length h ->
  backward iter t h = Some (log, (Ok tt, h')) ->
  forall u, reachable h t u ->
    grad_of h' u
    = Some (sum_over log (fun v =>
              f_mul (if decide (v = t) then f_lit 1 else grad_or_zero h v)
                    (tangent h u v))).
Proof.
  intros Hsr Hiter Hwf Ht Hb u Hu.
  rewrite <- (backward_adjoint_seeded Hsr h Hwf iter t log h' Hiter Ht Hb u Hu).
  destruct (backward_completes_final iter h t log h' Hiter Hwf Ht Hb)
    as (_ & _ & _ & _ & _ & _ & _ & _ & Hg & _).
  destruct (lookup_lt_is_Some_2 h u) as [x Hx]; [by eapply reachable_valid|].
  destruct (grads_only_lookup _ _ _ _ _ Hg Hx) as (y & Hy & _).
  unfold grad_of, grad_or_zero. by rewrite Hy.
Qed.

Lemma backward_carries_earlier_gradients_witness :
  grad_of exact_second_pass.2 0
  = Some (sum_over exact_second_pass.1 (fun v =>
            f_mul (if decide (v = 8) then f_lit 1 else grad_or_zero exact_pass.2 v)
                  (tangent exact_pass.2 0 v))).
Proof.
  apply (backward_carries_earlier_gradients by_elements exact_pass.2 8).
  - constructor; intros; cbn; ring.
  - intros v s. reflexivity.
  - apply (bool_decide_unpack _). vm_compute. exact I.
  - vm_compute. lia.
  - vm_compute. reflexivity.
  - apply (rtc_l _ 8 6 0); [|apply (rtc_l _ 6 0 0); [|apply rtc_refl]];
      vm_compute; apply (bool_decide_unpack _); vm_compute; exact I.
Defined.

(** X6.  The forward computations only allocate.  Every operator of
    [Value], and the construction and the call of a network, leave the
    objects of the store as they were (no [data], no [grad], no operand is
    changed) and add objects whose gradient is [0.0]; this also holds when
    they raise. *)
Theorem forward_only_allocates {F} {A : Arith F} :
  (forall op a x, appends (node_op (F:=F) op a x))
  ∧ (forall op k a, appends (number_op (F:=F) op k a))
  ∧ (forall a p, appends (__pow__ (F:=F) a p))
  ∧ (forall a, appends (__neg__ (F:=F) a))
  ∧ (forall a, appends (tanh (F:=F) a))
  ∧ (forall a, appends (exp (F:=F) a))
  ∧ (forall rand k nin nouts, appends (MLP.__init__ (F:=F) rand k nin nouts))
  ∧ (forall n x, appends (Neuron.__call__ (F:=F) n x))
  ∧ (forall l x, appends (Layer.__call__ (F:=F) l x))
  ∧ (forall n x, appends (MLP.__call__ (F:=F) n x)).
Proof.
  repeat split; intros.
  - apply appends_node_op.
  - apply appends_number_op.
  - apply appends_pow.
  - apply appends_neg.
  - apply appends_tanh.
  - apply appends_exp.
  - apply appends_MLP_init.
  - apply appends_Neuron_call.
  - apply appends_Layer_call.
  - apply appends_call_layers.
Qed.

(** X7.  The graph stays well formed.  Every operator of [Value], and the
    construction and the call of a network, keep the invariant that the
    operands of each node were allocated before the node and that the rule
    of a node writes the gradients of its operands only, reading the
    gradient of the node itself; so the graph has no cycle.  The empty
    store satisfies the invariant. *)
Theorem forward_keeps_graph_well_formed {F} {A : Arith F} :
  wf (F:=F) []
  ∧ (forall op a x, preserves_wf (F:=F) (node_op op a x))
  ∧ (forall op k a, preserves_wf (F:=F) (number_op op k a))
  ∧ (forall a p, preserves_wf (F:=F) (__pow__ a p))
  ∧ (forall a, preserves_wf (F:=F) (__neg__ a))
  ∧ (forall a, preserves_wf (F:=F) (tanh a))
  ∧ (forall a, preserves_wf (F:=F) (exp a))
  ∧ (forall rand k nin nouts, preserves_wf (F:=F) (MLP.__init__ rand k nin nouts))
  ∧ (forall n x, preserves_wf (F:=F) (Neuron.__call__ n x))
  ∧ (forall l x, preserves_wf (F:=F) (Layer.__call__ l x))
  ∧ (forall n x, preserves_wf (F:=F) (MLP.__call__ n x)).
Proof.
  split; [apply wf_nil|]. repeat split; intros.
  - apply node_op_wf.
  - apply number_op_wf.
  - apply pow_wf.
  - apply neg_wf.
  - apply tanh_wf.
  - apply exp_wf.
  - apply MLP_init_wf.
  - apply Neuron_call_wf.
  - apply Layer_call_wf.
  - apply call_layers_wf.
Qed.

(** X8.  An operator applied to nodes of the store either returns a node
    it has just allocated, the newest of the store (never one of its
    operands), or raises and leaves the store exactly as it was. *)
Theorem operators_return_fresh_nodes_or_fail_cleanly {F} {A : Arith F}
    (h : heap F) (a : ref) (x : operand F) :
  is_Some (h !! a) -> operand_valid h x ->
  (forall op, fresh_or_untouched h (node_op op a x h))
  ∧ (forall op k, fresh_or_untouched h (number_op op k a h))
  ∧ (forall p, fresh_or_untouched h (__pow__ a p h))
  ∧ fresh_or_untouched h (__neg__ a h)
  ∧ fresh_or_untouched h (tanh a h)
  ∧ fresh_or_untouched h (exp a h).
Proof.
  intros Ha Hx. repeat split.
  - intros []; [by apply fresh_add|by apply fresh_sub|by apply fresh_mul|by apply fresh_truediv].
  - intros [] k; simpl; [by apply fresh_add|done|by apply fresh_mul|done].
  - intros p. by apply fresh_pow.
  - by apply fresh_mul.
  - by apply fresh_tanh.
  - by apply fresh_exp.
Qed.

Lemma operators_return_fresh_nodes_or_fail_cleanly_witness :
  (forall op, fresh_or_untouched (store_of (leaf 2%float))
     (node_op op 0 (OLit 0%float) (store_of (leaf 2%float))))
  ∧ (forall op k, fresh_or_untouched (store_of (leaf 2%float))
       (number_op op k 0 (store_of (leaf 2%float))))
  ∧ (forall p, fresh_or_untouched (store_of (leaf 2%float))
       (__pow__ 0 p (store_of (leaf 2%float))))
  ∧ fresh_or_untouched (store_of (leaf 2%float)) (__neg__ 0 (store_of (leaf 2%float)))
  ∧ fresh_or_untouched (store_of (leaf 2%float)) (tanh 0 (store_of (leaf 2%float)))
  ∧ fresh_or_untouched (store_of (leaf 2%float)) (exp 0 (store_of (leaf 2%float))).
Proof.
  apply (operators_return_fresh_nodes_or_fail_cleanly (store_of (leaf 2%float)) 0
           (OLit 0%float)).
  - eexists. reflexivity.
  - exact I.
Defined.

(** X9.  The value of a neuron.  For a neuron whose weights and bias are
    nodes of the store, called on a list of numbers and nodes of the store,
    [sum(...)] builds a node [act] holding [b + w1*x1 + w2*x2 + ...], added
    from left to right; the call returns a new [tanh] node over [act]
    holding [(e - 1)/(e + 1)] for [e = math.exp(2*act.data)], and raises
    what [math.exp] or the division raises, after the nodes of the sum have
    been added to the store. *)
Theorem Neuron_call_value {F} {A : Arith F}
    (n : Neuron.t) (xs : list (operand F)) (h : heap F) :
  Forall (fun r => is_Some (h !! r)) (Neuron.parameters n) ->
  Forall (operand_valid h) xs ->
  exists vb pre new act va,
    h !! Neuron.b n = Some vb
    ∧ weighted_sum h (data vb) (zip (Neuron.w n) xs) = Some pre
    ∧ (h ++ new) !! act = Some va ∧ data va = pre
    ∧ Neuron.__call__ n (Many xs) h
      = match f_exp (f_mul (f_lit 2) pre) with
        | Ok e =>
            match f_div (f_sub e (f_lit 1)) (f_add e (f_lit 1)) with
            | Ok t =>
                (Ok (length (h ++ new)),
                 (h ++ new)
                 ++ [built t (BwTanh act t (length (h ++ new))) [act] OpTanh])
            | Raise x => (Raise x, h ++ new)
            end
        | Raise x => (Raise x, h ++ new)
        end.
Proof.
  intros Hp Hx. unfold Neuron.parameters in Hp.
  apply Forall_app in Hp as [Hw Hb].
  apply Forall_singleton in Hb as [vb Hb].
  destruct (sum_products_spec (zip (Neuron.w n) xs) (Neuron.b n) h vb Hb)
    as (pre & new & act & va & Hs & E & Ha & Hd).
  { apply Forall_forall. intros [w x] Hin. simpl.
    rewrite Forall_forall in Hw. rewrite Forall_forall in Hx. split.
    - apply Hw. by eapply elem_of_zip_l.
    - apply Hx. by eapply elem_of_zip_r. }
  exists vb, pre, new, act, va. split; [done|]. split; [done|]. split; [done|].
  split; [done|].
  unfold Neuron.__call__, bind. rewrite E. rewrite (tanh_spec _ act va Ha), Hd. done.
Qed.

Lemma Neuron_call_value_witness :
  exists vb pre new act va,
    store_of (product_plus 2 3 1)%float !! 2 = Some vb
    ∧ weighted_sum (store_of (product_plus 2 3 1)%float) (data vb)
        (zip [0; 1] [OLit 0.5%float; ONode 3]) = Some pre
    ∧ (store_of (product_plus 2 3 1)%float ++ new) !! act = Some va ∧ data va = pre
    ∧ Neuron.__call__ {| Neuron.w := [0; 1]; Neuron.b := 2 |}
        (Many [OLit 0.5%float; ONode 3]) (store_of (product_plus 2 3 1)%float)
      = match f_exp (f_mul (f_lit 2) pre) with
        | Ok e =>
            match f_div (f_sub e (f_lit 1)) (f_add e (f_lit 1)) with
            | Ok t =>
                (Ok (length (store_of (product_plus 2 3 1)%float ++ new)),
                 (store_of (product_plus 2 3 1)%float ++ new)
                 ++ [built t (BwTanh act t
                                (length (store_of (product_plus 2 3 1)%float ++ new)))
                       [act] OpTanh])
            | Raise x => (Raise x, store_of (product_plus 2 3 1)%float ++ new)
            end
        | Raise x => (Raise x, store_of (product_plus 2 3 1)%float ++ new)
        end.
Proof.
  apply (Neuron_call_value {| Neuron.w := [0; 1]; Neuron.b := 2 |}
           [OLit 0.5%float; ONode 3] (store_of (product_plus 2 3 1)%float)).
  - repeat constructor; eexists; reflexivity.
  - repeat constructor. eexists; reflexivity.
Defined.

(** X10.  A neuron does not check the length of its input: [zip] stops at
    the shorter of the weights and the inputs, so inputs beyond the number
    of weights are ignored, and with fewer inputs than weights the weights
    beyond the number of inputs are ignored. *)
Theorem Neuron_call_truncates {F} {A : Arith F}
    (n : Neuron.t) (xs : list (operand F)) (h : heap F) :
  Neuron.__call__ n (Many xs) h
  = Neuron.__call__ n (Many (take (length (Neuron.w n)) xs)) h
  ∧ Neuron.__call__ n (Many xs) h
    = Neuron.__call__
        {| Neuron.w := take (length xs) (Neuron.w n); Neuron.b := Neuron.b n |}
        (Many xs) h.
Proof.
  unfold Neuron.__call__. simpl. by rewrite zip_take_l, zip_take_r.
Qed.

(** X11.  What a layer returns, when it returns: a single node exactly when
    it holds one neuron, and otherwise the list of the outputs of its
    neurons, one per neuron (the empty list for a layer without neurons). *)
Theorem Layer_call_shape {F} {A : Arith F}
    (l : Layer.t) (x : activations F) (h : heap F) (r : activations F) (h' : heap F) :
  Layer.__call__ l x h = (Ok r, h') ->
  match r with
  | One _ => length (Layer.neurons l) = 1
  | Many os => length os = length (Layer.neurons l) ∧ length (Layer.neurons l) ≠ 1
  end.
Proof.
  unfold Layer.__call__, bind.
  destruct (Layer.call_neurons (Layer.neurons l) x h) as [[os|e] h1] eqn:E; [|done].
  apply call_neurons_length in E.
  destruct os as [|o [|o' os]]; intros [= <- _]; simpl in *.
  - split; [done|]. rewrite <- E. done.
  - done.
  - rewrite length_fmap. simpl. split; [done|]. rewrite <- E. done.
Qed.

Lemma Layer_call_shape_witness :
  match Many (F:=float) [] with
  | One _ => length (Layer.neurons {| Layer.neurons := [] |}) = 1
  | Many os => length os = length (Layer.neurons {| Layer.neurons := [] |})
               ∧ length (Layer.neurons {| Layer.neurons := [] |}) ≠ 1
  end.
Proof.
  apply (Layer_call_shape {| Layer.neurons := [] |} (Many [OLit 1%float]) [] (Many []) []).
  reflexivity.
Defined.

(** X12.  A layer of one neuron cannot feed another layer.  A layer with
    neurons, called on the single node that a one-neuron layer returns,
    raises [TypeError] ([zip] over a [Value]) and allocates nothing; so a
    network in which a layer of one neuron is followed by a layer with
    neurons never returns a value. *)
Theorem single_neuron_hidden_layer_fails {F} {A : Arith F}
    (ls1 : list Layer.t) (l l2 : Layer.t) (ls2 : list Layer.t)
    (x : activations F) (h : heap F) :
  length (Layer.neurons l) = 1 -> Layer.neurons l2 ≠ [] ->
  (forall o h0, Layer.__call__ l2 (One o) h0 = (Raise TypeError, h0))
  ∧ exists e h', MLP.__call__ {| MLP.layers := ls1 ++ l :: l2 :: ls2 |} x h = (Raise e, h').
Proof.
  intros Hl Hl2.
  assert (H2 : forall o h0, Layer.__call__ l2 (One o) h0 = (Raise TypeError, h0)).
  { intros o h0. unfold Layer.__call__, bind. destruct (Layer.neurons l2); done. }
  split; [exact H2|]. unfold MLP.__call__. simpl.
  revert x h. induction ls1 as [|l0 ls1 IH]; intros x h; simpl.
  - unfold bind at 1. destruct (Layer.__call__ l x h) as [[y|e] h1] eqn:E; [|by eauto].
    pose proof (Layer_call_shape l x h y h1 E) as Hs.
    destruct y as [o|os]; [|by destruct Hs].
    unfold bind at 1. rewrite H2. eauto.
  - unfold bind at 1. destruct (Layer.__call__ l0 x h) as [[y|e] h1]; [|by eauto].
    apply IH.
Qed.

Lemma single_neuron_hidden_layer_fails_witness :
  (forall o h0,
     Layer.__call__ (F:=float) {| Layer.neurons := [{| Neuron.w := []; Neuron.b := 0 |}] |}
       (One o) h0 = (Raise TypeError, h0))
  ∧ exists e h',
      MLP.__call__
        {| MLP.layers :=
             [] ++ {| Layer.neurons := [{| Neuron.w := []; Neuron.b := 0 |}] |}
                :: {| Layer.neurons := [{| Neuron.w := []; Neuron.b := 0 |}] |} :: [] |}
        (Many []) (store_of (leaf 1%float)) = (Raise e, h').
Proof.
  apply (single_neuron_hidden_layer_fails []
           {| Layer.neurons := [{| Neuron.w := []; Neuron.b := 0 |}] |}
           {| Layer.neurons := [{| Neuron.w := []; Neuron.b := 0 |}] |} []
           (Many []) (store_of (leaf 1%float))).
  - reflexivity.
  - discriminate.
Defined.

(** X13.  The parameters of a network.  [MLP(nin, nouts)] never raises;
    it draws one number per parameter and allocates one leaf for each, in
    order; [parameters()] returns exactly these leaves in allocation order,
    without repetition; their number is the sum over the layers of
    [nout * (nin + 1)], each layer taking the size of the layer before as
    its [nin]; the [j]-th of them holds the [j]-th number drawn, with
    gradient [0.0]; and the layers have the sizes [nouts]. *)
Theorem MLP_init_parameters {F} {A : Arith F}
    (rand : nat -> F) (k nin : nat) (nouts : list nat) (h : heap F) :
  exists n,
    MLP.__init__ rand k nin nouts h
    = (Ok (n, k + parameter_count nin nouts),
       h ++ drawn rand k (parameter_count nin nouts))
    ∧ MLP.parameters n = seq (length h) (parameter_count nin nouts)
    ∧ NoDup (MLP.parameters n)
    ∧ Forall2 (fun l nout => length (Layer.neurons l) = nout) (MLP.layers n) nouts
    ∧ (forall j, j < parameter_count nin nouts ->
         (h ++ drawn rand k (parameter_count nin nouts)) !! (length h + j)
         = Some (mkValue (rand (k + j)) (f_lit 0) BwNone ∅ OpLeaf EmptyString)).
Proof.
  destruct (make_layers_spec rand nouts nin k h) as (ls & E & Hf & Hp).
  exists {| MLP.layers := ls |}. unfold MLP.__init__, bind. rewrite E.
  split; [done|]. split; [done|]. split; [|split; [done|]].
  - unfold MLP.parameters. simpl. rewrite Hp. apply NoDup_seq.
  - intros j Hj. by rewrite lookup_drawn.
Qed.

(** X14.  Division by a zero.  On binary64 floats, [a / b] for a node [b]
    whose value is [0.0] or [-0.0] does not build a node holding [inf] or
    [nan]: [b ** -1] raises [ZeroDivisionError], and the store is left as it
    was.  The same holds for [a / k] with a number [k] equal to zero. *)
Theorem division_by_zero_raises (L : Float64.libm)
    (h : heap float) (a b : ref) (va vb : Value float) (k : float) :
  h !! a = Some va -> h !! b = Some vb ->
  (data vb =? 0)%float = true -> (k =? 0)%float = true ->
  __truediv__ (A:=Float64.arith L) a (ONode b) h = (Raise ZeroDivisionError, h)
  ∧ __truediv__ (A:=Float64.arith L) a (OLit k) h = (Raise ZeroDivisionError, h).
Proof.
  intros Ha Hb Hz Hk. split.
  - simpl. unfold bind. rewrite (pow_spec h b vb _ Hb). cbn [as_exponent].
    destruct (float_eqb_zero _ Hz) as [-> | ->]; reflexivity.
  - simpl. unfold bind, lift.
    destruct (float_eqb_zero _ Hk) as [-> | ->]; reflexivity.
Qed.

Lemma division_by_zero_raises_witness :
  __truediv__ (A:=Float64.arith Float64.reference) 0 (ONode 1)
    (store_of (let* a := leaf 1%float in leaf (-0)%float))
  = (Raise ZeroDivisionError, store_of (let* a := leaf 1%float in leaf (-0)%float))
  ∧ __truediv__ (A:=Float64.arith Float64.reference) 0 (OLit 0%float)
      (store_of (let* a := leaf 1%float in leaf (-0)%float))
    = (Raise ZeroDivisionError, store_of (let* a := leaf 1%float in leaf (-0)%float)).
Proof.
  apply (division_by_zero_raises Float64.reference
           (store_of (let* a := leaf 1%float in leaf (-0)%float)) 0 1
           (built 1%float BwNone [] OpLeaf) (built (-0)%float BwNone [] OpLeaf) 0%float).
  - reflexivity.
  - reflexivity.
  - reflexivity.
  - reflexivity.
Defined.



(** X16.  Every parameter is under the output.  For a network built by
    [MLP(nin, nouts)] with no layer of size [0], called on a list of [nin]
    numbers and nodes of the store: when the call returns a single node
    [o], every parameter of the network is reachable from [o] along operand
    edges, so that it is in the order [o.backward()] builds. *)
Theorem every_parameter_is_under_the_output {F} {A : Arith F}
    (rand : nat -> F) (k nin : nat) (nouts : list nat) (h0 : heap F)
    (n : MLP.t) (k' : nat) (h : heap F) (xs : list (operand F))
    (o : ref) (h1 : heap F) :
  MLP.__init__ rand k nin nouts h0 = (Ok (n, k'), h) ->
  Forall (fun m => 0 < m) nouts ->
  length xs = nin -> Forall (operand_valid h) xs ->
  MLP.__call__ n (Many xs) h = (Ok (One o), h1) ->
  forall p, p ∈ MLP.parameters n -> reachable h1 o p.
Proof.
  intros Hinit Hpos Hlen Hx Hcall p Hp.
  destruct (make_layers_spec rand nouts nin k h0) as (ls & E & _ & Hps).
  unfold MLP.__init__, bind in Hinit.
  destruct (MLP.make_layers rand k nin nouts h0) as [[[ls' k2]|e] h2] eqn:El; [|done].
  injection Hinit as <- <- <-. injection E as <- _ ->.
  pose proof (make_layers_shaped rand nouts nin k h0 _ _ _ Hpos El) as Hsh.
  unfold MLP.__call__, MLP.parameters in *. simpl in *.
  eapply (call_layers_reach ls' xs _ (fun _ => False) (One o) h1);
    [by rewrite Hlen| |exact Hx|done|exact Hcall|by right].
  intros q Hq. rewrite Hps in Hq. apply elem_of_seq in Hq.
  apply lookup_lt_is_Some_2. rewrite length_app, length_drawn. lia.
Qed.

Lemma every_parameter_is_under_the_output_witness :
  reachable half_network_called 125 0.
Proof.
  apply (every_parameter_is_under_the_output (fun _ => 0.5%float) 0 3 [4; 4; 1] []
           half_network_model 41 half_network.2
           [OLit 2%float; OLit 3%float; OLit (-1)%float] 125 half_network_called).
  - vm_compute. reflexivity.
  - repeat constructor.
  - reflexivity.
  - repeat constructor.
  - vm_compute. reflexivity.
  - apply (bool_decide_unpack _). vm_compute. exact I.
Defined.

End Further.
